(** * Indian retail chain performance analysis: aggregation engine

    A shallow embedding of [retail_performance_analysis.py] (class
    [RetailAnalytics]) and of the pandas / NumPy / SciPy operations it calls,
    followed by the properties of the aggregation pipeline.

    Numbers.  Every measure of the dataset is a Python float, that is an IEEE
    754 binary64 value.  The analyses are written once, over an interface
    [Number], and read at two instances:

    - [F64.binary64]: Rocq's primitive binary64 floats.  This is the arithmetic
      the program runs; it is executable, and every concrete evaluation and
      every property of comparisons, NaN and division by zero is stated here.
    - [Ideal.exact]: the real numbers extended with NaN and the two infinities,
      with the same special-value rules and no rounding error.  Statements that
      hold "within floating-point tolerance" are stated here as exact
      identities.

    Sums.  pandas adds the terms of a grouped sum by Kahan's compensated
    summation ([sum], [mean]) and the terms of a whole column by NumPy's
    pairwise summation ([series_sum], [series_mean]); integer columns are
    added in int64 ([sum_int]).

    Missing values.  An empty cell of the file is NaN in a numeric column and
    a missing value, [None], in a column of strings; [groupby] leaves out the
    rows whose key is missing and [nunique] does not count them.  A file
    that holds only its header gives a dataset without rows, whose columns
    have the dtype [object]. *)

From Stdlib Require Import String Ascii.
From Stdlib Require Import ZArith List Bool Lia Permutation Sorted.
From Stdlib Require Import Floats.
From Stdlib Require Uint63 DecimalString OrderedTypeEx.
From Stdlib Require Import Reals Lra.
Import ListNotations.
Open Scope string_scope.
Open Scope list_scope.

Set Warnings "-inexact-float".

(** ** The numeric interface *)

Declare Scope num_scope.
Delimit Scope num_scope with num.

Class Number (F : Type) : Type := {
  of_Z : Z -> F;
  nan : F;
  infinity : F;
  num_add : F -> F -> F;
  num_sub : F -> F -> F;
  num_mul : F -> F -> F;
  num_div : F -> F -> F;
  num_opp : F -> F;
  num_abs : F -> F;
  num_sqrt : F -> F;
  (* round to the nearest integer, ties to even: C's and NumPy's [rint] *)
  rint : F -> F;
  num_eqb : F -> F -> bool;
  num_ltb : F -> F -> bool;
  num_leb : F -> F -> bool
}.

Infix "+" := num_add : num_scope.
Infix "-" := num_sub : num_scope.
Infix "*" := num_mul : num_scope.
Infix "/" := num_div : num_scope.
Notation "- x" := (num_opp x) : num_scope.
Infix "=?" := num_eqb (at level 70, no associativity) : num_scope.
Infix "<?" := num_ltb (at level 70, no associativity) : num_scope.
Infix "<=?" := num_leb (at level 70, no associativity) : num_scope.

(** ** Binary64: the arithmetic of the program *)

Module F64.

Definition two52 : float := 4503599627370496%float.

(** C's [rint] in round-to-nearest-even mode: below 2^52 in magnitude, adding
    and subtracting 2^52 rounds to an integer; from 2^52 on every binary64
    value is an integer; NaN and the infinities are returned unchanged; the
    sign of the argument is kept (rint(-0.3) = -0.0). *)
Definition rint64 (x : float) : float :=
  if PrimFloat.ltb (PrimFloat.abs x) two52 then
    let r := PrimFloat.sub (PrimFloat.add (PrimFloat.abs x) two52) two52 in
    if PrimFloat.ltb x 0%float then PrimFloat.opp r
    else if PrimFloat.eqb x 0%float then x else r
  else x.

(** Conversion of a Python int (exact below 2^53 in magnitude). *)
Definition float_of_Z (z : Z) : float :=
  match z with
  | Z0 => 0%float
  | Zpos _ => PrimFloat.of_uint63 (Uint63.of_Z z)
  | Zneg _ => PrimFloat.opp (PrimFloat.of_uint63 (Uint63.of_Z (Z.opp z)))
  end.

#[export] Instance binary64 : Number float := {|
  of_Z := float_of_Z;
  nan := PrimFloat.nan;
  infinity := PrimFloat.infinity;
  num_add := PrimFloat.add;
  num_sub := PrimFloat.sub;
  num_mul := PrimFloat.mul;
  num_div := PrimFloat.div;
  num_opp := PrimFloat.opp;
  num_abs := PrimFloat.abs;
  num_sqrt := PrimFloat.sqrt;
  rint := rint64;
  num_eqb := PrimFloat.eqb;
  num_ltb := PrimFloat.ltb;
  num_leb := PrimFloat.leb
|}.

(** the comparison of two values in the IEEE 754 specification: [None] when
    one of them is NaN *)
Definition cmp (x y : float) : option comparison :=
  SFcompare (Prim2SF x) (Prim2SF y).

End F64.

(** ** Exact arithmetic with the IEEE special values *)

Module Ideal.

Inductive xreal : Type :=
| Fin (r : R)
| NaN
| PInf
| NInf.

Definition Rsign (r : R) : comparison :=
  if Rlt_dec r 0 then Lt else if Rlt_dec 0 r then Gt else Eq.

Definition xopp (a : xreal) : xreal :=
  match a with
  | Fin x => Fin (- x)
  | NaN => NaN
  | PInf => NInf
  | NInf => PInf
  end.

Definition xadd (a b : xreal) : xreal :=
  match a, b with
  | NaN, _ | _, NaN => NaN
  | Fin x, Fin y => Fin (x + y)
  | PInf, NInf | NInf, PInf => NaN
  | PInf, _ | _, PInf => PInf
  | NInf, _ | _, NInf => NInf
  end.

Definition xsub (a b : xreal) : xreal := xadd a (xopp b).

(** an infinity with the sign of [c] times the sign of [pos]; 0 * inf is NaN *)
Definition inf_signed (pos : bool) (c : comparison) : xreal :=
  match c with
  | Eq => NaN
  | Gt => if pos then PInf else NInf
  | Lt => if pos then NInf else PInf
  end.

Definition xmul (a b : xreal) : xreal :=
  match a, b with
  | NaN, _ | _, NaN => NaN
  | Fin x, Fin y => Fin (x * y)
  | PInf, Fin y => inf_signed true (Rsign y)
  | NInf, Fin y => inf_signed false (Rsign y)
  | Fin x, PInf => inf_signed true (Rsign x)
  | Fin x, NInf => inf_signed false (Rsign x)
  | PInf, PInf | NInf, NInf => PInf
  | PInf, NInf | NInf, PInf => NInf
  end.

(** zero carries no sign here: x / 0 takes the sign of x, and inf / 0 keeps
    the sign of the infinity *)
Definition xdiv (a b : xreal) : xreal :=
  match a, b with
  | NaN, _ | _, NaN => NaN
  | Fin x, Fin y =>
      if Req_dec_T y 0 then inf_signed true (Rsign x) else Fin (x / y)
  | Fin _, PInf | Fin _, NInf => Fin 0
  | PInf, Fin y => if Rlt_dec y 0 then NInf else PInf
  | NInf, Fin y => if Rlt_dec y 0 then PInf else NInf
  | PInf, PInf | PInf, NInf | NInf, PInf | NInf, NInf => NaN
  end.

Definition xabs (a : xreal) : xreal :=
  match a with
  | Fin x => Fin (Rabs x)
  | NaN => NaN
  | PInf | NInf => PInf
  end.

Definition xsqrt (a : xreal) : xreal :=
  match a with
  | Fin x => if Rlt_dec x 0 then NaN else Fin (R_sqrt.sqrt x)
  | NaN | NInf => NaN
  | PInf => PInf
  end.

(** nearest integer, ties to even; [Int_part] is the floor *)
Definition rint_Z (x : R) : Z :=
  let f := Int_part x in
  let d := (x - IZR f)%R in
  if Rlt_dec d (1 / 2) then f
  else if Rlt_dec (1 / 2) d then (f + 1)%Z
  else if Z.even f then f else (f + 1)%Z.

Definition xrint (a : xreal) : xreal :=
  match a with
  | Fin x => Fin (IZR (rint_Z x))
  | _ => a
  end.

Definition xeqb (a b : xreal) : bool :=
  match a, b with
  | Fin x, Fin y => if Req_dec_T x y then true else false
  | PInf, PInf | NInf, NInf => true
  | _, _ => false
  end.

Definition xltb (a b : xreal) : bool :=
  match a, b with
  | Fin x, Fin y => if Rlt_dec x y then true else false
  | NInf, Fin _ | NInf, PInf | Fin _, PInf => true
  | _, _ => false
  end.

Definition xleb (a b : xreal) : bool :=
  match a, b with
  | Fin x, Fin y => if Rle_dec x y then true else false
  | NInf, Fin _ | NInf, PInf | Fin _, PInf | PInf, PInf | NInf, NInf => true
  | _, _ => false
  end.

#[export] Instance exact : Number xreal := {|
  of_Z := fun z => Fin (IZR z);
  nan := NaN;
  infinity := PInf;
  num_add := xadd;
  num_sub := xsub;
  num_mul := xmul;
  num_div := xdiv;
  num_opp := xopp;
  num_abs := xabs;
  num_sqrt := xsqrt;
  rint := xrint;
  num_eqb := xeqb;
  num_ltb := xltb;
  num_leb := xleb
|}.

(** a value that is a real number *)
Definition is_real (a : xreal) : Prop := exists r, a = Fin r.

Definition to_R (a : xreal) : R :=
  match a with
  | Fin r => r
  | _ => 0%R
  end.

Definition Rsum (l : list R) : R := fold_right Rplus 0%R l.

(** [np.round] on a real number *)
Definition round_R (decimals : Z) (x : R) : R :=
  if (decimals =? 0)%Z then IZR (rint_Z x)
  else (IZR (rint_Z (x * IZR (10 ^ decimals))) / IZR (10 ^ decimals))%R.

(** the real values of a column, in order of the rows *)
Definition finite_part (xs : list xreal) : list R :=
  flat_map (fun x => match x with Fin r => [r] | _ => [] end) xs.

End Ideal.

(** ** Exceptions *)

Inductive exn : Type :=
| ValueError (msg : string)
| KeyError (msg : string)
| ZeroDivisionError (msg : string)
| TypeError (msg : string)
| AttributeError.

Inductive result (A : Type) : Type :=
| Ok (a : A)
| Raise (e : exn).

Arguments Ok {A} a.
Arguments Raise {A} e.

Definition bind {A B : Type} (m : result A) (k : A -> result B) : result B :=
  match m with
  | Ok a => k a
  | Raise e => Raise e
  end.

Notation "x <- m ;; k" := (bind m (fun x => k))
  (at level 61, m at next level, right associativity).

(** ** Group keys

    [groupby] sorts its groups by key ([sort=True] is the default): strings by
    code point, integers by value, tuples lexicographically. *)

Class Key (K : Type) : Type := {
  key_eqb : K -> K -> bool;
  key_ltb : K -> K -> bool
}.

#[export] Instance string_Key : Key string := {|
  key_eqb := String.eqb;
  key_ltb := String.ltb
|}.

#[export] Instance Z_Key : Key Z := {|
  key_eqb := Z.eqb;
  key_ltb := Z.ltb
|}.

#[export] Instance pair_Key {K1 K2 : Type} `{Key K1} `{Key K2} : Key (K1 * K2) := {|
  key_eqb := fun a b => key_eqb (fst a) (fst b) && key_eqb (snd a) (snd b);
  key_ltb := fun a b =>
    key_ltb (fst a) (fst b) || (key_eqb (fst a) (fst b) && key_ltb (snd a) (snd b))
|}.

(** ** pandas and NumPy primitives *)

Section Pandas.

Context {F : Type} {num : Number F}.
Local Open Scope num_scope.

Definition notna (x : F) : bool := x =? x.
Definition is_nan (x : F) : bool := negb (x =? x).
(** [np.isfinite] *)
Definition is_finite (x : F) : bool := num_abs x <? infinity.

Definition of_nat (n : nat) : F := of_Z (Z.of_nat n).

Definition dropna (xs : list F) : list F := filter notna xs.

(** ['sum'] in a grouped reduction ([group_sum] of pandas' groupby.pyx):
    Kahan's compensated summation over the values present, in the order of
    the rows; the compensation is reset to 0 when it comes out as NaN (an
    infinite value came in).  The sum of nothing is 0. *)
Definition kahan_step (st : F * F) (val : F) : F * F :=
  let (sumx, compensation) := st in
  let y := val - compensation in
  let t := sumx + y in
  let c := t - sumx - y in
  (t, if is_nan c then of_Z 0 else c).

Definition sum (xs : list F) : F :=
  fst (fold_left kahan_step (dropna xs) (of_Z 0, of_Z 0)).

(** two's complement wrap-around of int64 *)
Definition wrap64 (z : Z) : Z := ((z + 2 ^ 63) mod 2 ^ 64 - 2 ^ 63)%Z.

(** ['sum'] of an integer column in a grouped reduction: int64 addition *)
Definition sum_int (xs : list Z) : Z := fold_left (fun a x => wrap64 (a + x)) xs 0%Z.

(** [Series.count] *)
Definition count (xs : list F) : nat := List.length (dropna xs).

(** ['mean'] in a grouped reduction ([group_mean]): the compensated sum of
    the values present over their number, NaN when there is none *)
Definition mean (xs : list F) : F :=
  if Nat.eqb (count xs) 0 then nan else sum xs / of_nat (count xs).

(** the values of a column of strings that are present; a missing value
    (NaN, from an empty cell of the file) is [None] *)
Definition present {A : Type} (xs : list (option A)) : list A :=
  flat_map (fun x => match x with Some a => [a] | None => [] end) xs.

(** ['nunique'] of a column of strings: missing values are not counted *)
Definition nunique (xs : list (option string)) : nat :=
  List.length (nodup string_dec (present xs)).

(** [np.round(x, decimals)] for [decimals >= 0]: [rint] when [decimals] is
    0, else scale by the power of ten, [rint], scale back *)
Definition round (decimals : Z) (x : F) : F :=
  if (decimals =? 0)%Z then rint x
  else rint (x * of_Z (10 ^ decimals)) / of_Z (10 ^ decimals).

(** *** groupby *)

Section Groupby.

Context {A K : Type} {key_ops : Key K}.

(** a row joins the group of its key, after the rows already there; a new
    key opens a group at its place in the order of the keys; a row whose key
    is missing joins no group ([dropna=True]) *)
Fixpoint insert_row (k : K) (r : A) (gs : list (K * list A)) : list (K * list A) :=
  match gs with
  | [] => [(k, [r])]
  | (k', rs) :: gs' =>
      if key_eqb k k' then (k', rs ++ [r]) :: gs'
      else if key_ltb k k' then (k, [r]) :: gs
      else (k', rs) :: insert_row k r gs'
  end.

Definition groupby (key : A -> option K) (rows : list A) : list (K * list A) :=
  fold_left (fun gs r => match key r with
                         | Some k => insert_row k r gs
                         | None => gs
                         end) rows [].

(** *** idxmax, idxmin

    [Series.idxmax] with [skipna=True]: missing values are replaced by
    -inf, then [argmax] returns the first position of the largest value.
    An empty series raises [ValueError]; so does a series of missing
    values only (older versions return a NaN label there, and the lookup
    by that label then raises [KeyError]). *)
Fixpoint first_best (better : F -> F -> bool) (best_k : K) (best : F)
         (s : list (K * F)) : K :=
  match s with
  | [] => best_k
  | (k, v) :: rest =>
      if better v best then first_best better k v rest
      else first_best better best_k best rest
  end.

Definition fillna (fill : F) (v : F) : F := if is_nan v then fill else v.

Definition idx_extreme (better : F -> F -> bool) (fill : F) (what : string)
           (s : list (K * F)) : result K :=
  match s with
  | [] => Raise (ValueError ("attempt to get " ++ what ++ " of an empty sequence")%string)
  | (k0, v0) :: rest =>
      if forallb (fun kv => is_nan (snd kv)) s
      then Raise (ValueError "Encountered all NA values")
      else Ok (first_best better k0 (fillna fill v0)
                 (map (fun kv => (fst kv, fillna fill (snd kv))) rest))
  end.

Definition idxmax : list (K * F) -> result K :=
  idx_extreme (fun v best => best <? v) (- infinity) "argmax".

Definition idxmin : list (K * F) -> result K :=
  idx_extreme (fun v best => v <? best) infinity "argmin".

End Groupby.

(** *** pct_change

    [data / data.shift(1) - 1], where [data] is the column with its missing
    values filled forward (the default [fill_method='pad'] of pandas 1 and
    2; pandas 3 does not fill, and agrees on a column without missing
    values). *)
Fixpoint ffill_from (last : F) (xs : list F) : list F :=
  match xs with
  | [] => []
  | x :: xs' =>
      if is_nan x then last :: ffill_from last xs'
      else x :: ffill_from x xs'
  end.

Definition ffill (xs : list F) : list F := ffill_from nan xs.

Definition shift (xs : list F) : list F :=
  match xs with
  | [] => []
  | _ :: _ => nan :: removelast xs
  end.

Definition pct_change (xs : list F) : list F :=
  map (fun cp => fst cp / snd cp - of_Z 1) (combine (ffill xs) (shift (ffill xs))).

(** *** nlargest, nsmallest

    [DataFrame.nsmallest(n, column)] with [keep='first']: the rows whose
    value is present, in ascending order of the value by a stable sort (equal
    values stay in the order of the frame), then the rows whose value is
    missing, in the order of the frame; the first [n] of these.
    [nlargest] is the same on the negated values.  (When [n] is not less
    than the number of rows pandas sorts the whole column with [sort_values]
    instead: the same rows in the same order of values, but the order among
    equal values is then that of NumPy's default sort, which is not
    specified.  The statements about the order of ties are made for frames
    of more than [n] rows.) *)
Section SelectN.

Context {A : Type}.

Fixpoint insert_by (le : A -> A -> bool) (x : A) (l : list A) : list A :=
  match l with
  | [] => [x]
  | y :: l' => if le x y then x :: l else y :: insert_by le x l'
  end.

Definition stable_sort (le : A -> A -> bool) (l : list A) : list A :=
  fold_right (insert_by le) [] l.

(** the frame in selection order *)
Definition ranking (value : A -> F) (frame : list A) : list A :=
  stable_sort (fun a b => value a <=? value b)
              (filter (fun r => notna (value r)) frame)
  ++ filter (fun r => is_nan (value r)) frame.

Definition select_n (n : nat) (value : A -> F) (frame : list A) : list A :=
  firstn n (ranking value frame).

Definition nsmallest (n : nat) (column : A -> F) (frame : list A) : list A :=
  select_n n column frame.

Definition nlargest (n : nat) (column : A -> F) (frame : list A) : list A :=
  select_n n (fun r => - column r) frame.

End SelectN.

(** *** corr

    [DataFrame.corr()] is pandas' [nancorr] with [min_periods = 1]: for each
    pair of columns, Welford's recurrence over the rows where both values
    are finite; the coefficient is the co-moment over the square root of the
    product of the two sums of squared deviations, clipped to [-1, 1]; it is
    NaN when no row qualifies or when that square root is zero.  The entry
    is computed for [yi <= xi] and written to both [(xi, yi)] and
    [(yi, xi)]. *)
Record welford : Type := {
  nobs : Z;
  meanx : F;
  meany : F;
  ssqdm_x : F;
  ssqdm_y : F;
  covxy : F
}.

Definition welford_init : welford :=
  {| nobs := 0; meanx := of_Z 0; meany := of_Z 0;
     ssqdm_x := of_Z 0; ssqdm_y := of_Z 0; covxy := of_Z 0 |}.

Definition welford_step (st : welford) (v : F * F) : welford :=
  let (vx, vy) := v in
  if is_finite vx && is_finite vy then
    let n := (nobs st + 1)%Z in
    let dx := vx - meanx st in
    let dy := vy - meany st in
    let mx := meanx st + of_Z 1 / of_Z n * dx in
    let my := meany st + of_Z 1 / of_Z n * dy in
    {| nobs := n; meanx := mx; meany := my;
       ssqdm_x := ssqdm_x st + (vx - mx) * dx;
       ssqdm_y := ssqdm_y st + (vy - my) * dy;
       covxy := covxy st + (vx - mx) * dy |}
  else st.

Definition clip_unit (val : F) : F :=
  if of_Z 1 <? val then of_Z 1
  else if val <? - of_Z 1 then - of_Z 1
  else val.

Definition nancorr_pair (xs ys : list F) : F :=
  let st := fold_left welford_step (combine xs ys) welford_init in
  if (nobs st <? 1)%Z then nan
  else
    let divisor := num_sqrt (ssqdm_x st * ssqdm_y st) in
    if negb (divisor =? of_Z 0) then clip_unit (covxy st / divisor)
    else nan.

Definition corr_entry (cols : list (list F)) (i j : nat) : F :=
  nancorr_pair (nth (Nat.max i j) cols []) (nth (Nat.min i j) cols []).

Definition corr (cols : list (list F)) : list (list F) :=
  map (fun i => map (fun j => corr_entry cols i j) (seq 0 (List.length cols)))
      (seq 0 (List.length cols)).

(** [correlation_matrix.iloc[i, j]] *)
Definition iloc (m : list (list F)) (i j : nat) : F := nth j (nth i m []) nan.

(** *** NumPy's sum

    [np.add.reduce] over a contiguous array of float64 (NumPy 1.25 and
    later): pairwise summation.  A block of fewer than 8 values is added
    from left to right, starting from -0.0; a block of at most 128 values is
    added in 8 interleaved accumulators, which are then added in pairs, and
    the values left over are added one by one; a longer block is split in
    two, the first part a multiple of 8 long.  The result is added to the
    initial value -0.0; the sum of an empty array is 0.0. *)
Definition add_all (acc : F) (xs : list F) : F := fold_left num_add xs acc.

Definition zip_add (r chunk : list F) : list F :=
  map (fun p => fst p + snd p) (combine r chunk).

Fixpoint add_chunks (k : nat) (r rest : list F) : list F * list F :=
  match k with
  | O => (r, rest)
  | S k' => add_chunks k' (zip_add r (firstn 8 rest)) (skipn 8 rest)
  end.

Definition reduce8 (r : list F) : F :=
  let at_ i := nth i r (of_Z 0) in
  ((at_ 0 + at_ 1) + (at_ 2 + at_ 3)) + ((at_ 4 + at_ 5) + (at_ 6 + at_ 7)).

(** [fuel] bounds the depth of the recursion; the length of the array is
    enough (lemma [pairwise_sum_fuel]) *)
Fixpoint pairwise_sum (fuel : nat) (a : list F) : F :=
  let n := List.length a in
  if Nat.ltb n 8 then add_all (- of_Z 0) a
  else if Nat.leb n 128 then
    let (r, rest) := add_chunks (n / 8 - 1) (firstn 8 a) (skipn 8 a) in
    add_all (reduce8 r) rest
  else
    match fuel with
    | O => add_all (- of_Z 0) a
    | S fuel' =>
        let n2 := (n / 2 - (n / 2) mod 8)%nat in
        pairwise_sum fuel' (firstn n2 a) + pairwise_sum fuel' (skipn n2 a)
    end.

Definition np_sum (xs : list F) : F :=
  match xs with
  | [] => of_Z 0
  | _ :: _ => - of_Z 0 + pairwise_sum (List.length xs) xs
  end.

(** [np.mean] *)
Definition np_mean (xs : list F) : F := np_sum xs / of_nat (List.length xs).

(** *** Series.sum and Series.mean

    pandas' [nansum] and [nanmean] (without the optional bottleneck
    package): the missing values are replaced by 0 where they stand, and the
    array is added by NumPy; the mean divides by the number of values
    present and is NaN when there is none. *)
Definition series_sum (xs : list F) : F :=
  np_sum (map (fun v => if is_nan v then of_Z 0 else v) xs).

Definition series_mean (xs : list F) : F :=
  if Nat.eqb (count xs) 0 then nan else series_sum xs / of_nat (count xs).

End Pandas.

(** ** The dataset *)

Section RetailAnalytics.

Context {F : Type} {num : Number F}.
Local Open Scope num_scope.

(** One row of the CSV file: one store in one month.  A text column holds
    [None] where the cell of the file is empty ([read_csv] reads it as NaN);
    a float column holds NaN there.  The integer columns ([year], [month],
    [customer_count], [total_items_sold]) are int64 columns, without empty
    cells. *)
Record row : Type := {
  store_id : option string;
  chain_name : option string;
  category : option string;
  region : option string;
  tier : option string;
  year : Z;
  month : Z;
  sales_amount : F;
  net_profit : F;
  gross_margin_pct : F;
  net_margin_pct : F;
  customer_count : Z;
  avg_basket_value : F;
  inventory_turnover_ratio : F;
  customer_satisfaction_score : F;
  total_items_sold : Z
}.

(** [self.data].  The dataset without rows is the file that holds only its
    header line: [read_csv] then gives every column the dtype [object], and
    the reductions of such columns are Python objects ([sum] is the integer
    0), which is why some analyses below raise on it. *)
Definition dataset : Type := list row.

(** the keys of the grouped reductions: a row with a missing text key is in
    no group *)
Definition store_key (r : row) : option (string * string * string) :=
  match store_id r, chain_name r, tier r with
  | Some s, Some c, Some t => Some (s, c, t)
  | _, _, _ => None
  end.

Definition period_key (r : row) : option (Z * Z) := Some (year r, month r).

Definition month_key (r : row) : option Z := Some (month r).

(** ** financial_analysis *)

(** the grouped reduction of line 60, rounded to 2 decimals and renamed *)
Record chain_agg : Type := {
  agg_chain : string;
  agg_Total_Sales : F;
  agg_Avg_Sales : F;
  agg_Total_Profit : F;
  agg_Avg_Margin : F;
  agg_Total_Customers : Z;
  agg_Store_Count : nat
}.

Record chain_row : Type := {
  chain : string;
  Total_Sales : F;
  Avg_Sales : F;
  Total_Profit : F;
  Avg_Margin : F;
  Total_Customers : Z;
  Store_Count : nat;
  Sales_Crores : F;
  ROI_Score : F
}.

Definition chain_reduce (g : string * list row) : chain_agg :=
  let rows := snd g in
  {| agg_chain := fst g;
     agg_Total_Sales := round 2 (sum (map sales_amount rows));
     agg_Avg_Sales := round 2 (mean (map sales_amount rows));
     agg_Total_Profit := round 2 (sum (map net_profit rows));
     agg_Avg_Margin := round 2 (mean (map net_margin_pct rows));
     agg_Total_Customers := sum_int (map customer_count rows);
     agg_Store_Count := nunique (map store_id rows) |}.

Definition chain_derive (a : chain_agg) : chain_row :=
  {| chain := agg_chain a;
     Total_Sales := agg_Total_Sales a;
     Avg_Sales := agg_Avg_Sales a;
     Total_Profit := agg_Total_Profit a;
     Avg_Margin := agg_Avg_Margin a;
     Total_Customers := agg_Total_Customers a;
     Store_Count := agg_Store_Count a;
     Sales_Crores := round 1 (agg_Total_Sales a / of_Z 10000000);
     ROI_Score :=
       round 2 (agg_Avg_Margin a * of_Z (agg_Total_Customers a) / of_Z 100000) |}.

(** lines 60-72: the per-chain table *)
Definition chain_table (data : dataset) : list chain_row :=
  map (fun g => chain_derive (chain_reduce g)) (groupby chain_name data).

(** the numbers behind the "Overall Performance" lines, before formatting,
    and the returned table *)
Record financial_report : Type := {
  total_revenue : F;
  total_profit : F;
  avg_margin : F;
  total_revenue_crores : F;
  total_profit_crores : F;
  overall_margin : F;
  chain_performance : list chain_row
}.

(** On the dataset without rows the two totals are the Python integer 0 and
    line 56 divides 0 by 0. *)
Definition financial_analysis (data : dataset) : result financial_report :=
  match data with
  | [] => Raise (ZeroDivisionError "division by zero")
  | _ :: _ =>
      let total_revenue := series_sum (map sales_amount data) in
      let total_profit := series_sum (map net_profit data) in
      let avg_margin := series_mean (map net_margin_pct data) in
      Ok {| total_revenue := total_revenue;
            total_profit := total_profit;
            avg_margin := avg_margin;
            total_revenue_crores := total_revenue / of_Z 10000000;
            total_profit_crores := total_profit / of_Z 10000000;
            overall_margin := total_profit / total_revenue * of_Z 100;
            chain_performance := chain_table data |}
  end.

(** ** category_analysis *)

Record category_agg : Type := {
  cat_category : string;
  cat_sales_amount : F;
  cat_net_profit : F;
  cat_gross_margin_pct : F;
  cat_net_margin_pct : F;
  cat_customer_count : Z;
  cat_inventory_turnover_ratio : F
}.

Record category_row : Type := {
  cat_agg : category_agg;
  Sales_Share_pct : F;
  Profit_Contribution : F
}.

Definition category_reduce (g : string * list row) : category_agg :=
  let rows := snd g in
  {| cat_category := fst g;
     cat_sales_amount := round 2 (sum (map sales_amount rows));
     cat_net_profit := round 2 (sum (map net_profit rows));
     cat_gross_margin_pct := round 2 (mean (map gross_margin_pct rows));
     cat_net_margin_pct := round 2 (mean (map net_margin_pct rows));
     cat_customer_count := sum_int (map customer_count rows);
     cat_inventory_turnover_ratio :=
       round 2 (mean (map inventory_turnover_ratio rows)) |}.

Definition category_analysis (data : dataset) : list category_row :=
  let category_metrics := map category_reduce (groupby category data) in
  let sales_total := series_sum (map cat_sales_amount category_metrics) in
  let profit_total := series_sum (map cat_net_profit category_metrics) in
  map (fun a =>
         {| cat_agg := a;
            Sales_Share_pct := round 1 (cat_sales_amount a / sales_total * of_Z 100);
            Profit_Contribution :=
              round 1 (cat_net_profit a / profit_total * of_Z 100) |})
      category_metrics.

(** ** regional_analysis *)

Record region_agg : Type := {
  reg_region : string;
  reg_sales_amount : F;
  reg_net_profit : F;
  reg_store_id : nat;
  reg_customer_count : Z
}.

Record region_row : Type := {
  reg_agg : region_agg;
  Sales_Per_Store : F;
  Profit_Margin : F
}.

Record tier_row : Type := {
  tier_tier : string;
  tier_sales_amount : F;
  tier_net_margin_pct : F;
  tier_avg_basket_value : F;
  tier_customer_satisfaction_score : F
}.

Definition region_reduce (g : string * list row) : region_agg :=
  let rows := snd g in
  {| reg_region := fst g;
     reg_sales_amount := round 0 (sum (map sales_amount rows));
     reg_net_profit := round 0 (sum (map net_profit rows));
     reg_store_id := nunique (map store_id rows);
     reg_customer_count := sum_int (map customer_count rows) |}.

Definition region_derive (a : region_agg) : region_row :=
  {| reg_agg := a;
     Sales_Per_Store := round 0 (reg_sales_amount a / of_nat (reg_store_id a));
     Profit_Margin :=
       round 2 (reg_net_profit a / reg_sales_amount a * of_Z 100) |}.

Definition tier_reduce (g : string * list row) : tier_row :=
  let rows := snd g in
  {| tier_tier := fst g;
     tier_sales_amount := round 2 (sum (map sales_amount rows));
     tier_net_margin_pct := round 2 (mean (map net_margin_pct rows));
     tier_avg_basket_value := round 2 (mean (map avg_basket_value rows));
     tier_customer_satisfaction_score :=
       round 2 (mean (map customer_satisfaction_score rows)) |}.

Definition regional_metrics (data : dataset) : list region_row :=
  map (fun g => region_derive (region_reduce g)) (groupby region data).

Definition tier_analysis (data : dataset) : list tier_row :=
  map tier_reduce (groupby tier data).

Definition regional_analysis (data : dataset) : list region_row * list tier_row :=
  (regional_metrics data, tier_analysis data).

(** ** time_series_analysis *)

Record month_agg : Type := {
  mt_year : Z;
  mt_month : Z;
  mt_sales_amount : F;
  mt_net_profit : F;
  mt_customer_count : Z
}.

Record month_row : Type := {
  mt_agg : month_agg;
  month_year : string;
  mt_profit_margin : F;
  sales_growth : F;
  customer_growth : F
}.

Definition month_reduce (g : (Z * Z) * list row) : month_agg :=
  let rows := snd g in
  {| mt_year := fst (fst g);
     mt_month := snd (fst g);
     mt_sales_amount := sum (map sales_amount rows);
     mt_net_profit := sum (map net_profit rows);
     mt_customer_count := sum_int (map customer_count rows) |}.

Definition str_of_Z (z : Z) : string := DecimalString.NilZero.string_of_int (Z.to_int z).

(** [str.zfill(2)] on the text of a month number *)
Definition zfill2 (s : string) : string :=
  if Nat.ltb (String.length s) 2 then "0" ++ s else s.

(** [pct_change() * 100] *)
Definition growth (values : list F) : list F :=
  map (fun g => g * of_Z 100) (pct_change values).

Definition monthly_trends (data : dataset) : list month_row :=
  let aggs := map month_reduce (groupby period_key data) in
  let sales_growth := growth (map mt_sales_amount aggs) in
  let customer_growth := growth (map (fun a => of_Z (mt_customer_count a)) aggs) in
  map (fun t =>
         let a := fst (fst t) in
         {| mt_agg := a;
            month_year := (str_of_Z (mt_year a) ++ "-" ++ zfill2 (str_of_Z (mt_month a)))%string;
            mt_profit_margin :=
              round 2 (mt_net_profit a / mt_sales_amount a * of_Z 100);
            sales_growth := snd (fst t);
            customer_growth := snd t |})
      (combine (combine aggs sales_growth) customer_growth).

(** mean sales by calendar month, over all years *)
Definition seasonal_performance (data : dataset) : list (Z * F) :=
  map (fun g => (fst g, mean (map sales_amount (snd g)))) (groupby month_key data).

(** [seasonal_performance[label]] *)
Fixpoint series_get (s : list (Z * F)) (label : Z) : result F :=
  match s with
  | [] => Raise (KeyError (str_of_Z label))
  | (k, v) :: rest => if Z.eqb k label then Ok v else series_get rest label
  end.

(** [DataFrame.tail(n)] *)
Definition tail {A : Type} (n : nat) (l : list A) : list A :=
  skipn (List.length l - n) l.

(** the returned table and the numbers behind the printed lines: for each of
    the last six months its label, its sales in millions and its growth;
    the peak and low months with their average sales in millions *)
Record time_series_report : Type := {
  ts_monthly_trends : list month_row;
  recent_performance : list (string * F * F);
  peak_month : Z;
  peak_avg_millions : F;
  low_month : Z;
  low_avg_millions : F
}.

Definition time_series_analysis (data : dataset) : result time_series_report :=
  let trends := monthly_trends data in
  let recent_data := tail 6 trends in
  peak <- idxmax (seasonal_performance data) ;;
  low <- idxmin (seasonal_performance data) ;;
  peak_avg <- series_get (seasonal_performance data) peak ;;
  low_avg <- series_get (seasonal_performance data) low ;;
  Ok {| ts_monthly_trends := trends;
        recent_performance :=
          map (fun r => (month_year r,
                         mt_sales_amount (mt_agg r) / of_Z 1000000,
                         sales_growth r))
              recent_data;
        peak_month := peak;
        peak_avg_millions := peak_avg / of_Z 1000000;
        low_month := low;
        low_avg_millions := low_avg / of_Z 1000000 |}.

(** ** operational_analysis *)

Record store_agg : Type := {
  st_store_id : string;
  st_chain_name : string;
  st_tier : string;
  st_sales_amount : F;
  st_net_profit : F;
  st_customer_count : Z;
  st_total_items_sold : Z;
  st_inventory_turnover_ratio : F;
  st_customer_satisfaction_score : F
}.

Record store_row : Type := {
  st_agg : store_agg;
  sales_per_customer : F;
  profit_margin : F
}.

Definition store_reduce (g : (string * string * string) * list row) : store_agg :=
  let rows := snd g in
  {| st_store_id := fst (fst (fst g));
     st_chain_name := snd (fst (fst g));
     st_tier := snd (fst g);
     st_sales_amount := sum (map sales_amount rows);
     st_net_profit := sum (map net_profit rows);
     st_customer_count := sum_int (map customer_count rows);
     st_total_items_sold := sum_int (map total_items_sold rows);
     st_inventory_turnover_ratio := mean (map inventory_turnover_ratio rows);
     st_customer_satisfaction_score :=
       mean (map customer_satisfaction_score rows) |}.

Definition store_derive (a : store_agg) : store_row :=
  {| st_agg := a;
     sales_per_customer :=
       round 0 (st_sales_amount a / of_Z (st_customer_count a));
     profit_margin := round 2 (st_net_profit a / st_sales_amount a * of_Z 100) |}.

Definition store_efficiency (data : dataset) : list store_row :=
  map (fun g => store_derive (store_reduce g)) (groupby store_key data).

(** On the dataset without rows the column [profit_margin] has the dtype
    [object], which [nlargest] and [nsmallest] refuse. *)
Definition top_stores (data : dataset) : result (list store_row) :=
  match data with
  | [] => Raise (TypeError "Column 'profit_margin' has dtype object, cannot use method 'nlargest' with this dtype")
  | _ :: _ => Ok (nlargest 5 profit_margin (store_efficiency data))
  end.

Definition bottom_stores (data : dataset) : result (list store_row) :=
  match data with
  | [] => Raise (TypeError "Column 'profit_margin' has dtype object, cannot use method 'nsmallest' with this dtype")
  | _ :: _ => Ok (nsmallest 5 profit_margin (store_efficiency data))
  end.

Record operational_report : Type := {
  op_store_efficiency : list store_row;
  op_top_stores : list store_row;
  op_bottom_stores : list store_row
}.

Definition operational_analysis (data : dataset) : result operational_report :=
  top <- top_stores data ;;
  bottom <- bottom_stores data ;;
  Ok {| op_store_efficiency := store_efficiency data;
        op_top_stores := top;
        op_bottom_stores := bottom |}.

(** ** statistical_insights *)

Definition numeric_cols : list (string * (row -> F)) :=
  [ ("sales_amount", sales_amount);
    ("gross_margin_pct", gross_margin_pct);
    ("customer_count", fun r => of_Z (customer_count r));
    ("avg_basket_value", avg_basket_value);
    ("inventory_turnover_ratio", inventory_turnover_ratio);
    ("customer_satisfaction_score", customer_satisfaction_score) ].

(** [self.data[numeric_cols]], column by column *)
Definition numeric_frame (data : dataset) : list (list F) :=
  map (fun c => map (snd c) data) numeric_cols.

Definition correlation_matrix (data : dataset) : list (list F) :=
  corr (numeric_frame data).

Record correlation_line : Type := {
  var1 : string;
  var2 : string;
  direction : string;
  corr_val : F
}.

Definition column_name (i : nat) : string := nth i (map fst numeric_cols) "".

(** the double loop of lines 221-229 over the pairs [i < j] *)
Definition high_corr (m : list (list F)) : list correlation_line :=
  flat_map
    (fun i =>
       flat_map
         (fun j =>
            let corr_val := iloc m i j in
            if of_Z 5 / of_Z 10 <? num_abs corr_val
            then [ {| var1 := column_name i;
                      var2 := column_name j;
                      direction :=
                        if of_Z 0 <? corr_val then "positive" else "negative";
                      corr_val := corr_val |} ]
            else [])
         (seq (S i) (List.length numeric_cols - S i)))
    (seq 0 (List.length numeric_cols)).

(** The two-sided tail probability of Student's t distribution, from the
    degrees of freedom and the statistic: SciPy's special function, which
    is not modelled. *)
Variable student_t_two_sided : F -> F -> F.

(** SciPy's [_var(x, ddof=1)]: the mean of the squared deviations from the
    mean, times [n / (n - 1)] *)
Definition scipy_var (xs : list F) : F :=
  let m := np_mean xs in
  let n := Z.of_nat (List.length xs) in
  np_mean (map (fun x => (x - m) * (x - m)) xs) * (of_Z n / of_Z (n - 1)).

(** [scipy.stats.ttest_ind] with its defaults (pooled variance, two-sided,
    NaN propagated), on two float64 samples.  A sample without observations
    gives a NaN statistic and a NaN p-value, with a warning and no
    exception.  The variance of a sample of one observation counts as 0
    ([_equal_var_ttest_denom]). *)
Definition ttest_ind (a b : list F) : F * F :=
  if Nat.eqb (List.length a) 0 || Nat.eqb (List.length b) 0 then (nan, nan)
  else
    let n1 := Z.of_nat (List.length a) in
    let n2 := Z.of_nat (List.length b) in
    let v1 := if (n1 =? 1)%Z then of_Z 0 else scipy_var a in
    let v2 := if (n2 =? 1)%Z then of_Z 0 else scipy_var b in
    let df := of_Z (n1 + n2) - of_Z 2 in
    let svar := (of_Z (n1 - 1) * v1 + of_Z (n2 - 1) * v2) / df in
    let denom := num_sqrt (svar * (of_Z 1 / of_Z n1 + of_Z 1 / of_Z n2)) in
    let t := (np_mean a - np_mean b) / denom in
    (t, student_t_two_sided df t).

(** [self.data[self.data['tier'] == name]['sales_amount']]: a missing tier
    equals no name *)
Definition tier_sales (name : string) (data : dataset) : list F :=
  map sales_amount
      (filter (fun r => match tier r with
                        | Some t => String.eqb t name
                        | None => false
                        end) data).

Record statistical_report : Type := {
  st_correlation_matrix : list (list F);
  st_high_corr : list correlation_line;
  t_stat : F;
  p_value : F;
  verdict : string
}.

(** On the dataset without rows the two samples are empty arrays of dtype
    [object], on which [ttest_ind] raises [AttributeError]. *)
Definition statistical_insights (data : dataset) : result statistical_report :=
  let m := correlation_matrix data in
  let metro_sales := tier_sales "Metro" data in
  let tier1_sales := tier_sales "Tier_1" data in
  match data with
  | [] => Raise AttributeError
  | _ :: _ =>
      let (t_stat, p_value) := ttest_ind metro_sales tier1_sales in
      Ok {| st_correlation_matrix := m;
            st_high_corr := high_corr m;
            t_stat := t_stat;
            p_value := p_value;
            verdict :=
              if p_value <? of_Z 5 / of_Z 100 then "Significant"
              else "Not Significant" |}
  end.

End RetailAnalytics.

Arguments row F : clear implicits.
Arguments dataset F : clear implicits.


(** ** Further parts of the program *)

Section FurtherAnalytics.

Context {F : Type} {num : Number F}.
Local Open Scope num_scope.

(** *** data_quality_check

    The numbers of the "Business Metrics Validation" lines (lines 37-42),
    before formatting.  The shape, the date range, the count of missing
    values and the count of duplicated rows of lines 32-35 are not
    modelled. *)
Record business_metrics : Type := {
  bm_total_revenue_crores : F;
  bm_average_margin : F;
  stores_analyzed : nat;
  time_periods : nat
}.

Definition data_quality_check (data : dataset F) : business_metrics :=
  {| bm_total_revenue_crores := series_sum (map sales_amount data) / of_Z 10000000;
     bm_average_margin := series_mean (map net_margin_pct data);
     stores_analyzed := nunique (map store_id data);
     time_periods := List.length (groupby period_key data) |}.

(** *** the marks of the printed lines *)

(** line 101: the mark before a category, from its mean net margin *)
Definition profit_status (net_margin_pct : F) : string :=
  if of_Z 5 <? net_margin_pct then "✅"
  else if of_Z 0 <? net_margin_pct then "⚠️"
  else "❌".

(** lines 100-102: mark, category, share of sales and margin of each line *)
Definition category_lines (data : dataset F) : list (string * string * F * F) :=
  map (fun r => (profit_status (cat_net_margin_pct (cat_agg r)),
                 cat_category (cat_agg r),
                 Sales_Share_pct r,
                 cat_net_margin_pct (cat_agg r)))
      (category_analysis data).

(** line 162: the mark before a month, from its growth of sales *)
Definition growth_indicator (sales_growth : F) : string :=
  if of_Z 0 <? sales_growth then "📈"
  else if sales_growth <? - of_Z 5 then "📉"
  else "📊".

(** lines 160-163: mark and label of each of the last six months *)
Definition recent_indicators (data : dataset F) : list (string * string) :=
  map (fun r => (growth_indicator (sales_growth r), month_year r))
      (tail 6 (monthly_trends data)).

(** *** generate_executive_summary

    The numbers and names that the summary interpolates (lines 338-344 and
    354); the fixed text and the time stamp are not modelled. *)
Record executive_summary : Type := {
  es_total_revenue : F;
  es_total_profit : F;
  es_overall_margin : F;
  es_stores_analyzed : nat;
  best_chain : string;
  best_category : string;
  best_region : string
}.

(** [self.data.groupby(key)['net_margin_pct'].mean()] *)
Definition margin_by (key : row F -> option string) (data : dataset F) :
  list (string * F) :=
  map (fun g => (fst g, mean (map net_margin_pct (snd g)))) (groupby key data).

(** On the dataset without rows the two totals are the Python integer 0 and
    line 340 divides 0 by 0, before any group is looked at. *)
Definition generate_executive_summary (data : dataset F) : result executive_summary :=
  let total_revenue := series_sum (map sales_amount data) in
  let total_profit := series_sum (map net_profit data) in
  _ <- match data with
       | [] => Raise (ZeroDivisionError "division by zero")
       | _ :: _ => Ok tt
       end ;;
  let overall_margin := total_profit / total_revenue * of_Z 100 in
  best_chain <- idxmax (margin_by chain_name data) ;;
  best_category <- idxmax (margin_by category data) ;;
  best_region <- idxmax (margin_by region data) ;;
  Ok {| es_total_revenue := total_revenue;
        es_total_profit := total_profit;
        es_overall_margin := overall_margin;
        es_stores_analyzed := nunique (map store_id data);
        best_chain := best_chain;
        best_category := best_category;
        best_region := best_region |}.

End FurtherAnalytics.
(** ** Fixtures *)

Module Fixtures.

Import F64.

(** a row of a test dataset; the measures that a fixture does not vary are
    fixed *)
Definition fixture_row (store chain cat reg tr : string) (y m : Z)
           (sales profit margin : float) : row float :=
  {| store_id := Some store; chain_name := Some chain; category := Some cat;
     region := Some reg; tier := Some tr; year := y; month := m;
     sales_amount := sales; net_profit := profit;
     gross_margin_pct := 25%float; net_margin_pct := margin;
     customer_count := 100;
     avg_basket_value := 500%float;
     inventory_turnover_ratio := 4%float;
     customer_satisfaction_score := 4%float;
     total_items_sold := 300 |}.

(** three rows of chain "A": sales 100, 200, 300 and profits 10, 10, 15,
    hence row margins 10%, 5%, 5% *)
Definition chain_A : dataset float :=
  [ fixture_row "S1" "A" "Grocery" "South" "Metro" 2023 1 100 10 10;
    fixture_row "S2" "A" "Grocery" "South" "Metro" 2023 2 200 10 5;
    fixture_row "S3" "A" "Fashion" "North" "Tier_1" 2023 3 300 15 5 ].

(** a store with neither sales nor profit (East), a store with a loss and no
    sales (West), and a trading store (North) *)
Definition east_row : row float :=
  fixture_row "S1" "A" "Grocery" "East" "Metro" 2023 1 0 0 0.

Definition closed_stores : dataset float :=
  [ east_row;
    fixture_row "S2" "B" "Grocery" "West" "Metro" 2023 1 0 (-50) 0;
    fixture_row "S3" "A" "Fashion" "North" "Tier_1" 2023 1 300 15 5 ].

(** a dataset with stores in Metro and Tier_2 cities and none in Tier_1 *)
Definition no_tier1 : dataset float :=
  [ fixture_row "S1" "A" "Grocery" "South" "Metro" 2023 1 100 10 10;
    fixture_row "S2" "A" "Grocery" "South" "Metro" 2023 1 200 10 5;
    fixture_row "S3" "B" "Fashion" "North" "Tier_2" 2023 1 300 15 5 ].

(** a stand-in for the tail probability of Student's t distribution *)
Definition certain_tail (df t : float) : float := 0%float.

(** two consecutive months with sales 100 and then 120 *)
Definition two_months : dataset float :=
  [ fixture_row "S1" "A" "Grocery" "South" "Metro" 2023 1 100 10 10;
    fixture_row "S1" "A" "Grocery" "South" "Metro" 2023 2 120 12 10 ].

(** three stores of chain "A" in one region, with sales of 100 in total *)
Definition three_stores : dataset float :=
  [ fixture_row "S1" "A" "Grocery" "South" "Metro" 2023 1 30 3 10;
    fixture_row "S2" "A" "Grocery" "South" "Metro" 2023 1 30 1.5 5;
    fixture_row "S3" "A" "Fashion" "South" "Tier_1" 2023 1 40 2 5 ].

(** two years of one store: January averages (100 + 300) / 2 = 200, February
    200, March 50 *)
Definition seasons : dataset float :=
  [ fixture_row "S1" "A" "Grocery" "South" "Metro" 2023 1 100 10 10;
    fixture_row "S1" "A" "Grocery" "South" "Metro" 2023 2 200 10 5;
    fixture_row "S1" "A" "Grocery" "South" "Metro" 2023 3 50 5 10;
    fixture_row "S1" "A" "Grocery" "South" "Metro" 2024 1 300 15 5 ].

(** one month of a store with sales of 100 *)
Definition store_month (store : string) (profit : float) : row float :=
  fixture_row store "A" "Grocery" "South" "Metro" 2023 1 100 profit profit.

(** eleven stores with the same margin, 10% *)
Definition eleven_equal : dataset float :=
  map (fun store => store_month store 10)
      [ "S01"; "S02"; "S03"; "S04"; "S05"; "S06"; "S07"; "S08"; "S09"; "S10"; "S11" ].

(** eleven stores with the margins 1%, 2%, ..., 11% *)
Definition eleven_distinct : dataset float :=
  [ store_month "S01" 1; store_month "S02" 2; store_month "S03" 3;
    store_month "S04" 4; store_month "S05" 5; store_month "S06" 6;
    store_month "S07" 7; store_month "S08" 8; store_month "S09" 9;
    store_month "S10" 10; store_month "S11" 11 ].

(** four rows in which sales, gross margin, customers and turnover vary, and
    basket value and satisfaction do not *)
Definition measured_row (sales gross : float) (customers : Z) (turnover : float) :
  row float :=
  {| store_id := Some "S1"; chain_name := Some "A"; category := Some "Grocery";
     region := Some "South";
     tier := Some "Metro"; year := 2023; month := 1;
     sales_amount := sales; net_profit := 10%float;
     gross_margin_pct := gross; net_margin_pct := 5%float;
     customer_count := customers;
     avg_basket_value := 500%float;
     inventory_turnover_ratio := turnover;
     customer_satisfaction_score := 4%float;
     total_items_sold := 300 |}.

Definition measured : dataset float :=
  [ measured_row 100 30 10 4;
    measured_row 200 28 20 5;
    measured_row 300 26 30 4;
    measured_row 400 20 40 5 ].

(** two rows over the reals, with sales of 100 and 200 and every other measure
    constant *)
Definition exact_row (sales : R) : row Ideal.xreal :=
  {| store_id := Some "S1"; chain_name := Some "A"; category := Some "Grocery";
     region := Some "South";
     tier := Some "Metro"; year := 2023; month := 1;
     sales_amount := Ideal.Fin sales; net_profit := Ideal.Fin 10;
     gross_margin_pct := Ideal.Fin 25; net_margin_pct := Ideal.Fin 5;
     customer_count := 100;
     avg_basket_value := Ideal.Fin 500;
     inventory_turnover_ratio := Ideal.Fin 4;
     customer_satisfaction_score := Ideal.Fin 4;
     total_items_sold := 300 |}.

Definition exact_two : dataset Ideal.xreal := [ exact_row 100; exact_row 200 ].

(** two categories, neither with any sales *)
Definition no_sales : dataset float :=
  [ fixture_row "S1" "A" "Grocery" "South" "Metro" 2023 1 0 0 0;
    fixture_row "S2" "A" "Fashion" "South" "Metro" 2023 1 0 0 0 ].

End Fixtures.


Module MoreFixtures.

Import F64 Fixtures.


(** two rows, the second without a category (an empty cell of the file) *)
Definition uncategorised : dataset float :=
  [ fixture_row "S1" "A" "Grocery" "South" "Metro" 2023 1 100 10 10;
    {| store_id := Some "S2"; chain_name := Some "A"; category := None;
       region := Some "South"; tier := Some "Metro"; year := 2023; month := 1;
       sales_amount := 200%float; net_profit := 10%float;
       gross_margin_pct := 25%float; net_margin_pct := 5%float;
       customer_count := 100;
       avg_basket_value := 500%float;
       inventory_turnover_ratio := 4%float;
       customer_satisfaction_score := 4%float;
       total_items_sold := 300 |} ].

(** January with sales of 0.1, 0.2 and 0.3, February with sales of 0.2 *)
Definition tenths : dataset float :=
  [ fixture_row "S1" "A" "Grocery" "South" "Metro" 2023 1 0.1 0 0;
    fixture_row "S2" "A" "Grocery" "South" "Metro" 2023 1 0.2 0 0;
    fixture_row "S3" "A" "Grocery" "South" "Metro" 2023 1 0.3 0 0;
    fixture_row "S1" "A" "Grocery" "South" "Metro" 2023 2 0.2 0 0 ].

(** a row of the region "West" without a store identifier (an empty cell of
    the file), with sales of 100 *)
Definition unnamed_store : row float :=
  {| store_id := None; chain_name := Some "A"; category := Some "Grocery";
     region := Some "West"; tier := Some "Metro"; year := 2023; month := 1;
     sales_amount := 100%float; net_profit := 10%float;
     gross_margin_pct := 25%float; net_margin_pct := 10%float;
     customer_count := 100;
     avg_basket_value := 500%float;
     inventory_turnover_ratio := 4%float;
     customer_satisfaction_score := 4%float;
     total_items_sold := 300 |}.

(** the three stores of the region "South" and the row of "West" *)
Definition unnamed_region : dataset float := three_stores ++ [unnamed_store].

(** a store that opens in February: no sales in January, sales of 100 in
    February *)
Definition opening : dataset float :=
  [ fixture_row "S1" "A" "Grocery" "South" "Metro" 2023 1 0 0 0;
    fixture_row "S1" "A" "Grocery" "South" "Metro" 2023 2 100 10 10 ].

(** a store whose counter of customers stayed at zero *)
Definition uncounted : dataset float :=
  [ {| store_id := Some "S1"; chain_name := Some "A"; category := Some "Grocery";
     region := Some "South";
       tier := Some "Metro"; year := 2023; month := 1;
       sales_amount := 100%float; net_profit := 10%float;
       gross_margin_pct := 25%float; net_margin_pct := 10%float;
       customer_count := 0;
       avg_basket_value := 500%float;
       inventory_turnover_ratio := 4%float;
       customer_satisfaction_score := 4%float;
       total_items_sold := 300 |} ].

(** two rows over the reals in which the sales are ten times the number of
    customers *)
Definition proportional_row (customers : Z) (sales : R) : row Ideal.xreal :=
  {| store_id := Some "S1"; chain_name := Some "A"; category := Some "Grocery";
     region := Some "South";
     tier := Some "Metro"; year := 2023; month := 1;
     sales_amount := Ideal.Fin sales; net_profit := Ideal.Fin 10;
     gross_margin_pct := Ideal.Fin 25; net_margin_pct := Ideal.Fin 5;
     customer_count := customers;
     avg_basket_value := Ideal.Fin 500;
     inventory_turnover_ratio := Ideal.Fin 4;
     customer_satisfaction_score := Ideal.Fin 4;
     total_items_sold := 300 |}.

Definition proportional : dataset Ideal.xreal :=
  [ proportional_row 10 100; proportional_row 20 200 ].

End MoreFixtures.

(** ** Vocabulary of the statements *)

(** What a lawful key comparison is: [key_eqb] decides equality and [key_ltb]
    is a strict total order. *)
Class KeyLaws (K : Type) {key_ops : Key K} : Prop := {
  key_eqb_eq : forall a b : K, key_eqb a b = true <-> a = b;
  key_ltb_irrefl : forall a : K, key_ltb a a = false;
  key_ltb_trans : forall a b c : K,
    key_ltb a b = true -> key_ltb b c = true -> key_ltb a c = true;
  key_ltb_total : forall a b : K,
    key_eqb a b = false -> key_ltb a b = false -> key_ltb b a = true
}.

Definition key_lt {K : Type} {key_ops : Key K} (a b : K) : Prop :=
  key_ltb a b = true.

(** the rows of a frame with a given key, in the order of the frame *)
Definition has_key {A K : Type} {key_ops : Key K} (key : A -> option K) (k : K)
           (x : A) : bool :=
  match key x with
  | Some k' => key_eqb k' k
  | None => false
  end.

Definition rows_of {A K : Type} {key_ops : Key K} (key : A -> option K) (k : K)
           (rows : list A) : list A :=
  filter (has_key key k) rows.

(** the rows whose key is present *)
Definition keyed {A K : Type} (key : A -> option K) (rows : list A) : list A :=
  filter (fun x => match key x with Some _ => true | None => false end) rows.


(** earlier calendar month *)
Definition chronological (a b : Z * Z) : Prop :=
  (fst a < fst b)%Z \/ (fst a = fst b /\ (snd a < snd b)%Z).

Definition le_prop {A : Type} (le : A -> A -> bool) (a b : A) : Prop :=
  le a b = true.

Section ExactVocabulary.

Import Ideal.
Local Open Scope R_scope.

(** the state of Welford's recurrence after the real values [l] of a column
    paired with itself: both means are the same real, the three accumulators
    are the same non-negative real, and that real is zero exactly when all
    the values are equal *)
Definition welford_diag_inv (l : list R) (st : welford) : Prop :=
  nobs st = Z.of_nat (length l)
  /\ exists m s,
       meanx st = Fin m /\ meany st = Fin m
       /\ ssqdm_x st = Fin s /\ ssqdm_y st = Fin s /\ covxy st = Fin s
       /\ 0 <= s
       /\ (l = [] -> m = 0 /\ s = 0)
       /\ (s = 0 -> forall x, In x l -> x = m)
       /\ (0 < s -> exists x y, In x l /\ In y l /\ x <> y).

(** a value that is a real number or is missing *)
Definition not_infinite (a : xreal) : Prop := a <> PInf /\ a <> NInf.

(** the real sum of the sales of a group *)
Definition group_sales (g : string * list (row xreal)) : R :=
  Rsum (map (fun r => to_R (sales_amount r)) (snd g)).

End ExactVocabulary.

(** the calendar months that occur in the dataset, each once *)
Definition distinct_periods {F : Type} (data : dataset F) : list (Z * Z) :=
  nodup (fun a b : Z * Z => ltac:(decide equality; apply Z.eq_dec) : {a = b} + {a <> b})
        (map (fun r => (year r, month r)) data).

(** the calendar month of a row of the monthly table *)
Definition period {F : Type} (r : @month_row F) : Z * Z :=
  (mt_year (mt_agg r), mt_month (mt_agg r)).

Section FloatVocabulary.

Import F64.

(** [k] is the label that [idxmax] selects in the series [s]: with a missing
    value counted as minus infinity, no value of the series is larger than
    the value at [k], and [k] is the first label to reach it *)
Definition first_largest {K : Type} {key_ops : Key K} (s : list (K * float)) (k : K) : Prop :=
  exists v, In (k, v) s
    /\ forall k' v', In (k', v') s ->
         PrimFloat.leb (fillna PrimFloat.neg_infinity v')
                       (fillna PrimFloat.neg_infinity v) = true
         /\ (PrimFloat.eqb (fillna PrimFloat.neg_infinity v')
                           (fillna PrimFloat.neg_infinity v) = true ->
             k = k' \/ key_lt k k').

(** [k] is the label that [idxmin] selects in the series [s]: with a missing
    value counted as plus infinity, no value of the series is smaller than
    the value at [k], and [k] is the first label to reach it *)
Definition first_smallest {K : Type} {key_ops : Key K} (s : list (K * float)) (k : K) : Prop :=
  exists v, In (k, v) s
    /\ forall k' v', In (k', v') s ->
         PrimFloat.leb (fillna PrimFloat.infinity v)
                       (fillna PrimFloat.infinity v') = true
         /\ (PrimFloat.eqb (fillna PrimFloat.infinity v')
                           (fillna PrimFloat.infinity v) = true ->
             k = k' \/ key_lt k k').

End FloatVocabulary.

Section PearsonVocabulary.

Import Ideal.
Local Open Scope R_scope.

(** the rows in which both columns hold a real number *)
Definition finite_pairs (xs ys : list xreal) : list (R * R) :=
  flat_map (fun p => match p with
                     | (Fin x, Fin y) => [(x, y)]
                     | _ => []
                     end)
           (combine xs ys).

Definition Rmean (l : list R) : R := Rsum l / INR (length l).

(** the sum over the rows of the product of the deviations of [f] and of [g]
    from their means *)
Definition codeviation {A : Type} (f g : A -> R) (l : list A) : R :=
  Rsum (map (fun p => (f p - Rmean (map f l)) * (g p - Rmean (map g l))) l).

(** Pearson's coefficient of the pairs [l]; it is undefined when one of the
    two sides does not vary *)
Definition pearson (l : list (R * R)) : xreal :=
  if Req_dec_T (codeviation fst fst l * codeviation snd snd l) 0 then NaN
  else Fin (codeviation fst snd l
            / sqrt (codeviation fst fst l * codeviation snd snd l)).

(** the state of Welford's recurrence after the pairs [l]: the means and the
    three accumulators, in terms of the sums of the values, of their squares
    and of their products *)
Definition welford_inv (l : list (R * R)) (st : welford) : Prop :=
  nobs st = Z.of_nat (length l)
  /\ exists mx my sx sy c,
       meanx st = Fin mx /\ meany st = Fin my
       /\ ssqdm_x st = Fin sx /\ ssqdm_y st = Fin sy /\ covxy st = Fin c
       /\ Rsum (map fst l) = INR (length l) * mx
       /\ Rsum (map snd l) = INR (length l) * my
       /\ Rsum (map (fun p => fst p * fst p) l) = sx + INR (length l) * mx * mx
       /\ Rsum (map (fun p => snd p * snd p) l) = sy + INR (length l) * my * my
       /\ Rsum (map (fun p => fst p * snd p) l) = c + INR (length l) * mx * my.

(** the [i]-th of the six measures of the correlation analysis *)
Definition measure (i : nat) (r : row xreal) : xreal :=
  snd (nth i numeric_cols (EmptyString, fun _ => NaN)) r.

(** 1, -1 or undefined, by the sign of the slope *)
Definition slope_sign (a : R) : xreal :=
  match Rsign a with
  | Gt => Fin 1
  | Lt => Fin (-1)
  | Eq => NaN
  end.

End PearsonVocabulary.
(** * Properties *)

(** ** Comparison and division in binary64 *)

Module SpecFloatFacts.

Lemma cont_spec p q : Pos.compare_cont Eq p q = Pos.compare p q.
Proof. reflexivity. Qed.

Lemma compare_antisym a b :
  SFcompare b a = option_map CompOpp (SFcompare a b).
Proof.
  destruct a as [[]|[]| |[] m1 e1], b as [[]|[]| |[] m2 e2]; simpl; try reflexivity;
    rewrite ?cont_spec; rewrite (Z.compare_antisym e1 e2), (Pos.compare_antisym m1 m2);
    destruct (Z.compare e1 e2); simpl; try reflexivity;
    destruct (Pos.compare m1 m2); reflexivity.
Qed.

Lemma compare_refl a : a <> S754_nan -> SFcompare a a = Some Eq.
Proof.
  destruct a as [[]|[]| |[] m e]; simpl; try congruence; intros _;
    rewrite cont_spec, Z.compare_refl, Pos.compare_refl; reflexivity.
Qed.

Lemma compare_none a b : SFcompare a b = None <-> a = S754_nan \/ b = S754_nan.
Proof.
  destruct a as [[]|[]| |[] m1 e1], b as [[]|[]| |[] m2 e2]; simpl;
    split; intros H; try discriminate; auto; destruct H; discriminate.
Qed.

Lemma compare_trans a b c x y :
  SFcompare a b = Some x -> SFcompare b c = Some y ->
  x <> Gt -> y <> Gt ->
  exists z, SFcompare a c = Some z /\ z <> Gt /\ (z = Eq -> x = Eq /\ y = Eq).
Proof.
  destruct a as [[]|[]| |[] m1 e1], b as [[]|[]| |[] m2 e2], c as [[]|[]| |[] m3 e3];
    simpl; rewrite ?cont_spec; intros H1 H2 Hx Hy;
    try discriminate;
    injection H1 as <-; injection H2 as <-;
    try congruence;
    try (eexists; split; [reflexivity|]; split; [congruence|]; intros; split; congruence).
  all: eexists; split; [reflexivity|];
       repeat match goal with
       | H : context [Z.compare ?a ?b] |- _ => destruct (Z.compare_spec a b); subst
       | |- context [Z.compare ?a ?b] => destruct (Z.compare_spec a b); subst
       end; try lia; try congruence;
       try (split; [congruence|]; intros; split; congruence);
       repeat match goal with
       | H : context [Pos.compare_cont Eq ?a ?b] |- _ =>
           change (Pos.compare_cont Eq a b) with (Pos.compare a b) in H
       | |- context [Pos.compare_cont Eq ?a ?b] =>
           change (Pos.compare_cont Eq a b) with (Pos.compare a b)
       | H : context [Pos.compare ?a ?b] |- _ => destruct (Pos.compare_spec a b); subst
       | |- context [Pos.compare ?a ?b] => destruct (Pos.compare_spec a b); subst
       end; simpl in *; try lia; try congruence;
       try (split; [congruence|]; intros; split; congruence).
Qed.

End SpecFloatFacts.

Module F64Facts.

Import SpecFloatFacts F64.
Local Open Scope float_scope.

Lemma ltb_cmp x y : (x <? y) = match cmp x y with Some Lt => true | _ => false end.
Proof. rewrite ltb_spec. reflexivity. Qed.

Lemma leb_cmp x y : (x <=? y) = match cmp x y with Some Lt | Some Eq => true | _ => false end.
Proof. rewrite leb_spec. reflexivity. Qed.

Lemma eqb_cmp x y : (x =? y) = match cmp x y with Some Eq => true | _ => false end.
Proof. rewrite eqb_spec. reflexivity. Qed.

Lemma notna_cmp x : (x =? x) = true <-> Prim2SF x <> S754_nan.
Proof.
  rewrite eqb_cmp. unfold cmp. split.
  - intros H E. rewrite E in H. discriminate.
  - intros H. rewrite compare_refl by assumption. reflexivity.
Qed.

Lemma cmp_some x y :
  (x =? x) = true -> (y =? y) = true -> exists c, cmp x y = Some c.
Proof.
  rewrite !notna_cmp. intros Hx Hy. unfold cmp.
  destruct (SFcompare (Prim2SF x) (Prim2SF y)) eqn:E; eauto.
  apply compare_none in E. tauto.
Qed.

Lemma cmp_notna x y c : cmp x y = Some c -> (x =? x) = true /\ (y =? y) = true.
Proof.
  unfold cmp. intros H. rewrite !notna_cmp.
  split; intros E; rewrite E in H; simpl in H; try discriminate.
  destruct (Prim2SF x); discriminate.
Qed.

Lemma cmp_antisym x y : cmp y x = option_map CompOpp (cmp x y).
Proof. apply compare_antisym. Qed.

Lemma ltb_notna x y : (x <? y) = true -> (x =? x) = true /\ (y =? y) = true.
Proof.
  rewrite ltb_cmp. destruct (cmp x y) eqn:E; [|discriminate].
  intros _. eapply cmp_notna; eauto.
Qed.

Lemma eqb_notna x y : (x =? y) = true -> (x =? x) = true /\ (y =? y) = true.
Proof.
  rewrite eqb_cmp. destruct (cmp x y) eqn:E; [|discriminate].
  intros _. eapply cmp_notna; eauto.
Qed.

Lemma ltb_leb x y : (x <? y) = true -> (x <=? y) = true.
Proof. rewrite ltb_cmp, leb_cmp. destruct (cmp x y) as [[]|]; congruence. Qed.

Lemma ltb_asym x y : (x <? y) = true -> (y <=? x) = false.
Proof.
  rewrite ltb_cmp, leb_cmp, (cmp_antisym x y).
  destruct (cmp x y) as [[]|]; simpl; congruence.
Qed.

Lemma leb_total x y :
  (x =? x) = true -> (y =? y) = true -> (x <? y) = false -> (y <=? x) = true.
Proof.
  intros Hx Hy. destruct (cmp_some x y Hx Hy) as [c Hc].
  rewrite ltb_cmp, leb_cmp, (cmp_antisym x y), Hc.
  destruct c; simpl; congruence.
Qed.

Lemma leb_false x y :
  (x =? x) = true -> (y =? y) = true -> (x <=? y) = false -> (y <=? x) = true.
Proof.
  intros Hx Hy. destruct (cmp_some x y Hx Hy) as [c Hc].
  rewrite !leb_cmp, (cmp_antisym x y), Hc.
  destruct c; simpl; congruence.
Qed.

Lemma leb_refl x : (x =? x) = true -> (x <=? x) = true.
Proof.
  intros H. rewrite leb_cmp. rewrite eqb_cmp in H.
  destruct (cmp x x) as [[]|]; congruence.
Qed.

Lemma cmp_trans x y z a b :
  cmp x y = Some a -> cmp y z = Some b -> a <> Gt -> b <> Gt ->
  exists c, cmp x z = Some c /\ c <> Gt /\ (c = Eq -> a = Eq /\ b = Eq).
Proof. apply compare_trans. Qed.

Lemma leb_trans x y z : (x <=? y) = true -> (y <=? z) = true -> (x <=? z) = true.
Proof.
  rewrite !leb_cmp.
  destruct (cmp x y) as [a|] eqn:E1; [|discriminate].
  destruct (cmp y z) as [b|] eqn:E2; [|destruct a; discriminate].
  intros Ha Hb.
  destruct (cmp_trans x y z a b E1 E2) as (c & -> & Hc & _);
    [destruct a; congruence | destruct b; congruence |].
  destruct c; congruence.
Qed.

Lemma leb_ltb_trans x y z : (x <=? y) = true -> (y <? z) = true -> (x <? z) = true.
Proof.
  rewrite leb_cmp, !ltb_cmp.
  destruct (cmp x y) as [a|] eqn:E1; [|discriminate].
  destruct (cmp y z) as [b|] eqn:E2; [|discriminate].
  intros Ha Hb.
  destruct (cmp_trans x y z a b E1 E2) as (c & -> & Hc & He);
    [destruct a; congruence | destruct b; congruence |].
  destruct c; try congruence. destruct He as [_ He]; [reflexivity|].
  subst b. discriminate.
Qed.

Lemma ltb_leb_trans x y z : (x <? y) = true -> (y <=? z) = true -> (x <? z) = true.
Proof.
  rewrite leb_cmp, !ltb_cmp.
  destruct (cmp x y) as [a|] eqn:E1; [|discriminate].
  destruct (cmp y z) as [b|] eqn:E2; [|destruct a; discriminate].
  intros Ha Hb.
  destruct (cmp_trans x y z a b E1 E2) as (c & -> & Hc & He);
    [destruct a; congruence | destruct b; congruence |].
  destruct c; try congruence. destruct He as [He _]; [reflexivity|].
  subst a. discriminate.
Qed.

Lemma cmp_opp x y : cmp (- x) (- y) = cmp y x.
Proof.
  unfold cmp. rewrite !opp_spec, (compare_antisym (Prim2SF x) (Prim2SF y)).
  destruct (Prim2SF x) as [[]|[]| |[] m1 e1], (Prim2SF y) as [[]|[]| |[] m2 e2];
    simpl; try reflexivity;
    destruct (Z.compare e1 e2); simpl; try reflexivity;
    destruct (Pos.compare_cont Eq m1 m2); reflexivity.
Qed.

Lemma leb_opp x y : (- x <=? - y) = (y <=? x).
Proof. rewrite !leb_cmp, cmp_opp. reflexivity. Qed.

Lemma eqb_opp x : (- x =? - x) = (x =? x).
Proof. rewrite !eqb_cmp, cmp_opp. reflexivity. Qed.

Lemma ltb_neq x y : (x <? y) = true -> (x =? y) = false /\ (y =? x) = false.
Proof.
  rewrite ltb_cmp, !eqb_cmp, (cmp_antisym x y).
  destruct (cmp x y) as [[]|]; simpl; intros; try discriminate; auto.
Qed.

Lemma eqb_class x y z :
  (x =? z) = true -> (y =? z) = true -> (x <=? y) = true.
Proof.
  rewrite !eqb_cmp, leb_cmp.
  destruct (cmp x z) as [[]|] eqn:E1; try discriminate.
  destruct (cmp y z) as [[]|] eqn:E2; try discriminate.
  intros _ _.
  assert (E3 : cmp z y = Some Eq) by (rewrite (cmp_antisym y z), E2; reflexivity).
  destruct (cmp_trans x z y Eq Eq E1 E3) as (c & -> & Hc & _); try discriminate.
  destruct c; congruence.
Qed.

(** the two zeros are the only values equal to 0 *)
Lemma eqb_zero x : (x =? 0) = true -> x = 0 \/ x = (-0).
Proof.
  rewrite eqb_spec. intros H.
  assert (E : exists s, Prim2SF x = S754_zero s).
  { change (Prim2SF 0) with (S754_zero false) in H.
    destruct (Prim2SF x) as [s|[]| |[] m e]; try discriminate. eauto. }
  destruct E as [[] E]; [right|left]; apply Prim2SF_inj; rewrite E; reflexivity.
Qed.

(** dividing by a zero gives NaN or an infinity, never a finite value *)
Lemma div_zero x y :
  (y =? 0) = true ->
  x / y = PrimFloat.nan \/ x / y = PrimFloat.infinity \/ x / y = PrimFloat.neg_infinity.
Proof.
  intros H.
  assert (E : exists s, Prim2SF y = S754_zero s).
  { destruct (eqb_zero y H) as [-> | ->]; eexists; reflexivity. }
  destruct E as [s E].
  pose proof (div_spec x y) as D. rewrite E in D. unfold SF64div, SFdiv in D.
  destruct (Prim2SF x) as [sx|sx| |sx m e].
  - left. apply Prim2SF_inj. rewrite D. reflexivity.
  - right. destruct (xorb sx s); [right|left]; apply Prim2SF_inj; rewrite D; reflexivity.
  - left. apply Prim2SF_inj. rewrite D. reflexivity.
  - right. destruct (xorb sx s); [right|left]; apply Prim2SF_inj; rewrite D; reflexivity.
Qed.

End F64Facts.
(** ** Laws of group keys *)

#[export] Instance Z_KeyLaws : KeyLaws Z.
Proof.
split; simpl; intros.
- apply Z.eqb_eq.
- apply Z.ltb_irrefl.
- rewrite Z.ltb_lt in *. lia.
- rewrite Z.eqb_neq in *. rewrite Z.ltb_lt. rewrite Z.ltb_ge in *. lia.
Qed.

#[export] Instance pair_KeyLaws {K1 K2 : Type} `{KeyLaws K1} `{KeyLaws K2} :
KeyLaws (K1 * K2).
Proof.
split; simpl.
- intros [a1 a2] [b1 b2]; simpl. rewrite andb_true_iff, !key_eqb_eq.
  split; [intros [-> ->]; reflexivity | intros E; inversion E; auto].
- intros [a1 a2]; simpl. rewrite !key_ltb_irrefl, andb_false_r. reflexivity.
- intros [a1 a2] [b1 b2] [c1 c2]; simpl.
  rewrite !orb_true_iff, !andb_true_iff, !key_eqb_eq.
  intros [L1 | [-> L1]] [L2 | [<- L2]]; eauto using key_ltb_trans.
- intros [a1 a2] [b1 b2]; simpl. intros E L.
  destruct (key_eqb a1 b1) eqn:E1; simpl in *.
  + apply orb_false_iff in L. destruct L as [L1 L2].
    apply key_eqb_eq in E1. subst b1.
    rewrite (proj2 (key_eqb_eq a1 a1) eq_refl), key_ltb_irrefl. simpl.
    apply key_ltb_total; assumption.
  + rewrite orb_false_r in L.
    rewrite (key_ltb_total a1 b1 E1 L). reflexivity.
Qed.

Section GroupbyFacts.

Context {A K : Type} {key_ops : Key K}.
Variable key : A -> option K.

Lemma groupby_snoc rows r :
  groupby key (rows ++ [r])
  = match key r with
    | Some k => insert_row k r (groupby key rows)
    | None => groupby key rows
    end.
Proof. unfold groupby. rewrite fold_left_app. reflexivity. Qed.

Lemma insert_row_nonempty (k : K) (r : A) gs :
  Forall (fun g => snd g <> []) gs ->
  Forall (fun g : K * list A => snd g <> []) (insert_row k r gs).
Proof.
  induction 1 as [|[k' rs] gs Hg Hgs IH]; simpl.
  - constructor; [discriminate|constructor].
  - destruct (key_eqb k k'); [|destruct (key_ltb k k')].
    + constructor; [|assumption]. simpl. destruct rs; discriminate.
    + constructor; [discriminate|]. constructor; assumption.
    + constructor; assumption.
Qed.

(** every group of a grouped reduction holds at least one row *)
Lemma groupby_nonempty rows :
  Forall (fun g => snd g <> []) (groupby key rows).
Proof.
  induction rows as [|r rows IH] using rev_ind.
  - constructor.
  - rewrite groupby_snoc. destruct (key r); [apply insert_row_nonempty, IH|exact IH].
Qed.

Lemma insert_row_concat (k : K) (r : A) (gs : list (K * list A)) :
  Permutation (concat (map snd (insert_row k r gs))) (r :: concat (map snd gs)).
Proof.
  induction gs as [|[k' rs] gs IH]; simpl.
  - reflexivity.
  - destruct (key_eqb k k'); [|destruct (key_ltb k k')]; simpl.
    + rewrite <- app_assoc. simpl.
      symmetry. apply Permutation_middle.
    + reflexivity.
    + rewrite IH. symmetry. apply Permutation_middle.
Qed.

(** the groups partition the rows whose key is present *)
Lemma groupby_partition rows :
  Permutation (concat (map snd (groupby key rows))) (keyed key rows).
Proof.
  unfold keyed. induction rows as [|r rows IH] using rev_ind.
  - reflexivity.
  - rewrite groupby_snoc, filter_app. cbn [filter].
    destruct (key r).
    + rewrite insert_row_concat, IH. apply Permutation_cons_append.
    + rewrite app_nil_r. exact IH.
Qed.

Lemma keyed_all rows :
  (forall r, In r rows -> key r <> None) -> keyed key rows = rows.
Proof.
  intros H. unfold keyed. induction rows as [|r rows IH]; [reflexivity|].
  cbn [filter]. destruct (key r) eqn:E.
  - f_equal. apply IH. intros x Hx. apply H. right. exact Hx.
  - destruct (H r (or_introl eq_refl) E).
Qed.

Lemma keyed_incl rows : incl (keyed key rows) rows.
Proof. intros x Hx. unfold keyed in Hx. apply filter_In in Hx. apply Hx. Qed.

Context {key_laws : KeyLaws K}.

Lemma insert_row_keys (k : K) (r : A) (gs : list (K * list A)) :
  forall k', In k' (map fst (insert_row k r gs)) -> k' = k \/ In k' (map fst gs).
Proof.
  induction gs as [|[k0 rs] gs IH]; simpl; intros k' H.
  - destruct H as [<-|[]]. auto.
  - destruct (key_eqb k k0) eqn:E; [|destruct (key_ltb k k0)]; simpl in H.
    + auto.
    + destruct H as [<-|H]; auto.
    + destruct H as [<-|H]; auto. destruct (IH _ H); auto.
Qed.

Lemma insert_row_sorted (k : K) (r : A) (gs : list (K * list A)) :
  StronglySorted key_lt (map fst gs) ->
  StronglySorted key_lt (map fst (insert_row k r gs)).
Proof.
  induction gs as [|[k0 rs] gs IH]; simpl; intros S.
  - constructor; constructor.
  - inversion S as [|? ? S' F]; subst.
    destruct (key_eqb k k0) eqn:E; [|destruct (key_ltb k k0) eqn:L]; simpl.
    + constructor; assumption.
    + constructor; [constructor; assumption|].
      constructor; [exact L|].
      eapply Forall_impl; [|exact F]. intros c Hc. eapply key_ltb_trans; eauto.
    + constructor; [apply IH; assumption|].
      rewrite Forall_forall in *. intros c Hc.
      destruct (insert_row_keys _ _ _ _ Hc) as [->|Hc']; [|auto].
      apply key_ltb_total; assumption.
Qed.

(** the groups come in strictly increasing order of their keys *)
Lemma groupby_sorted rows : StronglySorted key_lt (map fst (groupby key rows)).
Proof.
  induction rows as [|r rows IH] using rev_ind.
  - constructor.
  - rewrite groupby_snoc. destruct (key r); [apply insert_row_sorted, IH|exact IH].
Qed.

Lemma key_eqb_refl k : key_eqb k k = true.
Proof. apply key_eqb_eq. reflexivity. Qed.

Lemma key_lt_neq a b : key_lt a b -> a <> b.
Proof. unfold key_lt. intros H ->. rewrite key_ltb_irrefl in H. discriminate. Qed.

Lemma sorted_keys_NoDup (ks : list K) : StronglySorted key_lt ks -> NoDup ks.
Proof.
  induction 1 as [|k ks S IH F]; constructor; [|assumption].
  intros Hin. rewrite Forall_forall in F. exact (key_lt_neq _ _ (F _ Hin) eq_refl).
Qed.

(** a row either extends the group of its key or opens a new group *)
Lemma insert_row_split (k : K) (r : A) (gs : list (K * list A)) :
  StronglySorted key_lt (map fst gs) ->
  (exists gs1 rs gs2,
      gs = gs1 ++ (k, rs) :: gs2 /\
      insert_row k r gs = gs1 ++ (k, rs ++ [r]) :: gs2)
  \/ (exists gs1 gs2,
         gs = gs1 ++ gs2 /\ ~ In k (map fst gs) /\
         insert_row k r gs = gs1 ++ (k, [r]) :: gs2).
Proof.
  induction gs as [|[k0 rs] gs IH]; simpl; intros S.
  - right. exists [], []. auto.
  - inversion S as [|? ? S' F]; subst.
    destruct (key_eqb k k0) eqn:E; [|destruct (key_ltb k k0) eqn:L].
    + apply key_eqb_eq in E. subst k0. left. exists [], rs, gs. auto.
    + right. exists [], ((k0, rs) :: gs). repeat split; auto.
      intros [H|H]; [subst; rewrite key_ltb_irrefl in L; discriminate|].
      rewrite Forall_forall in F. specialize (F _ H).
      apply (key_lt_neq k k); [|reflexivity]. eapply key_ltb_trans; eauto.
    + destruct (IH S') as [(gs1 & rs' & gs2 & -> & ->)|(gs1 & gs2 & -> & Hn & ->)].
      * left. exists ((k0, rs) :: gs1), rs', gs2. auto.
      * right. exists ((k0, rs) :: gs1), gs2. repeat split; auto.
        intros [H|H]; [subst; rewrite key_eqb_refl in E; discriminate|auto].
Qed.

Lemma rows_of_snoc_same k rows r :
  key r = Some k -> rows_of key k (rows ++ [r]) = rows_of key k rows ++ [r].
Proof.
  intros E. unfold rows_of, has_key. rewrite filter_app. simpl.
  rewrite E, key_eqb_refl. reflexivity.
Qed.

Lemma rows_of_snoc_other k rows r :
  key r <> Some k -> rows_of key k (rows ++ [r]) = rows_of key k rows.
Proof.
  intros N. unfold rows_of, has_key. rewrite filter_app. simpl.
  destruct (key r) as [k'|]; [|apply app_nil_r].
  destruct (key_eqb k' k) eqn:E; [apply key_eqb_eq in E; congruence|].
  apply app_nil_r.
Qed.

Lemma rows_of_nil k rows :
  (forall x, In x rows -> key x <> Some k) -> rows_of key k rows = [].
Proof.
  unfold rows_of, has_key.
  induction rows as [|x rows IH]; simpl; intros H; [reflexivity|].
  destruct (key x) as [k'|] eqn:Ek.
  - destruct (key_eqb k' k) eqn:E.
    + apply key_eqb_eq in E. subst k'. destruct (H x (or_introl eq_refl) Ek).
    + apply IH. intros; apply H; right; assumption.
  - apply IH. intros; apply H; right; assumption.
Qed.

Lemma rows_of_In k rows x : In x (rows_of key k rows) <-> In x rows /\ key x = Some k.
Proof.
  unfold rows_of, has_key. rewrite filter_In. split; intros [H1 H2]; split; auto.
  - destruct (key x) as [k'|]; [|discriminate]. apply key_eqb_eq in H2. congruence.
  - rewrite H2. apply key_eqb_refl.
Qed.

(** each group holds the rows of its key, in the order of the frame, and
    every row whose key is present is in the group of its key *)
Lemma groupby_content rows :
  (forall k rs, In (k, rs) (groupby key rows) -> rs = rows_of key k rows)
  /\ (forall x k, In x rows -> key x = Some k -> In k (map fst (groupby key rows))).
Proof.
  induction rows as [|r rows [IH1 IH2]] using rev_ind.
  - split; [intros k rs []|intros x k []].
  - rewrite groupby_snoc.
    pose proof (groupby_sorted rows) as S.
    pose proof (sorted_keys_NoDup _ S) as ND.
    destruct (key r) as [kr|] eqn:Ekr.
    2: { split.
         - intros k rs H. rewrite rows_of_snoc_other by congruence. apply IH1, H.
         - intros x k H Ex. apply in_app_or in H. destruct H as [H|[<-|[]]].
           + apply (IH2 x k H Ex).
           + congruence. }
    destruct (insert_row_split kr r _ S)
      as [(gs1 & rs' & gs2 & E & ->)|(gs1 & gs2 & E & Hn & ->)].
    + rewrite E in *. split.
      * intros k rs H. apply in_app_or in H. simpl in H.
        destruct H as [H|[H|H]].
        -- rewrite rows_of_snoc_other; [apply IH1, in_or_app; auto|].
           rewrite Ekr. intros Ek. injection Ek as ->.
           rewrite map_app in ND. simpl in ND.
           apply NoDup_remove_2 in ND. apply ND, in_or_app. left.
           change k with (fst (k, rs)). apply in_map, H.
        -- inversion H; subst. rewrite (rows_of_snoc_same _ _ _ Ekr). f_equal.
           apply IH1, in_or_app. right. left. reflexivity.
        -- rewrite rows_of_snoc_other; [apply IH1, in_or_app; simpl; auto|].
           rewrite Ekr. intros Ek. injection Ek as ->.
           rewrite map_app in ND. simpl in ND.
           apply NoDup_remove_2 in ND. apply ND, in_or_app. right.
           change k with (fst (k, rs)). apply in_map, H.
      * intros x k H Ex. apply in_app_or in H. simpl in H.
        rewrite map_app in *. simpl in *.
        destruct H as [H|[<-|[]]]; [apply (IH2 _ _ H Ex)|].
        assert (k = kr) by congruence. subst k.
        apply in_or_app. right. left. reflexivity.
    + rewrite E in *. split.
      * intros k rs H. apply in_app_or in H. simpl in H.
        destruct H as [H|[H|H]].
        -- rewrite rows_of_snoc_other; [apply IH1, in_or_app; auto|].
           rewrite Ekr. intros Ek. injection Ek as ->.
           apply Hn. change k with (fst (k, rs)).
           apply in_map, in_or_app. auto.
        -- inversion H; subst. rewrite (rows_of_snoc_same _ _ _ Ekr), rows_of_nil; [reflexivity|].
           intros x Hx Ex. apply Hn. apply (IH2 _ _ Hx Ex).
        -- rewrite rows_of_snoc_other; [apply IH1, in_or_app; auto|].
           rewrite Ekr. intros Ek. injection Ek as ->.
           apply Hn. change k with (fst (k, rs)).
           apply in_map, in_or_app. auto.
      * intros x k H Ex. apply in_app_or in H. simpl in H.
        rewrite map_app in *. simpl in *.
        destruct H as [H|[<-|[]]].
        -- specialize (IH2 _ _ H Ex). apply in_app_or in IH2. apply in_or_app.
           simpl. tauto.
        -- assert (k = kr) by congruence. subst k.
           apply in_or_app. right. left. reflexivity.
Qed.

End GroupbyFacts.

(** ** Exact arithmetic *)

Module IdealFacts.

Import Ideal.
Local Open Scope R_scope.

(** decide the comparisons of reals that guard the special cases *)
Ltac xreal_cases :=
  repeat match goal with
         | |- context [Rlt_dec ?a ?b] => destruct (Rlt_dec a b)
         | |- context [Rle_dec ?a ?b] => destruct (Rle_dec a b)
         | |- context [Req_dec_T ?a ?b] => destruct (Req_dec_T a b)
         end.

Ltac xreal_simpl :=
  cbn [num_add num_sub num_mul num_div num_opp num_abs num_sqrt rint num_eqb
       num_ltb num_leb of_Z nan infinity exact] in *;
  unfold xsub, xadd, xmul, xdiv, xopp, xabs, xeqb, xltb, xleb, inf_signed, Rsign in *.

(** the growth as pandas computes it, [cur / prev - 1], and the growth as a
    difference quotient, [(cur - prev) / prev], are the same value in exact
    arithmetic, division by zero included *)
Lemma growth_formulas_agree (a b : R) :
  ((Fin b / Fin a - of_Z 1) * of_Z 100
   = (Fin b - Fin a) / Fin a * of_Z 100)%num.
Proof.
  xreal_simpl. xreal_cases; subst; try lra; try reflexivity.
  all: f_equal; field; assumption.
Qed.

End IdealFacts.

(** ** The order of strings *)

Lemma string_ltb_lt (a b : string) :
  String.ltb a b = true <-> OrderedTypeEx.String_as_OT.lt a b.
Proof.
  rewrite <- OrderedTypeEx.String_as_OT.cmp_lt.
  unfold String.ltb, OrderedTypeEx.String_as_OT.cmp.
  destruct (String.compare a b); split; congruence.
Qed.

#[export] Instance string_KeyLaws : KeyLaws string.
Proof.
  constructor; simpl.
  - apply String.eqb_eq.
  - intros a. unfold String.ltb.
    pose proof (proj2 (OrderedTypeEx.String_as_OT.cmp_eq a a) eq_refl) as E.
    unfold OrderedTypeEx.String_as_OT.cmp in E. rewrite E. reflexivity.
  - intros a b c H1 H2. apply string_ltb_lt.
    eapply OrderedTypeEx.String_as_OT.lt_trans; apply string_ltb_lt; eassumption.
  - intros a b He Hl. unfold String.ltb in *.
    rewrite (String.compare_antisym b a).
    destruct (String.compare a b) eqn:C; simpl; try reflexivity; try discriminate.
    apply String.compare_eq_iff in C. subst. rewrite String.eqb_refl in He. discriminate.
Qed.

(** ** Sums *)

Section PairwiseFuel.

Context {F : Type} {num : Number F}.

(** the depth of the recursion of [pairwise_sum] is within the length of
    the array: more fuel changes nothing *)
Lemma pairwise_sum_fuel (fuel fuel' : nat) :
  forall a : list F,
    (length a <= fuel)%nat -> (length a <= fuel')%nat ->
    pairwise_sum fuel a = pairwise_sum fuel' a.
Proof.
  revert fuel'. induction fuel as [|fuel IH]; intros fuel' a H H'.
  - destruct a; [|cbn [length] in H; lia]. destruct fuel'; reflexivity.
  - destruct fuel' as [|fuel'].
    + destruct a; [reflexivity|cbn [length] in H'; lia].
    + cbn [pairwise_sum].
      destruct (Nat.ltb (length a) 8) eqn:E8; [reflexivity|].
      destruct (Nat.leb (length a) 128) eqn:E128; [reflexivity|].
      apply Nat.leb_gt in E128.
      set (n2 := (length a / 2 - (length a / 2) mod 8)%nat).
      assert (Hhalf : (2 * (length a / 2) <= length a)%nat)
        by (apply Nat.Div0.mul_div_le).
      assert (Hge : (64 <= length a / 2)%nat)
        by (apply Nat.div_le_lower_bound; lia).
      assert (Hmod : ((length a / 2) mod 8 < 8)%nat) by (apply Nat.mod_upper_bound; lia).
      assert (Hn2 : (0 < n2 < length a)%nat) by (unfold n2; lia).
      f_equal; apply IH; rewrite ?length_firstn, ?length_skipn; lia.
Qed.

End PairwiseFuel.

Section ExactSums.

Import Ideal IdealFacts.
Local Open Scope R_scope.

Lemma notna_Fin (r : R) : notna (Fin r) = true.
Proof. unfold notna. cbn. destruct (Req_dec_T r r); [reflexivity|congruence]. Qed.

Lemma is_nan_Fin (r : R) : is_nan (Fin r) = false.
Proof. unfold is_nan. fold (notna (Fin r)). rewrite notna_Fin. reflexivity. Qed.

Lemma dropna_Fin (l : list R) : dropna (map Fin l) = map Fin l.
Proof.
  unfold dropna. induction l as [|r l IH]; [reflexivity|].
  cbn [map filter]. rewrite notna_Fin, IH. reflexivity.
Qed.

Lemma Rsum_cons (x : R) (l : list R) : Rsum (x :: l) = x + Rsum l.
Proof. reflexivity. Qed.

Lemma Rsum_app (l l' : list R) : Rsum (l ++ l') = Rsum l + Rsum l'.
Proof.
  unfold Rsum. induction l as [|r l IH]; simpl; [lra|].
  rewrite IH. lra.
Qed.

Lemma Rsum_perm (l l' : list R) : Permutation l l' -> Rsum l = Rsum l'.
Proof.
  unfold Rsum. induction 1 as [|x l l' _ IH|x y l|l l' l'' _ IH1 _ IH2]; simpl.
  - reflexivity.
  - rewrite IH. reflexivity.
  - lra.
  - congruence.
Qed.

Lemma Rsum_concat {A : Type} (f : A -> R) (ls : list (list A)) :
  Rsum (map f (concat ls)) = Rsum (map (fun l => Rsum (map f l)) ls).
Proof.
  induction ls as [|l ls IH]; [reflexivity|].
  cbn [concat map]. rewrite map_app, Rsum_app, IH. reflexivity.
Qed.

Lemma Rsum_scale (c : R) (l : list R) :
  Rsum (map (fun x => x * c) l) = Rsum l * c.
Proof.
  unfold Rsum. induction l as [|r l IH]; simpl; [lra|].
  rewrite IH. lra.
Qed.

Lemma Rsum_error (eps : R) (f g : R -> R) (l : list R) :
  (forall x, Rabs (f x - g x) <= eps) ->
  Rabs (Rsum (map f l) - Rsum (map g l)) <= eps * INR (length l).
Proof.
  intros H. unfold Rsum. induction l as [|r l IH].
  - simpl. rewrite Rminus_diag, Rabs_R0. lra.
  - cbn [map fold_right length]. rewrite S_INR.
    set (a := fold_right Rplus 0 (map f l)) in *.
    set (b := fold_right Rplus 0 (map g l)) in *.
    replace (f r + a - (g r + b)) with ((f r - g r) + (a - b)) by lra.
    eapply Rle_trans; [apply Rabs_triang|]. specialize (H r). lra.
Qed.

(** *** the grouped sum *)

(** Kahan's recurrence over real numbers: the compensation stays 0 *)
Lemma kahan_fold_Fin (l : list R) :
  forall s c : R,
    c = 0 ->
    fst (fold_left kahan_step (map Fin l) (Fin s, Fin c)) = Fin (s + Rsum l).
Proof.
  induction l as [|r l IH]; intros s c Hc; cbn [map fold_left].
  - cbn [fst]. f_equal. unfold Rsum. simpl. lra.
  - unfold kahan_step at 2.
    cbn [num_add num_sub exact xsub xadd xopp]. rewrite is_nan_Fin.
    rewrite IH by (subst c; ring).
    f_equal. rewrite Rsum_cons. subst c. ring.
Qed.

(** the grouped sum of real numbers is their real sum *)
Lemma sum_Fin (l : list R) : sum (map Fin l) = Fin (Rsum l).
Proof.
  unfold sum. rewrite dropna_Fin. cbn [of_Z exact].
  rewrite kahan_fold_Fin by reflexivity. f_equal. lra.
Qed.

Lemma dropna_finite (xs : list xreal) :
  Forall not_infinite xs -> dropna xs = map Fin (finite_part xs).
Proof.
  unfold dropna, finite_part. induction 1 as [|x xs [H1 H2] _ IH]; [reflexivity|].
  cbn [filter flat_map]. destruct x as [r| | |]; try congruence.
  - rewrite notna_Fin, IH. reflexivity.
  - cbn. exact IH.
Qed.

Lemma Rsum_finite_part (xs : list xreal) :
  Rsum (finite_part xs) = Rsum (map to_R xs).
Proof.
  unfold finite_part. induction xs as [|x xs IH]; [reflexivity|].
  cbn [flat_map map]. rewrite Rsum_app, Rsum_cons, IH.
  destruct x; unfold Rsum; simpl; lra.
Qed.

(** the grouped sum of a column without infinite values is the real sum of
    its values, a missing value counting as 0 *)
Lemma sum_finite (xs : list xreal) :
  Forall not_infinite xs -> sum xs = Fin (Rsum (map to_R xs)).
Proof.
  intros H. unfold sum. rewrite (dropna_finite xs H). cbn [of_Z exact].
  rewrite kahan_fold_Fin by reflexivity. f_equal.
  rewrite Rsum_finite_part. lra.
Qed.

Lemma real_values {A : Type} (f : A -> xreal) (l : list A) :
  Forall (fun a => is_real (f a)) l ->
  map f l = map Fin (map (fun a => to_R (f a)) l).
Proof.
  induction 1 as [|a l [r Hr] _ IH]; [reflexivity|].
  cbn [map]. rewrite IH, Hr. reflexivity.
Qed.

(** *** NumPy's sum *)

Lemma add_all_Fin (l : list R) (a : R) :
  add_all (Fin a) (map Fin l) = Fin (a + Rsum l).
Proof.
  unfold add_all. revert a. induction l as [|r l IH]; intros a; cbn [map fold_left].
  - f_equal. unfold Rsum. simpl. lra.
  - cbn [num_add exact xadd]. rewrite IH. f_equal. rewrite Rsum_cons. lra.
Qed.

Lemma zip_add_Fin (r c : list R) :
  zip_add (map Fin r) (map Fin c)
  = map Fin (map (fun p => fst p + snd p) (combine r c)).
Proof.
  unfold zip_add. revert c. induction r as [|x r IH]; intros [|y c]; try reflexivity.
  cbn [map combine fst snd]. rewrite IH. reflexivity.
Qed.

Lemma Rsum_zip (r c : list R) :
  length r = length c ->
  Rsum (map (fun p => fst p + snd p) (combine r c)) = Rsum r + Rsum c.
Proof.
  revert c. induction r as [|x r IH]; intros [|y c] H; try discriminate.
  - unfold Rsum. simpl. lra.
  - cbn [combine map fst snd]. rewrite !Rsum_cons, IH by (simpl in H; lia). lra.
Qed.

Lemma add_chunks_Fin (k : nat) :
  forall r rest : list R,
    length r = 8%nat -> (8 * k <= length rest)%nat ->
    exists r' rest',
      add_chunks k (map Fin r) (map Fin rest) = (map Fin r', map Fin rest')
      /\ length r' = 8%nat
      /\ Rsum r' + Rsum rest' = Rsum r + Rsum rest.
Proof.
  induction k as [|k IH]; intros r rest Hr Hk.
  - exists r, rest. repeat split. exact Hr.
  - cbn [add_chunks]. rewrite firstn_map, skipn_map, zip_add_Fin.
    assert (Hf : length (firstn 8 rest) = 8%nat) by (rewrite length_firstn; lia).
    destruct (IH (map (fun p => fst p + snd p) (combine r (firstn 8 rest)))
                 (skipn 8 rest)) as (r' & rest' & E & Hl & Hs).
    + rewrite length_map, length_combine, Hr, Hf. reflexivity.
    + rewrite length_skipn. lia.
    + exists r', rest'. split; [exact E|]. split; [exact Hl|].
      rewrite Hs, Rsum_zip by congruence.
      rewrite <- (firstn_skipn 8 rest) at 3. rewrite Rsum_app. lra.
Qed.

Lemma reduce8_Fin (r : list R) :
  length r = 8%nat -> reduce8 (map Fin r) = Fin (Rsum r).
Proof.
  intros H.
  destruct r as [|a0 [|a1 [|a2 [|a3 [|a4 [|a5 [|a6 [|a7 [|]]]]]]]]]; try discriminate.
  unfold reduce8. cbn [map nth num_add exact xadd]. f_equal.
  unfold Rsum. simpl. lra.
Qed.

Lemma pairwise_sum_Fin (fuel : nat) :
  forall l : list R, pairwise_sum fuel (map Fin l) = Fin (Rsum l).
Proof.
  assert (Hseq : forall l : list R, add_all (- of_Z 0)%num (map Fin l) = Fin (Rsum l)).
  { intros l. cbn [num_opp of_Z exact xopp]. rewrite add_all_Fin. f_equal. lra. }
  assert (Hblock : forall l : list R,
             (8 <= length l)%nat ->
             (let (r, rest) := add_chunks (length l / 8 - 1)
                                          (firstn 8 (map Fin l)) (skipn 8 (map Fin l)) in
              add_all (reduce8 r) rest) = Fin (Rsum l)).
  { intros l Hl. rewrite firstn_map, skipn_map.
    assert (Hdiv : (8 * (length l / 8) <= length l)%nat) by (apply Nat.Div0.mul_div_le).
    destruct (add_chunks_Fin (length l / 8 - 1) (firstn 8 l) (skipn 8 l))
      as (r' & rest' & E & Hr & Hs).
    - rewrite length_firstn. lia.
    - rewrite length_skipn. lia.
    - rewrite E, (reduce8_Fin r' Hr), add_all_Fin. f_equal.
      rewrite Hs, <- Rsum_app, firstn_skipn. reflexivity. }
  induction fuel as [|fuel IH]; intros l; cbn [pairwise_sum]; rewrite length_map.
  - destruct (Nat.ltb_spec (length l) 8); [apply Hseq|].
    destruct (Nat.leb (length l) 128); [apply Hblock; assumption|apply Hseq].
  - destruct (Nat.ltb_spec (length l) 8); [apply Hseq|].
    destruct (Nat.leb (length l) 128); [apply Hblock; assumption|].
    rewrite firstn_map, skipn_map, !IH. cbn [num_add exact xadd]. f_equal.
    rewrite <- Rsum_app, firstn_skipn. reflexivity.
Qed.

Lemma np_sum_Fin (l : list R) : np_sum (map Fin l) = Fin (Rsum l).
Proof.
  unfold np_sum. destruct l as [|x l]; [reflexivity|].
  cbn [map]. change (Fin x :: map Fin l) with (map Fin (x :: l)).
  rewrite pairwise_sum_Fin. cbn [num_opp num_add of_Z exact xopp xadd]. f_equal. lra.
Qed.

(** [Series.sum] of a column without infinite values is the real sum of its
    values, a missing value counting as 0 *)
Lemma series_sum_finite (xs : list xreal) :
  Forall not_infinite xs -> series_sum xs = Fin (Rsum (map to_R xs)).
Proof.
  intros H. unfold series_sum.
  assert (E : map (fun v : xreal => if is_nan v then of_Z 0 else v) xs
              = map Fin (map to_R xs)).
  { induction H as [|x xs [H1 H2] _ IH]; [reflexivity|].
    cbn [map]. rewrite IH. f_equal.
    destruct x as [r| | |]; try congruence.
    - rewrite is_nan_Fin. reflexivity.
    - reflexivity. }
  rewrite E. apply np_sum_Fin.
Qed.

Lemma series_sum_Fin (l : list R) : series_sum (map Fin l) = Fin (Rsum l).
Proof.
  rewrite series_sum_finite.
  - rewrite map_map. cbn [to_R]. rewrite map_id. reflexivity.
  - apply Forall_forall. intros x Hx. apply in_map_iff in Hx.
    destruct Hx as (r & <- & _). split; discriminate.
Qed.

End ExactSums.

(** ** Facts on [idxmax] and [idxmin] *)

Section ExtremeFacts.

Context {F : Type} {num : Number F} {K : Type} {key_ops : Key K}.

Lemma first_best_In (better : F -> F -> bool) (rest : list (K * F)) :
  forall bk bv, In (first_best better bk bv rest) (bk :: map fst rest).
Proof.
  induction rest as [|[k v] rest IH]; intros bk bv; cbn [first_best map fst].
  - left. reflexivity.
  - destruct (better v bv).
    + right. apply IH.
    + destruct (IH bk bv) as [E|Hin]; [left; exact E|right; right; exact Hin].
Qed.

Lemma forallb_existsb_nan (s : list (K * F)) :
  forallb (fun kv => is_nan (snd kv)) s = negb (existsb (fun kv => notna (snd kv)) s).
Proof.
  induction s as [|[k v] s IH]; [reflexivity|].
  cbn [forallb existsb snd]. rewrite IH, negb_orb. unfold is_nan, notna. reflexivity.
Qed.

(** [idxmax] and [idxmin] return a label of the series as soon as one value
    is present, and raise [ValueError] otherwise *)
Lemma idx_extreme_total (better : F -> F -> bool) (fill : F) (what : string)
      (s : list (K * F)) :
  (existsb (fun kv => notna (snd kv)) s = true ->
   exists k, idx_extreme better fill what s = Ok k /\ In k (map fst s))
  /\ (existsb (fun kv => notna (snd kv)) s = false ->
      exists msg, idx_extreme better fill what s = Raise (ValueError msg)).
Proof.
  unfold idx_extreme. destruct s as [|[k0 v0] rest].
  - split; [discriminate|]. intros _. eexists. reflexivity.
  - rewrite forallb_existsb_nan. split; intros ->; cbn [negb].
    + eexists. split; [reflexivity|].
      pose proof (first_best_In better
                    (map (fun kv => (fst kv, fillna fill (snd kv))) rest)
                    k0 (fillna fill v0)) as H.
      rewrite map_map in H. exact H.
    + eexists. reflexivity.
Qed.

End ExtremeFacts.

Section FirstBestKeyed.

(** [first_best] over keys in strictly increasing order: as [first_best_spec],
    for any lawful key *)
Context {F K : Type} {key_ops : Key K} {key_laws : KeyLaws K}.
Variables (le lt eq : F -> F -> bool) (ok : F -> bool).
Hypothesis lt_le : forall a b, lt a b = true -> le a b = true.
Hypothesis le_trans : forall a b c, le a b = true -> le b c = true -> le a c = true.
Hypothesis lt_le_trans : forall a b c, lt a b = true -> le b c = true -> lt a c = true.
Hypothesis le_lt_trans : forall a b c, le a b = true -> lt b c = true -> lt a c = true.
Hypothesis le_total :
  forall a b, ok a = true -> ok b = true -> lt a b = false -> le b a = true.
Hypothesis le_refl : forall a, ok a = true -> le a a = true.
Hypothesis lt_neq : forall a b, lt a b = true -> eq a b = false.

Lemma first_best_keyed (rest : list (K * F)) :
  forall (bk : K) (bv : F),
    ok bv = true ->
    Forall (fun kv => ok (snd kv) = true) rest ->
    StronglySorted key_lt (bk :: map fst rest) ->
    exists v,
      In (first_best (fun v best => lt best v) bk bv rest, v) ((bk, bv) :: rest)
      /\ le bv v = true
      /\ (first_best (fun v best => lt best v) bk bv rest = bk \/ lt bv v = true)
      /\ forall k' v', In (k', v') rest ->
           le v' v = true
           /\ (eq v' v = true ->
               first_best (fun v best => lt best v) bk bv rest = k'
               \/ key_lt (first_best (fun v best => lt best v) bk bv rest) k').
Proof.
  induction rest as [|[k v] rest IH]; intros bk bv Hb Hok S.
  - exists bv. cbn [first_best].
    split; [left; reflexivity|]. split; [apply le_refl, Hb|].
    split; [left; reflexivity|]. intros k' v' [].
  - inversion Hok as [|? ? Hv Hok']; subst. simpl in Hv.
    inversion S as [|? ? S' HF]; subst.
    inversion S' as [|? ? S'' HF']; subst.
    inversion HF as [|? ? Hk HF'']; subst.
    cbn [first_best]. destruct (lt bv v) eqn:L.
    + destruct (IH k v Hv Hok' S') as (w & Hin & Hle & Hfirst & Hrest).
      exists w. split; [right; exact Hin|].
      split; [eapply le_trans; [apply lt_le; exact L|exact Hle]|].
      split; [right; eapply lt_le_trans; eauto|].
      intros k' v' [E|Hin']; [injection E as <- <-|apply Hrest, Hin'].
      split; [exact Hle|]. intros He.
      destruct Hfirst as [-> | Hlt]; [left; reflexivity|].
      rewrite (lt_neq _ _ Hlt) in He. discriminate.
    + assert (S1 : StronglySorted key_lt (bk :: map fst rest))
        by (constructor; assumption).
      destruct (IH bk bv Hb Hok' S1) as (w & Hin & Hle & Hfirst & Hrest).
      exists w. split; [destruct Hin as [Hin|Hin]; [left; exact Hin|right; right; exact Hin]|].
      split; [exact Hle|]. split; [exact Hfirst|].
      intros k' v' [E|Hin']; [injection E as <- <-|apply Hrest, Hin'].
      assert (Hvb : le v bv = true) by (apply le_total; assumption).
      split; [eapply le_trans; eauto|]. intros He.
      destruct Hfirst as [-> | Hlt]; [right; exact Hk|].
      rewrite (lt_neq v w) in He; [discriminate|].
      eapply le_lt_trans; eauto.
Qed.

End FirstBestKeyed.

Section SummaryFacts.

Import F64 F64Facts Fixtures.
Local Open Scope float_scope.

Context {K : Type} {key_ops : Key K} {key_laws : KeyLaws K}.

Lemma fillna_present (fill v : float) : (fill =? fill) = true -> notna (fillna fill v) = true.
Proof.
  intros Hf. unfold fillna, is_nan, notna.
  change (v =? v)%num with (v =? v).
  destruct (v =? v) eqn:E; cbn [negb].
  - exact E.
  - exact Hf.
Qed.

Lemma idxmax_first_largest (s : list (K * float)) :
  existsb (fun kv => notna (snd kv)) s = true ->
  StronglySorted key_lt (map fst s) ->
  exists k, idxmax s = Ok k /\ first_largest s k.
Proof.
  intros Hex S. destruct s as [|[k0 v0] rest]; [discriminate|].
  unfold idxmax, idx_extreme. rewrite forallb_existsb_nan, Hex. cbn [negb].
  set (fill := fillna (- infinity)%num).
  set (rest' := map (fun kv : K * float => (fst kv, fill (snd kv))) rest).
  assert (Hok : Forall (fun kv : K * float => (fun x => x =? x) (snd kv) = true) rest').
  { apply Forall_forall. intros kv Hkv. apply in_map_iff in Hkv.
    destruct Hkv as (kv0 & <- & _). cbn [snd]. apply fillna_present. reflexivity. }
  assert (S' : StronglySorted key_lt (k0 :: map fst rest')).
  { unfold rest'. rewrite map_map. exact S. }
  destruct (first_best_keyed PrimFloat.leb PrimFloat.ltb PrimFloat.eqb (fun x => x =? x)
              ltb_leb leb_trans ltb_leb_trans leb_ltb_trans
              (fun a b Ha Hb => leb_total a b Ha Hb) leb_refl
              (fun a b H => proj1 (ltb_neq a b H))
              rest' k0 (fill v0) (fillna_present PrimFloat.neg_infinity v0 eq_refl) Hok S')
    as (w & Hin & Hle & Hfirst & Hall).
  set (kstar := first_best (fun v best : float => (best <? v)%num) k0 (fill v0) rest').
  change (first_best (fun v best => PrimFloat.ltb best v) k0 (fill v0) rest') with kstar in *.
  clearbody kstar.
  exists kstar. split; [reflexivity|].
  assert (Hv : exists v, In (kstar, v) ((k0, v0) :: rest) /\ w = fill v).
  { destruct Hin as [E|Hin].
    - injection E as <- <-. exists v0. split; [left; reflexivity|reflexivity].
    - apply in_map_iff in Hin. destruct Hin as ([k v] & E & Hin). cbn in E.
      injection E as <- <-. exists v. split; [right; exact Hin|reflexivity]. }
  destruct Hv as (v & Hv & ->).
  exists v. split; [exact Hv|].
  intros k' v' [E|Hin'].
  - injection E as <- <-. split; [exact Hle|]. intros He.
    destruct Hfirst as [-> | Hlt]; [left; reflexivity|].
    change (fillna PrimFloat.neg_infinity) with fill in He.
    rewrite (proj1 (ltb_neq _ _ Hlt)) in He. discriminate.
  - apply (Hall k' (fill v')). unfold rest'. apply in_map_iff.
    exists (k', v'). split; [reflexivity|exact Hin'].
Qed.

Lemma idxmin_first_smallest (s : list (K * float)) :
  existsb (fun kv => notna (snd kv)) s = true ->
  StronglySorted key_lt (map fst s) ->
  exists k, idxmin s = Ok k /\ first_smallest s k.
Proof.
  intros Hex S. destruct s as [|[k0 v0] rest]; [discriminate|].
  unfold idxmin, idx_extreme. rewrite forallb_existsb_nan, Hex. cbn [negb].
  set (fill := fillna infinity).
  set (rest' := map (fun kv : K * float => (fst kv, fill (snd kv))) rest).
  assert (Hok : Forall (fun kv : K * float => (fun x => x =? x) (snd kv) = true) rest').
  { apply Forall_forall. intros kv Hkv. apply in_map_iff in Hkv.
    destruct Hkv as (kv0 & <- & _). cbn [snd]. apply fillna_present. reflexivity. }
  assert (S' : StronglySorted key_lt (k0 :: map fst rest')).
  { unfold rest'. rewrite map_map. exact S. }
  destruct (first_best_keyed (fun a b => PrimFloat.leb b a) (fun a b => PrimFloat.ltb b a)
              PrimFloat.eqb (fun x => x =? x)
              (fun a b H => ltb_leb b a H)
              (fun a b c H1 H2 => leb_trans c b a H2 H1)
              (fun a b c H1 H2 => leb_ltb_trans c b a H2 H1)
              (fun a b c H1 H2 => ltb_leb_trans c b a H2 H1)
              (fun a b Ha Hb H => leb_total b a Hb Ha H) leb_refl
              (fun a b H => proj2 (ltb_neq b a H))
              rest' k0 (fill v0) (fillna_present PrimFloat.infinity v0 eq_refl) Hok S')
    as (w & Hin & Hle & Hfirst & Hall).
  set (kstar := first_best (fun v best : float => (v <? best)%num) k0 (fill v0) rest').
  change (first_best (fun v best => PrimFloat.ltb v best) k0 (fill v0) rest') with kstar in *.
  clearbody kstar.
  exists kstar. split; [reflexivity|].
  assert (Hv : exists v, In (kstar, v) ((k0, v0) :: rest) /\ w = fill v).
  { destruct Hin as [E|Hin].
    - injection E as <- <-. exists v0. split; [left; reflexivity|reflexivity].
    - apply in_map_iff in Hin. destruct Hin as ([k v] & E & Hin). cbn in E.
      injection E as <- <-. exists v. split; [right; exact Hin|reflexivity]. }
  destruct Hv as (v & Hv & ->).
  exists v. split; [exact Hv|].
  intros k' v' [E|Hin'].
  - injection E as <- <-. split; [exact Hle|]. intros He.
    destruct Hfirst as [-> | Hlt]; [left; reflexivity|].
    change (fillna PrimFloat.infinity) with fill in He.
    rewrite (proj2 (ltb_neq _ _ Hlt)) in He. discriminate.
  - apply (Hall k' (fill v')). unfold rest'. apply in_map_iff.
    exists (k', v'). split; [reflexivity|exact Hin'].
Qed.

End SummaryFacts.

(** ** C1: mean of row margins and margin of summed totals *)

Section FinancialFacts.

Import F64 Fixtures MoreFixtures.
Local Open Scope float_scope.





End FinancialFacts.

(** ** C2: ratios over a zero sum of sales *)

Section ZeroSalesFacts.

Import F64 F64Facts Fixtures.
Local Open Scope float_scope.

Lemma round0_zero (s : float) : (s =? 0) = true -> (round 0 s =? 0) = true.
Proof.
  intros H. destruct (eqb_zero s H) as [-> | ->]; reflexivity.
Qed.

(** [numerator / sales * 100], rounded, when [sales] is a zero *)
Lemma ratio_over_zero (d : Z) (p s : float) :
  (d = 0 \/ d = 1 \/ d = 2)%Z ->
  (s =? 0) = true ->
  is_finite (round d (p / s * 100)) = false
  /\ (round d (p / s * 100) =? 0) = false.
Proof.
  intros Hd H.
  destruct (div_zero p s H) as [-> | [-> | ->]];
    destruct Hd as [-> | [-> | ->]]; split; reflexivity.
Qed.

(** C2.  When the sales of a group sum to zero (either zero of binary64), the
    profit margin of its row in the per-region table, in the per-store table
    and in the per-month table is not a finite number: it is NaN or an
    infinity.  The division raises nothing (the tables are total functions of
    the dataset) and the result is not 0. *)
Theorem zero_sales_margin_is_undefined :
  forall data : dataset float,
    (forall g, In g (groupby region data) ->
               (sum (map sales_amount (snd g)) =? 0) = true ->
               In (region_derive (region_reduce g)) (regional_metrics data)
               /\ is_finite (Profit_Margin (region_derive (region_reduce g))) = false
               /\ (Profit_Margin (region_derive (region_reduce g)) =? 0) = false)
    /\ (forall g, In g (groupby store_key data) ->
                  (sum (map sales_amount (snd g)) =? 0) = true ->
                  In (store_derive (store_reduce g)) (store_efficiency data)
                  /\ is_finite (profit_margin (store_derive (store_reduce g))) = false
                  /\ (profit_margin (store_derive (store_reduce g)) =? 0) = false)
    /\ (forall r, In r (monthly_trends data) ->
                  (mt_sales_amount (mt_agg r) =? 0) = true ->
                  is_finite (mt_profit_margin r) = false
                  /\ (mt_profit_margin r =? 0) = false).
Proof.
  intros data. split; [|split].
  - intros g Hg Hs. split.
    + unfold regional_metrics.
      apply (in_map (fun g => region_derive (region_reduce g))), Hg.
    + apply (ratio_over_zero 2); [auto|].
      apply round0_zero, Hs.
  - intros g Hg Hs. split.
    + unfold store_efficiency.
      apply (in_map (fun g => store_derive (store_reduce g))), Hg.
    + apply (ratio_over_zero 2); [auto|exact Hs].
  - intros r Hr Hs. unfold monthly_trends in Hr.
    apply in_map_iff in Hr. destruct Hr as (t & <- & _). simpl in *.
    apply (ratio_over_zero 2); [auto|exact Hs].
Qed.

(** the East region of [closed_stores] has no sales: its margin is undefined *)
Lemma zero_sales_margin_witness :
  In (region_derive (region_reduce ("East"%string, [east_row])))
     (regional_metrics closed_stores)
  /\ is_finite
       (Profit_Margin (region_derive (region_reduce ("East"%string, [east_row]))))
     = false
  /\ (Profit_Margin (region_derive (region_reduce ("East"%string, [east_row])))
      =? 0) = false.
Proof.
  apply (proj1 (zero_sales_margin_is_undefined closed_stores)).
  - left. reflexivity.
  - reflexivity.
Defined.

End ZeroSalesFacts.
(** ** C3: the t-test on an empty tier group *)

Section TTestFacts.

Import F64 Fixtures.
Local Open Scope float_scope.

Lemma ttest_ind_empty (p : float -> float -> float) (a b : list float) :
  a = [] \/ b = [] -> ttest_ind p a b = (PrimFloat.nan, PrimFloat.nan).
Proof.
  unfold ttest_ind. intros [-> | ->]; simpl; [reflexivity|].
  rewrite orb_true_r. reflexivity.
Qed.

(** the filter of a tier selects no row exactly when no row carries that
    tier; a row whose tier is missing carries none *)
Lemma tier_sales_nil (name : string) (data : dataset float) :
  tier_sales name data = [] <-> forall r, In r data -> tier r <> Some name.
Proof.
  unfold tier_sales. induction data as [|x data IH]; cbn [filter map].
  - split; [intros _ r []|reflexivity].
  - destruct (tier x) as [t|] eqn:E.
    + destruct (String.eqb_spec t name) as [->|N].
      * split; [discriminate|]. intros H. destruct (H x (or_introl eq_refl) E).
      * rewrite IH. split.
        -- intros H r [<-|Hr]; [congruence|apply H, Hr].
        -- intros H r Hr. apply H. right. exact Hr.
    + rewrite IH. split.
      * intros H r [<-|Hr]; [congruence|apply H, Hr].
      * intros H r Hr. apply H. right. exact Hr.
Qed.

(** C3, as the program behaves.  The step validates nothing.  On a dataset
    with at least one row in which no row carries the tier "Metro", or none
    carries the tier "Tier_1", it raises nothing: the empty sample goes to
    [ttest_ind], which answers with a NaN statistic and a NaN p-value, and
    the step reports "Not Significant" (the comparison of NaN with 0.05 is
    false).  This holds whatever the tail probability function is.  On the
    dataset without rows (a file that holds only its header) the step does
    fail, with the [AttributeError] that SciPy raises on columns of dtype
    [object]: an error of the library, not a report of the empty group. *)
Theorem ttest_on_empty_group_returns_nan :
  forall (p : float -> float -> float) (data : dataset float),
    (data <> [] ->
     (forall r, In r data -> tier r <> Some "Metro"%string)
     \/ (forall r, In r data -> tier r <> Some "Tier_1"%string) ->
     exists r,
       statistical_insights p data = Ok r
       /\ t_stat r = PrimFloat.nan
       /\ p_value r = PrimFloat.nan
       /\ verdict r = "Not Significant"%string)
    /\ (data = [] -> statistical_insights p data = Raise AttributeError).
Proof.
  intros p data. split.
  - intros Hne H.
    assert (He : tier_sales "Metro" data = [] \/ tier_sales "Tier_1" data = []).
    { destruct H as [H|H]; [left|right]; apply tier_sales_nil, H. }
    destruct data as [|x data]; [congruence|].
    unfold statistical_insights. rewrite (ttest_ind_empty p _ _ He).
    eexists. split; [reflexivity|]. repeat split.
  - intros ->. reflexivity.
Qed.

Lemma ttest_on_empty_group_witness :
  exists r,
    statistical_insights certain_tail no_tier1 = Ok r
    /\ t_stat r = PrimFloat.nan
    /\ p_value r = PrimFloat.nan
    /\ verdict r = "Not Significant"%string.
Proof.
  apply (proj1 (ttest_on_empty_group_returns_nan certain_tail no_tier1)).
  - discriminate.
  - right. intros r [<-|[<-|[<-|[]]]]; discriminate.
Defined.

(** On a dataset without any Tier_1 store the step returns normally, with NaN
    statistics: no error is reported. *)
Lemma ttest_without_tier1_completes :
  tier_sales "Tier_1" no_tier1 = []
  /\ exists r,
       statistical_insights certain_tail no_tier1 = Ok r
       /\ is_nan (t_stat r) = true
       /\ is_nan (p_value r) = true
       /\ verdict r = "Not Significant"%string.
Proof.
  split; [reflexivity|].
  eexists. split; [reflexivity|]. repeat split.
Qed.

(** With samples that are not empty the statistic is the difference of the
    means over the pooled standard error; the variance of a sample of one
    observation counts as 0.  Sales of 100 and 200 against sales of 300:
    -150 / sqrt(5000 * (1/2 + 1)). *)
Lemma ttest_with_one_observation :
  fst (ttest_ind certain_tail [100; 200] [300]) = -1.7320508075688774
  /\ fst (ttest_ind certain_tail [100; 200; 300] [300; 500]) = -1.8973665961010275.
Proof. split; reflexivity. Qed.

End TTestFacts.

(** ** C4: period-over-period growth *)

Section GrowthFacts.

Context {F : Type} {num : Number F}.
Local Open Scope num_scope.

Lemma ffill_from_notna (last : F) (xs : list F) :
  Forall (fun v => notna v = true) xs -> ffill_from last xs = xs.
Proof.
  intros H. revert last. induction H as [|x xs Hx _ IH]; intros last; simpl.
  - reflexivity.
  - unfold is_nan. unfold notna in Hx. rewrite Hx. simpl. rewrite IH. reflexivity.
Qed.

Lemma ffill_from_length (last : F) (xs : list F) :
  length (ffill_from last xs) = length xs.
Proof.
  revert last. induction xs as [|x xs IH]; intros last; simpl; [reflexivity|].
  destruct (is_nan x); simpl; rewrite IH; reflexivity.
Qed.

Lemma shift_length (xs : list F) : length (shift xs) = length xs.
Proof.
  destruct xs as [|x xs]; [reflexivity|].
  unfold shift. cbn [length]. f_equal.
  rewrite removelast_firstn_len, length_firstn. cbn [length]. lia.
Qed.

Lemma growth_length (xs : list F) : length (growth xs) = length xs.
Proof.
  unfold growth, pct_change, ffill.
  rewrite !length_map, length_combine, shift_length, ffill_from_length.
  apply Nat.min_id.
Qed.

(** each value faces its predecessor *)
Lemma combine_removelast (x : F) (xs : list F) (i : nat) (a b : F) :
  nth_error (x :: xs) i = Some a ->
  nth_error xs i = Some b ->
  nth_error (combine xs (removelast (x :: xs))) i = Some (b, a).
Proof.
  revert x i. induction xs as [|y xs IH]; intros x i Ha Hb.
  - destruct i; discriminate.
  - change (removelast (x :: y :: xs)) with (x :: removelast (y :: xs)).
    destruct i as [|i]; simpl in *.
    + congruence.
    + apply IH; assumption.
Qed.

Lemma growth_first (xs : list F) (x0 : F) :
  Forall (fun v => notna v = true) xs ->
  nth_error xs 0 = Some x0 ->
  nth_error (growth xs) 0 = Some ((x0 / nan - of_Z 1) * of_Z 100).
Proof.
  intros H H0. unfold growth, pct_change, ffill.
  rewrite (ffill_from_notna _ _ H).
  destruct xs as [|x xs]; [discriminate|].
  simpl in *. congruence.
Qed.

Lemma growth_next (xs : list F) (i : nat) (a b : F) :
  Forall (fun v => notna v = true) xs ->
  nth_error xs i = Some a ->
  nth_error xs (S i) = Some b ->
  nth_error (growth xs) (S i) = Some ((b / a - of_Z 1) * of_Z 100).
Proof.
  intros H Ha Hb. unfold growth, pct_change, ffill.
  rewrite (ffill_from_notna _ _ H).
  destruct xs as [|x xs]; [discriminate|].
  unfold shift. cbn [combine map nth_error].
  rewrite !nth_error_map.
  rewrite (combine_removelast x xs i a b Ha Hb). reflexivity.
Qed.

End GrowthFacts.

Section MonthlyTrendsFacts.

Context {F : Type} {num : Number F}.

Lemma combine3_fst {A B C : Type} (a : list A) (b : list B) (c : list C) :
  length a = length b -> length a = length c ->
  map (fun t => fst (fst t)) (combine (combine a b) c) = a.
Proof.
  revert b c. induction a as [|x a IH]; intros [|y b] [|z c]; simpl;
    try discriminate; intros H1 H2; [reflexivity|].
  f_equal. apply IH; congruence.
Qed.

Lemma combine3_snd {A B C : Type} (a : list A) (b : list B) (c : list C) :
  length a = length b -> length a = length c ->
  map (fun t => snd (fst t)) (combine (combine a b) c) = b.
Proof.
  revert b c. induction a as [|x a IH]; intros [|y b] [|z c]; simpl;
    try discriminate; intros H1 H2; [reflexivity|].
  f_equal. apply IH; congruence.
Qed.

Lemma monthly_trends_agg (data : dataset F) :
  map mt_agg (monthly_trends data)
  = map month_reduce (groupby period_key data).
Proof.
  unfold monthly_trends. rewrite map_map. cbn [mt_agg].
  apply combine3_fst; rewrite growth_length, !length_map; reflexivity.
Qed.

Lemma monthly_trends_growth (data : dataset F) :
  map sales_growth (monthly_trends data)
  = growth (map (fun r => mt_sales_amount (mt_agg r)) (monthly_trends data)).
Proof.
  rewrite <- (map_map mt_agg mt_sales_amount), monthly_trends_agg.
  unfold monthly_trends. rewrite map_map. cbn [sales_growth].
  apply combine3_snd; rewrite growth_length, !length_map; reflexivity.
Qed.

Lemma monthly_trends_chronological (data : dataset F) :
  StronglySorted chronological
    (map (fun r => (mt_year (mt_agg r), mt_month (mt_agg r))) (monthly_trends data)).
Proof.
  rewrite <- (map_map mt_agg (fun a => (mt_year a, mt_month a))), monthly_trends_agg.
  rewrite map_map. cbn [month_reduce mt_year mt_month].
  pose proof (groupby_sorted (@period_key F) data) as S.
  rewrite <- (map_ext fst (fun g : Z * Z * list (row F) => (fst (fst g), snd (fst g))))
    by (intros [[y m] rs]; reflexivity).
  revert S. generalize (map fst (groupby (@period_key F) data)).
  intros ks S. induction S as [|k ks S IH HF]; constructor; [assumption|].
  eapply Forall_impl; [|exact HF].
  intros [y m]. destruct k as [y0 m0]. unfold key_lt, chronological. simpl.
  rewrite orb_true_iff, andb_true_iff, !Z.ltb_lt, Z.eqb_eq. tauto.
Qed.

End MonthlyTrendsFacts.

Section GrowthClaim.

Import F64 F64Facts Ideal Fixtures.
Local Open Scope float_scope.

Lemma div_nan (x : float) : x / PrimFloat.nan = PrimFloat.nan.
Proof.
  apply Prim2SF_inj. rewrite div_spec.
  change (Prim2SF PrimFloat.nan) with S754_nan.
  unfold SF64div, SFdiv. destruct (Prim2SF x); reflexivity.
Qed.

(** C4, as the program computes it.  The monthly aggregates come in
    chronological order and their growth column is [pct_change() * 100] of the
    sales column.  For a column without missing values the growth of the first
    period is NaN, and the growth of every later period is
    [(value[i] / value[i-1] - 1) * 100], evaluated in binary64.  In exact
    arithmetic that value is [(value[i] - value[i-1]) / value[i-1] * 100]; in
    binary64 the two can differ in the last place: from 100 to 120 the program
    yields 19.999999999999996. *)
Theorem growth_is_ratio_minus_one :
  (forall data : dataset float,
      StronglySorted chronological
        (map (fun r => (mt_year (mt_agg r), mt_month (mt_agg r))) (monthly_trends data))
      /\ map sales_growth (monthly_trends data)
         = growth (map (fun r => mt_sales_amount (mt_agg r)) (monthly_trends data)))
  /\ (forall (values : list float),
         Forall (fun v => notna v = true) values ->
         length (growth values) = length values
         /\ (forall v0, nth_error values 0 = Some v0 ->
                        nth_error (growth values) 0 = Some PrimFloat.nan)
         /\ (forall i a b,
                nth_error values i = Some a ->
                nth_error values (S i) = Some b ->
                nth_error (growth values) (S i) = Some ((b / a - 1) * 100)))
  /\ (forall a b : R,
         (Fin b / Fin a - of_Z 1) * of_Z 100
         = (Fin b - Fin a) / Fin a * of_Z 100)%num
  /\ growth [100; 120] = [PrimFloat.nan; 19.999999999999996].
Proof.
  split; [|split; [|split]].
  - intros data. split.
    + apply monthly_trends_chronological.
    + apply monthly_trends_growth.
  - intros values H. split; [apply growth_length|]. split.
    + intros v0 H0. rewrite (growth_first values v0 H H0).
      cbn [num_div num_sub num_mul nan binary64]. rewrite div_nan. reflexivity.
    + intros i a b Ha Hb. apply (growth_next values i a b H Ha Hb).
  - apply IdealFacts.growth_formulas_agree.
  - reflexivity.
Qed.

Lemma growth_is_ratio_minus_one_witness :
  length (growth [100; 120]) = 2%nat
  /\ nth_error (growth [100; 120]) 0 = Some PrimFloat.nan
  /\ nth_error (growth [100; 120]) 1 = Some ((120 / 100 - 1) * 100).
Proof.
  destruct (proj1 (proj2 growth_is_ratio_minus_one) [100; 120]) as (H1 & H2 & H3).
  - repeat constructor.
  - split; [exact H1|]. split.
    + apply (H2 100). reflexivity.
    + apply (H3 0%nat 100 120); reflexivity.
Defined.

(** From sales of 100 in one month to 120 in the next, the growth column
    holds 19.999999999999996 and not 20.0. *)
Lemma growth_100_to_120_is_not_20 :
  map (fun r => mt_sales_amount (mt_agg r)) (monthly_trends two_months) = [100; 120]
  /\ map sales_growth (monthly_trends two_months)
     = [PrimFloat.nan; 19.999999999999996]
  /\ (nth 1 (map sales_growth (monthly_trends two_months)) 0 =? 20) = false
  /\ ((120 - 100) / 100 * 100 =? 20) = true.
Proof. repeat split. Qed.

End GrowthClaim.

(** ** C5: the correlation matrix *)

Section CorrShape.

Context {F : Type} {num : Number F}.

Lemma nth_map_seq {B : Type} (f : nat -> B) (n i : nat) (d : B) :
  nth i (map f (seq 0 n)) d = if Nat.ltb i n then f i else d.
Proof.
  destruct (Nat.ltb_spec i n) as [H|H].
  - rewrite (nth_indep _ d (f 0%nat)) by (rewrite length_map, length_seq; exact H).
    rewrite (map_nth f (seq 0 n) 0%nat i), seq_nth by exact H. reflexivity.
  - apply nth_overflow. rewrite length_map, length_seq. exact H.
Qed.

(** the entry at row [i] and column [j], for positions inside the matrix *)
Lemma iloc_corr (cols : list (list F)) (i j : nat) :
  iloc (corr cols) i j
  = if Nat.ltb i (length cols) && Nat.ltb j (length cols)
    then corr_entry cols i j else nan.
Proof.
  unfold iloc, corr. rewrite nth_map_seq.
  destruct (Nat.ltb i (length cols)); simpl.
  - rewrite nth_map_seq. reflexivity.
  - destruct j; reflexivity.
Qed.

Lemma corr_entry_sym (cols : list (list F)) (i j : nat) :
  corr_entry cols i j = corr_entry cols j i.
Proof. unfold corr_entry. rewrite Nat.max_comm, Nat.min_comm. reflexivity. Qed.

Lemma iloc_corr_sym (cols : list (list F)) (i j : nat) :
  iloc (corr cols) i j = iloc (corr cols) j i.
Proof. rewrite !iloc_corr, corr_entry_sym, andb_comm. reflexivity. Qed.

Lemma numeric_frame_length (data : dataset F) : length (numeric_frame data) = 6%nat.
Proof. unfold numeric_frame. rewrite length_map. reflexivity. Qed.

(** a line is printed for each pair [i < j] whose entry passes the test *)
Lemma high_corr_In (m : list (list F)) (line : correlation_line) :
  In line (high_corr m) <->
  exists i j,
    (i < j < 6)%nat
    /\ (of_Z 5 / of_Z 10 <? num_abs (iloc m i j))%num = true
    /\ line = {| var1 := column_name i;
                 var2 := column_name j;
                 direction := if (of_Z 0 <? iloc m i j)%num
                              then "positive"%string else "negative"%string;
                 corr_val := iloc m i j |}.
Proof.
  unfold high_corr. rewrite in_flat_map. split.
  - intros (i & Hi & H). apply in_flat_map in H. destruct H as (j & Hj & H).
    apply in_seq in Hi. apply in_seq in Hj. cbn [length numeric_cols] in *.
    destruct (of_Z 5 / of_Z 10 <? num_abs (iloc m i j))%num eqn:E; [|destruct H].
    destruct H as [<-|[]]. exists i, j. split; [lia|]. split; [exact E|reflexivity].
  - intros (i & j & Hij & E & ->). exists i. split; [apply in_seq; simpl; lia|].
    apply in_flat_map. exists j. split; [apply in_seq; cbn [length numeric_cols]; lia|].
    rewrite E. left. reflexivity.
Qed.

End CorrShape.

Section CorrRange.

Import F64 F64Facts.
Local Open Scope float_scope.

Lemma clip_unit_range (val : float) :
  is_nan (clip_unit val) = true
  \/ ((-1 <=? clip_unit val) = true /\ (clip_unit val <=? 1) = true).
Proof.
  unfold clip_unit. cbn [num_ltb num_opp of_Z binary64 float_of_Z].
  change (PrimFloat.of_uint63 (Uint63.of_Z 1)) with 1.
  destruct (1 <? val) eqn:H1; [right; split; reflexivity|].
  change (- (1))%float with (-1)%float.
  destruct (val <? -1) eqn:H2; [right; split; reflexivity|].
  destruct (val =? val) eqn:N.
  - right. split.
    + apply leb_total; [exact N|reflexivity|exact H2].
    + apply leb_total; [reflexivity|exact N|exact H1].
  - left. unfold is_nan. cbn [num_eqb binary64]. rewrite N. reflexivity.
Qed.

Lemma nancorr_pair_range (xs ys : list float) :
  is_nan (nancorr_pair xs ys) = true
  \/ ((-1 <=? nancorr_pair xs ys) = true /\ (nancorr_pair xs ys <=? 1) = true).
Proof.
  unfold nancorr_pair.
  destruct (nobs _ <? 1)%Z; [left; reflexivity|].
  destruct (negb _); [apply clip_unit_range|left; reflexivity].
Qed.

Lemma corr_range (cols : list (list float)) (i j : nat) :
  is_nan (iloc (corr cols) i j) = true
  \/ ((-1 <=? iloc (corr cols) i j) = true /\ (iloc (corr cols) i j <=? 1) = true).
Proof.
  rewrite iloc_corr. destruct (_ && _); [apply nancorr_pair_range|left; reflexivity].
Qed.

(** a coefficient beyond 0.5 in magnitude that is not positive is negative *)
Lemma strong_not_positive (r : float) :
  (0.5 <? abs r) = true -> (0 <? r) = false -> (r <? 0) = true.
Proof.
  rewrite !ltb_spec, abs_spec.
  change (Prim2SF 0.5) with (S754_finite false 4503599627370496 (-53)).
  change (Prim2SF 0) with (S754_zero false).
  destruct (Prim2SF r) as [[]|[]| |[] m e]; simpl; intros H1 H2;
    try reflexivity; try discriminate.
Qed.

End CorrRange.

Section WelfordDiagonal.

Import Ideal IdealFacts.
Local Open Scope R_scope.

Lemma welford_diag_init : welford_diag_inv [] welford_init.
Proof.
  split; [reflexivity|]. exists 0, 0. cbn.
  repeat split; try reflexivity; try lra; try contradiction.
Qed.

Lemma welford_diag_step (l : list R) (st : welford) (x : R) :
  welford_diag_inv l st ->
  welford_diag_inv (l ++ [x]) (welford_step st (Fin x, Fin x)).
Proof.
  intros (Hn & m & s & Hmx & Hmy & Hsx & Hsy & Hc & Hs & Hnil & Hzero & Hpos).
  unfold welford_step. cbn [is_finite num_abs num_ltb infinity exact xabs xltb andb].
  rewrite Hmx, Hmy, Hsx, Hsy, Hc, Hn.
  set (n := (Z.of_nat (length l) + 1)%Z).
  assert (Hn1 : 1 <= IZR n) by (apply IZR_le; lia).
  cbn [num_add num_sub num_mul num_div of_Z exact nobs meanx meany ssqdm_x ssqdm_y covxy].
  unfold xsub, xadd, xmul, xdiv, xopp.
  destruct (Req_dec_T (IZR n) 0) as [E|_]; [lra|].
  split; [cbn [nobs]; rewrite length_app; cbn [length]; lia|].
  eexists _, _. cbn [meanx meany ssqdm_x ssqdm_y covxy].
  do 5 (split; [reflexivity|]).
  set (q := 1 / IZR n).
  assert (Hq : 0 < q <= 1).
  { unfold q. split.
    - apply Rdiv_lt_0_compat; lra.
    - apply Rmult_le_reg_r with (IZR n); [lra|]. field_simplify; lra. }
  set (d := x + - m).
  assert (Hterm : (x + - (m + q * d)) * d = d * d * (1 - q)) by (unfold d; ring).
  rewrite Hterm.
  assert (Hdd : 0 <= d * d) by nra.
  assert (Hge : 0 <= d * d * (1 - q)) by nra.
  assert (Hq2 : l <> [] -> q <= 1 / 2).
  { intros Hl. unfold q.
    assert (2 <= IZR n).
    { apply IZR_le. unfold n. destruct l; [congruence|]. cbn [length]. lia. }
    apply Rmult_le_reg_r with (IZR n); [lra|]. field_simplify; lra. }
  split; [lra|]. split; [intros E; destruct l; discriminate|]. split.
  - intros E0 y Hy.
    assert (s = 0) by lra. assert (Hd0 : d * d * (1 - q) = 0) by lra.
    destruct l as [|z l'].
    + destruct (Hnil eq_refl) as [-> _].
      assert (q = 1).
      { unfold q, n. cbn [length]. change (Z.of_nat 0 + 1)%Z with 1%Z. field. }
      destruct Hy as [<-|[]]. unfold d. nra.
    + assert (q <= 1 / 2) by (apply Hq2; discriminate).
      assert (d = 0) by nra.
      apply in_app_or in Hy. destruct Hy as [Hy|[<-|[]]].
      * rewrite (Hzero H y Hy). nra.
      * unfold d in *. nra.
  - intros Hp.
    destruct (Rle_lt_or_eq_dec 0 s Hs) as [Hs'|Hs'].
    + destruct (Hpos Hs') as (a & b & Ha & Hb & Hab).
      exists a, b. repeat split; auto; apply in_or_app; left; assumption.
    + assert (Hd0 : 0 < d * d * (1 - q)) by lra.
      destruct l as [|z l'].
      * exfalso.
        assert (q = 1).
        { unfold q, n. cbn [length]. change (Z.of_nat 0 + 1)%Z with 1%Z. field. }
        nra.
      * exists z, x. split; [left; reflexivity|].
        split; [apply in_or_app; right; left; reflexivity|].
        rewrite (Hzero (eq_sym Hs') z (or_introl eq_refl)).
        intros ->. unfold d in Hd0. nra.
Qed.

Lemma welford_diag_fold (xs : list xreal) :
  forall (l : list R) (st : welford),
    welford_diag_inv l st ->
    welford_diag_inv (l ++ finite_part xs)
                     (fold_left welford_step (combine xs xs) st).
Proof.
  induction xs as [|x xs IH]; intros l st H.
  - cbn. rewrite app_nil_r. exact H.
  - cbn [combine fold_left]. destruct x as [r| | |].
    + change (finite_part (Fin r :: xs)) with ([r] ++ finite_part xs).
      rewrite app_assoc. apply IH, welford_diag_step, H.
    + apply (IH l st H).
    + apply (IH l st H).
    + apply (IH l st H).
Qed.

(** the diagonal entry of a column in exact arithmetic *)
Lemma nancorr_diag (xs : list xreal) :
  ((forall x y, In x (finite_part xs) -> In y (finite_part xs) -> x = y) ->
   nancorr_pair xs xs = NaN)
  /\ ((exists x y, In x (finite_part xs) /\ In y (finite_part xs) /\ x <> y) ->
      nancorr_pair xs xs = Fin 1).
Proof.
  destruct (welford_diag_fold xs [] welford_init welford_diag_init)
    as (Hn & m & s & _ & _ & Hsx & Hsy & Hc & Hs & _ & Hzero & Hpos).
  cbn [app] in *. unfold nancorr_pair. rewrite Hn, Hsx, Hsy, Hc.
  cbn [num_mul num_sqrt num_eqb num_div of_Z nan exact].
  unfold xmul, xsqrt, xeqb.
  assert (Hss : 0 <= s * s) by nra.
  destruct (Rlt_dec (s * s) 0) as [C|_]; [lra|].
  rewrite (sqrt_square s Hs).
  split.
  - intros Hall. destruct (Z.of_nat _ <? 1)%Z; [reflexivity|].
    destruct (Req_dec_T s 0) as [_|Hne]; [reflexivity|].
    destruct Hpos as (a & b & Ha & Hb & Hab); [lra|].
    destruct (Hab (Hall a b Ha Hb)).
  - intros (a & b & Ha & Hb & Hab).
    destruct (Z.ltb_spec (Z.of_nat (length (finite_part xs))) 1) as [Hlen|_].
    + destruct (finite_part xs); [destruct Ha|cbn [length] in Hlen; lia].
    + destruct (Req_dec_T s 0) as [E|Hne].
      * destruct Hab. rewrite (Hzero E a Ha), (Hzero E b Hb). reflexivity.
      * cbn [negb]. unfold xdiv. destruct (Req_dec_T s 0); [contradiction|].
        unfold clip_unit. cbn [num_ltb num_opp of_Z exact]. unfold xltb, xopp.
        replace (s / s) with 1 by (field; assumption).
        xreal_cases; try lra; reflexivity.
Qed.

End WelfordDiagonal.

Section CorrelationClaim.

Import F64 F64Facts Ideal Fixtures.
Local Open Scope float_scope.

(** C5, as the program computes it.  In binary64, for every dataset: the
    correlation matrix is symmetric; every entry is NaN or lies in [-1, 1];
    exactly the pairs [i < j] of the six measures whose entry exceeds 0.5 in
    magnitude are reported as strong, the direction being "positive" for a
    positive coefficient and "negative" for a negative one.  A diagonal entry
    is not always 1.0: in exact arithmetic it is NaN when the finite values
    of the column are all equal (or absent), and 1 otherwise. *)
Theorem correlation_matrix_properties :
  (forall (data : dataset float) (i j : nat),
      iloc (correlation_matrix data) i j = iloc (correlation_matrix data) j i
      /\ (is_nan (iloc (correlation_matrix data) i j) = true
          \/ ((-1 <=? iloc (correlation_matrix data) i j) = true
              /\ (iloc (correlation_matrix data) i j <=? 1) = true)))
  /\ (forall (data : dataset float) (line : correlation_line),
         In line (high_corr (correlation_matrix data)) <->
         exists i j,
           (i < j < 6)%nat
           /\ (0.5 <? abs (iloc (correlation_matrix data) i j)) = true
           /\ line = {| var1 := column_name i;
                        var2 := column_name j;
                        direction :=
                          if 0 <? iloc (correlation_matrix data) i j
                          then "positive"%string else "negative"%string;
                        corr_val := iloc (correlation_matrix data) i j |})
  /\ (forall (data : dataset float) (line : correlation_line),
         In line (high_corr (correlation_matrix data)) ->
         (direction line = "positive"%string /\ (0 <? corr_val line) = true)
         \/ (direction line = "negative"%string /\ (corr_val line <? 0) = true))
  /\ (forall (data : dataset xreal) (i : nat),
         (i < 6)%nat ->
         ((forall x y,
              In x (finite_part (nth i (numeric_frame data) [])) ->
              In y (finite_part (nth i (numeric_frame data) [])) -> x = y) ->
          iloc (correlation_matrix data) i i = NaN)
         /\ ((exists x y,
                 In x (finite_part (nth i (numeric_frame data) []))
                 /\ In y (finite_part (nth i (numeric_frame data) []))
                 /\ x <> y) ->
             iloc (correlation_matrix data) i i = Fin 1%R)).
Proof.
  split; [|split; [|split]].
  - intros data i j. split.
    + apply iloc_corr_sym.
    + apply corr_range.
  - intros data line. exact (high_corr_In (correlation_matrix data) line).
  - intros data line H.
    destruct (proj1 (high_corr_In (correlation_matrix data) line) H)
      as (i & j & _ & E & ->).
    cbn [direction corr_val].
    change (of_Z 0 <? iloc (correlation_matrix data) i j)%num
      with (0 <? iloc (correlation_matrix data) i j).
    destruct (0 <? iloc (correlation_matrix data) i j) eqn:P.
    + left. split; reflexivity.
    + right. split; [reflexivity|].
      apply strong_not_positive; [exact E|exact P].
  - intros data i Hi.
    assert (E : iloc (correlation_matrix data) i i
                = nancorr_pair (nth i (numeric_frame data) [])
                               (nth i (numeric_frame data) [])).
    { unfold correlation_matrix. rewrite iloc_corr, numeric_frame_length.
      destruct (Nat.ltb_spec i 6) as [_|C]; [|lia].
      unfold corr_entry. rewrite Nat.max_id, Nat.min_id. reflexivity. }
    rewrite E. apply nancorr_diag.
Qed.

(** over the reals, with sales of 100 and 200: the diagonal entry of the
    sales column is 1 and that of the constant basket value is NaN *)
Lemma correlation_matrix_witness :
  iloc (correlation_matrix exact_two) 0 0 = Fin 1%R
  /\ iloc (correlation_matrix exact_two) 3 3 = NaN.
Proof.
  destruct correlation_matrix_properties as (_ & _ & _ & H).
  split.
  - apply (H exact_two 0%nat); [lia|].
    exists 100%R, 200%R. cbn. split; [auto|]. split; [auto|]. lra.
  - apply (H exact_two 3%nat); [lia|].
    cbn. intros x y [<-|[<-|[]]] [<-|[<-|[]]]; reflexivity.
Defined.

(** In [measured] the basket value and the satisfaction score are constant:
    their diagonal entries are NaN, not 1.0. *)
Lemma diagonal_of_constant_column_is_nan :
  map (fun i => iloc (correlation_matrix measured) i i) (seq 0 6)
  = [1; 1; 1; PrimFloat.nan; 1; PrimFloat.nan]
  /\ is_nan (iloc (correlation_matrix measured) 3 3) = true
  /\ (iloc (correlation_matrix measured) 3 3 =? 1) = false.
Proof. repeat split. Qed.

End CorrelationClaim.

(** ** C6: group sums and sales shares *)

Section ExactGroupSums.

Import Ideal IdealFacts.
Local Open Scope R_scope.

Lemma groupby_Rsum {A K : Type} {key_ops : Key K} (key : A -> option K) (f : A -> R)
      (rows : list A) :
  Rsum (map (fun g => Rsum (map f (snd g))) (groupby key rows))
  = Rsum (map f (keyed key rows)).
Proof.
  rewrite <- (map_map snd (fun l => Rsum (map f l))), <- Rsum_concat.
  apply Rsum_perm, Permutation_map, groupby_partition.
Qed.

Lemma group_values {A K : Type} {key_ops : Key K} (key : A -> option K)
      (P : A -> Prop) (rows : list A) (g : K * list A) :
  Forall P rows -> In g (groupby key rows) -> Forall P (snd g).
Proof.
  intros H Hin. rewrite Forall_forall in *. intros a Ha. apply H.
  apply (keyed_incl key rows).
  apply (Permutation_in _ (groupby_partition key rows)).
  apply in_concat. exists (snd g). split; [apply in_map, Hin|exact Ha].
Qed.

(** for every grouping, the sums of the groups add up to the sum over the
    rows whose key is present *)
Lemma groupby_sum {A K : Type} {key_ops : Key K} (key : A -> option K) (f : A -> xreal)
      (rows : list A) :
  Forall (fun a => not_infinite (f a)) rows ->
  series_sum (map (fun g => sum (map f (snd g))) (groupby key rows))
  = series_sum (map f (keyed key rows)).
Proof.
  intros H.
  assert (Hg : forall g, In g (groupby key rows) ->
                 sum (map f (snd g)) = Fin (Rsum (map (fun a => to_R (f a)) (snd g)))).
  { intros g Hin. rewrite sum_finite, map_map; [reflexivity|].
    apply Forall_map. apply (group_values key _ rows g H Hin). }
  rewrite (map_ext_in _ _ _ Hg).
  rewrite <- (map_map (fun g => Rsum (map (fun a => to_R (f a)) (snd g))) Fin).
  rewrite series_sum_Fin, series_sum_finite, map_map.
  - f_equal. apply groupby_Rsum.
  - apply Forall_map. rewrite Forall_forall in *. intros a Ha.
    apply H, (keyed_incl key rows), Ha.
Qed.

(** *** Rounding *)

Lemma rint_Z_error (x : R) : Rabs (IZR (rint_Z x) - x) <= 1 / 2.
Proof.
  unfold rint_Z. destruct (base_Int_part x) as [H1 H2].
  destruct (Rlt_dec (x - IZR (Int_part x)) (1 / 2)) as [L|L].
  - apply Rabs_le. lra.
  - destruct (Rlt_dec (1 / 2) (x - IZR (Int_part x))) as [G|G];
      [|destruct (Z.even (Int_part x))];
      rewrite ?plus_IZR; apply Rabs_le; lra.
Qed.

Lemma rint_Z_IZR (z : Z) : rint_Z (IZR z) = z.
Proof.
  unfold rint_Z.
  assert (E : Int_part (IZR z) = z) by (symmetry; apply Int_part_spec; lra).
  rewrite E. destruct (Rlt_dec (IZR z - IZR z) (1 / 2)); [reflexivity|lra].
Qed.

Lemma pow10_pos (d : Z) : (0 <= d)%Z -> 0 < IZR (10 ^ d).
Proof. intros H. apply IZR_lt. apply Z.pow_pos_nonneg; lia. Qed.

Lemma round_Fin (d : Z) (x : R) : (0 <= d)%Z -> round d (Fin x) = Fin (round_R d x).
Proof.
  intros Hd. unfold round, round_R. destruct (d =? 0)%Z; [reflexivity|].
  cbn [rint num_mul num_div of_Z exact xrint xmul]. unfold xdiv.
  pose proof (pow10_pos d Hd).
  destruct (Req_dec_T (IZR (10 ^ d)) 0); [lra|reflexivity].
Qed.

Lemma round_R_error (d : Z) (x : R) :
  (0 <= d)%Z -> Rabs (round_R d x - x) <= 1 / 2 / IZR (10 ^ d).
Proof.
  intros Hd. unfold round_R. destruct (Z.eqb_spec d 0) as [->|Hne].
  - change (10 ^ 0)%Z with 1%Z. rewrite Rdiv_1_r. apply rint_Z_error.
  - pose proof (pow10_pos d Hd) as Hp. set (p := IZR (10 ^ d)) in *.
    replace (IZR (rint_Z (x * p)) / p - x) with ((IZR (rint_Z (x * p)) - x * p) / p)
      by (field; lra).
    unfold Rdiv at 1. rewrite Rabs_mult, (Rabs_pos_eq (/ p)).
    + apply Rmult_le_compat_r; [|apply rint_Z_error].
      left. apply Rinv_0_lt_compat, Hp.
    + left. apply Rinv_0_lt_compat, Hp.
Qed.

Lemma round_R_IZR (d z : Z) : (0 <= d)%Z -> round_R d (IZR z) = IZR z.
Proof.
  intros Hd. unfold round_R. destruct (d =? 0)%Z; [rewrite rint_Z_IZR; reflexivity|].
  pose proof (pow10_pos d Hd). rewrite <- mult_IZR, rint_Z_IZR, mult_IZR.
  field. lra.
Qed.

End ExactGroupSums.


Section CategoryShares.

Import Ideal IdealFacts.
Local Open Scope R_scope.

Variable data : dataset xreal.
Hypothesis finite_sales : Forall (fun r => not_infinite (sales_amount r)) data.

Lemma category_sales_real g :
  In g (groupby category data) ->
  cat_sales_amount (category_reduce g) = Fin (round_R 2 (group_sales g)).
Proof.
  intros Hin. cbn [category_reduce cat_sales_amount].
  rewrite sum_finite, map_map.
  - apply round_Fin. lia.
  - apply Forall_map. apply (group_values category _ data g finite_sales Hin).
Qed.

Lemma category_table_agg :
  map cat_agg (category_analysis data) = map category_reduce (groupby category data).
Proof. unfold category_analysis. rewrite map_map. cbn [cat_agg]. apply map_id. Qed.

Lemma category_table_sales :
  map (fun r => cat_sales_amount (cat_agg r)) (category_analysis data)
  = map Fin (map (fun g => round_R 2 (group_sales g)) (groupby category data)).
Proof.
  rewrite <- (map_map cat_agg cat_sales_amount), category_table_agg, !map_map.
  apply map_ext_in. intros g Hg. apply category_sales_real, Hg.
Qed.

Lemma category_table_length :
  length (category_analysis data) = length (groupby category data).
Proof. unfold category_analysis. rewrite !length_map. reflexivity. Qed.

Lemma category_total :
  series_sum (map (fun r => cat_sales_amount (cat_agg r)) (category_analysis data))
  = Fin (Rsum (map (fun g => round_R 2 (group_sales g)) (groupby category data))).
Proof. rewrite category_table_sales. apply series_sum_Fin. Qed.

Lemma category_total_error :
  exists t e,
    series_sum (map sales_amount (keyed category data)) = Fin t
    /\ series_sum (map (fun r => cat_sales_amount (cat_agg r)) (category_analysis data))
       = Fin (t + e)
    /\ Rabs e <= 1 / 200 * INR (length (category_analysis data)).
Proof.
  exists (Rsum (map (fun r => to_R (sales_amount r)) (keyed category data))).
  exists (Rsum (map (fun g => round_R 2 (group_sales g)) (groupby category data))
          - Rsum (map (fun r => to_R (sales_amount r)) (keyed category data))).
  split.
  { rewrite series_sum_finite, map_map; [reflexivity|].
    apply Forall_map. rewrite Forall_forall in *. intros a Ha.
    apply finite_sales, (keyed_incl category data), Ha. }
  split; [rewrite category_total; f_equal; lra|].
  assert (H : forall x, Rabs (round_R 2 x - x) <= 1 / 200).
  { intros x. pose proof (round_R_error 2 x ltac:(lia)) as H.
    change (IZR (10 ^ 2)) with 100 in H. lra. }
  pose proof (Rsum_error (1 / 200) (round_R 2) (fun x => x)
                (map group_sales (groupby category data)) H) as E.
  rewrite map_id, map_map, length_map in E.
  rewrite category_table_length.
  rewrite <- (groupby_Rsum category (fun r => to_R (sales_amount r)) data).
  exact E.
Qed.

Lemma category_shares (T : R) :
  series_sum (map (fun r => cat_sales_amount (cat_agg r)) (category_analysis data)) = Fin T ->
  T <> 0 ->
  map Sales_Share_pct (category_analysis data)
  = map Fin (map (fun g => round_R 1 (round_R 2 (group_sales g) / T * 100))
                 (groupby category data)).
Proof.
  intros HT Hne.
  rewrite <- (map_map cat_agg cat_sales_amount) in HT.
  rewrite category_table_agg in HT.
  unfold category_analysis. rewrite HT, !map_map. cbn [Sales_Share_pct].
  apply map_ext_in. intros g Hg.
  rewrite (category_sales_real g Hg).
  cbn [num_div num_mul of_Z exact xmul]. unfold xdiv.
  destruct (Req_dec_T T 0); [contradiction|].
  apply round_Fin. lia.
Qed.

End CategoryShares.

Section ShareClaim.

Import F64 Ideal IdealFacts Fixtures MoreFixtures.
Local Open Scope R_scope.

Lemma category_share_sums (data : dataset xreal) (T : R) :
  Forall (fun r => not_infinite (sales_amount r)) data ->
  series_sum (map (fun r => cat_sales_amount (cat_agg r)) (category_analysis data)) = Fin T ->
  T <> 0 ->
  series_sum (map (fun r => cat_sales_amount (cat_agg r) / Fin T * of_Z 100)%num
                  (category_analysis data)) = Fin 100
  /\ exists e,
       series_sum (map Sales_Share_pct (category_analysis data)) = Fin (100 + e)
       /\ Rabs e <= 1 / 20 * INR (length (category_analysis data)).
Proof.
  intros Hreal HT Hne.
  pose proof HT as HT'. rewrite (category_total data Hreal) in HT'.
  injection HT' as HT'.
  set (xs := map (fun g => round_R 2 (group_sales g) / T * 100)
                 (groupby category data)).
  assert (Hxs : Rsum xs = 100).
  { unfold xs.
    rewrite (map_ext _ (fun g => round_R 2 (group_sales g) * (/ T * 100)))
      by (intros g; unfold Rdiv; ring).
    rewrite <- (map_map (fun g => round_R 2 (group_sales g)) (fun x => x * (/ T * 100))).
    rewrite Rsum_scale, HT'. field. exact Hne. }
  split.
  - rewrite <- (map_map cat_agg (fun a => cat_sales_amount a / Fin T * of_Z 100)%num).
    rewrite category_table_agg, map_map.
    rewrite (map_ext_in _ (fun g => Fin (round_R 2 (group_sales g) / T * 100))).
    + rewrite <- (map_map _ Fin), series_sum_Fin. fold xs. rewrite Hxs. reflexivity.
    + intros g Hg. rewrite (category_sales_real data Hreal g Hg).
      cbn [num_div num_mul of_Z exact xmul]. unfold xdiv.
      destruct (Req_dec_T T 0); [contradiction|reflexivity].
  - rewrite (category_shares data Hreal T HT Hne), series_sum_Fin.
    rewrite <- (map_map (fun g => round_R 2 (group_sales g) / T * 100) (round_R 1)).
    fold xs. exists (Rsum (map (round_R 1) xs) - 100).
    split; [f_equal; lra|].
    assert (H : forall x, Rabs (round_R 1 x - x) <= 1 / 20).
    { intros x. pose proof (round_R_error 1 x ltac:(lia)) as H.
      change (IZR (10 ^ 1)) with 10 in H. lra. }
    pose proof (Rsum_error (1 / 20) (round_R 1) (fun x => x) xs H) as E.
    rewrite map_id, Hxs in E.
    rewrite category_table_length. unfold xs in E. rewrite length_map in E. exact E.
Qed.

(** C6, in exact arithmetic.  Take a dataset whose sales amounts are real
    numbers or missing (none is infinite).  For every grouping, the sums of
    the groups add up to the total of the sales of the rows whose key is
    present; a row whose key is missing is in no group, so this is the
    ungrouped total exactly when it leaves out nothing, in particular when
    no row lacks the key.  In the per-category table the group sums are
    rounded to 2 decimals, so that their total is within 0.005 per group of
    the total of the rows that have a category.  When the total of the
    table is not zero, the shares [group_sales / total * 100] add up to
    exactly 100, and the stored Sales_Share_% values, rounded to 1 decimal,
    add up to 100 within 0.05 per group. *)
Theorem group_sums_and_sales_shares :
  (forall (K : Type) (key_ops : Key K) (key : row xreal -> option K) (data : dataset xreal),
      Forall (fun r => not_infinite (sales_amount r)) data ->
      series_sum (map (fun g => sum (map sales_amount (snd g))) (groupby key data))
      = series_sum (map sales_amount (keyed key data))
      /\ ((forall r, In r data -> key r <> None) ->
          series_sum (map (fun g => sum (map sales_amount (snd g))) (groupby key data))
          = series_sum (map sales_amount data)))
  /\ (forall data : dataset xreal,
         Forall (fun r => not_infinite (sales_amount r)) data ->
         (exists t e,
             series_sum (map sales_amount (keyed category data)) = Fin t
             /\ series_sum (map (fun r => cat_sales_amount (cat_agg r))
                                (category_analysis data))
                = Fin (t + e)
             /\ Rabs e <= 1 / 200 * INR (length (category_analysis data)))
         /\ (series_sum (map (fun r => cat_sales_amount (cat_agg r)) (category_analysis data))
             <> Fin 0 ->
             series_sum (map (fun r =>
                                cat_sales_amount (cat_agg r)
                                / series_sum (map (fun r => cat_sales_amount (cat_agg r))
                                                  (category_analysis data))
                                * of_Z 100)%num
                             (category_analysis data))
             = Fin 100
             /\ exists e,
                  series_sum (map Sales_Share_pct (category_analysis data)) = Fin (100 + e)
                  /\ Rabs e <= 1 / 20 * INR (length (category_analysis data)))).
Proof.
  split.
  - intros K key_ops key data H.
    pose proof (groupby_sum key sales_amount data H) as E.
    split; [exact E|]. intros Hk. rewrite E, (keyed_all key data Hk). reflexivity.
  - intros data H. split; [apply category_total_error, H|].
    intros Hne. rewrite (category_total data H) in *.
    apply category_share_sums; [exact H|apply category_total, H|].
    intros E. apply Hne. rewrite E. reflexivity.
Qed.

Lemma exact_two_finite :
  Forall (fun r : row xreal => not_infinite (sales_amount r)) exact_two.
Proof. repeat constructor; discriminate. Qed.

Lemma exact_two_total :
  series_sum (map (fun r => cat_sales_amount (cat_agg r)) (category_analysis exact_two))
  = Fin 300.
Proof.
  rewrite (category_total exact_two exact_two_finite).
  change (groupby category exact_two) with [("Grocery"%string, exact_two)].
  unfold group_sales. cbn [map snd exact_two exact_row sales_amount to_R Rsum fold_right].
  replace (100 + (200 + 0)) with (IZR 300) by lra.
  rewrite round_R_IZR by lia. f_equal. lra.
Qed.

(** over the reals, with sales of 100 and 200 in one category: the single
    share is 100 *)
Lemma group_sums_and_sales_shares_witness :
  series_sum (map (fun g => sum (map sales_amount (snd g))) (groupby category exact_two))
  = series_sum (map sales_amount exact_two)
  /\ exists e,
       series_sum (map Sales_Share_pct (category_analysis exact_two)) = Fin (100 + e)
       /\ Rabs e <= 1 / 20 * INR (length (category_analysis exact_two)).
Proof.
  split.
  - apply (proj2 (proj1 group_sums_and_sales_shares _ _ category exact_two exact_two_finite)).
    intros r [<-|[<-|[]]]; discriminate.
  - apply (proj2 (proj2 group_sums_and_sales_shares exact_two exact_two_finite)).
    rewrite exact_two_total. intros E. injection E as E. lra.
Defined.

(** With no sales at all, every share is 0/0: the shares are NaN and do not
    add up to 100, whether NaN is skipped (sum 0) or not (sum NaN).  And a
    row without a category is in no group: with sales of 100 in category
    "Grocery" and sales of 200 in a row whose category is missing, the
    groups add up to 100 and the ungrouped total is 300. *)
Lemma shares_of_zero_sales_are_nan :
  (series_sum (map sales_amount no_sales) = 0%float
   /\ map Sales_Share_pct (category_analysis no_sales) = [PrimFloat.nan; PrimFloat.nan]
   /\ series_sum (map Sales_Share_pct (category_analysis no_sales)) = 0%float
   /\ np_sum (map Sales_Share_pct (category_analysis no_sales)) = PrimFloat.nan)
  /\ (series_sum (map (fun g => sum (map sales_amount (snd g)))
                      (groupby category uncategorised)) = 100%float
      /\ series_sum (map sales_amount uncategorised) = 300%float).
Proof. repeat split. Qed.

End ShareClaim.

(** ** C7: the five best and the five worst stores *)

Section StableSortFacts.

Context {A : Type}.
Variable le : A -> A -> bool.

Lemma insert_by_perm (x : A) (l : list A) : Permutation (insert_by le x l) (x :: l).
Proof.
  induction l as [|y l IH]; simpl; [reflexivity|].
  destruct (le x y); [reflexivity|].
  rewrite IH. apply perm_swap.
Qed.

Lemma stable_sort_perm (l : list A) : Permutation (stable_sort le l) l.
Proof.
  induction l as [|x l IH]; simpl; [reflexivity|].
  rewrite insert_by_perm, IH. reflexivity.
Qed.

Lemma filter_perm (f : A -> bool) (l l' : list A) :
  Permutation l l' -> Permutation (filter f l) (filter f l').
Proof.
  induction 1 as [|x l l' _ IH|x y l|l l' l'' _ IH1 _ IH2]; simpl.
  - reflexivity.
  - destruct (f x); [constructor|]; assumption.
  - destruct (f x), (f y); try reflexivity. apply perm_swap.
  - etransitivity; eassumption.
Qed.

Lemma filter_split (f : A -> bool) (l : list A) :
  Permutation (filter f l ++ filter (fun x => negb (f x)) l) l.
Proof.
  induction l as [|x l IH]; simpl; [reflexivity|].
  destruct (f x); simpl.
  - constructor. exact IH.
  - rewrite <- Permutation_middle. constructor. exact IH.
Qed.

Lemma filter_all (f : A -> bool) (l : list A) :
  (forall x, In x l -> f x = true) -> filter f l = l.
Proof.
  induction l as [|x l IH]; simpl; intros H; [reflexivity|].
  rewrite (H x (or_introl eq_refl)). f_equal. apply IH. intros; apply H; right; assumption.
Qed.

Section Sorted.

Variable ok : A -> Prop.
Hypothesis le_total : forall a b, ok a -> ok b -> le a b = false -> le b a = true.
Hypothesis le_trans :
  forall a b c, le a b = true -> le b c = true -> le a c = true.

Lemma insert_by_sorted (x : A) (l : list A) :
  ok x -> Forall ok l ->
  StronglySorted (le_prop le) l -> StronglySorted (le_prop le) (insert_by le x l).
Proof.
  intros Hx Hok S. induction S as [|y l S IH HF]; simpl.
  - constructor; constructor.
  - inversion Hok as [|? ? Hy Hok']; subst.
    destruct (le x y) eqn:E.
    + constructor; [constructor; assumption|].
      constructor; [exact E|].
      eapply Forall_impl; [|exact HF]. intros z Hz. eapply le_trans; eauto.
    + constructor; [apply IH; assumption|].
      rewrite Forall_forall in *. intros z Hz.
      apply (Permutation_in _ (insert_by_perm x l)) in Hz.
      destruct Hz as [<-|Hz]; [|apply HF, Hz].
      apply le_total; assumption.
Qed.

Lemma stable_sort_sorted (l : list A) :
  Forall ok l -> StronglySorted (le_prop le) (stable_sort le l).
Proof.
  induction 1 as [|x l Hx Hok IH]; simpl; [constructor|].
  apply insert_by_sorted; [assumption| |assumption].
  rewrite Forall_forall in *. intros z Hz. apply Hok.
  apply (Permutation_in _ (stable_sort_perm l)), Hz.
Qed.

End Sorted.

(** stability: rows that the order does not separate keep the order of the
    frame *)
Lemma insert_by_filter (p : A -> bool) (x : A) (l : list A) :
  (forall y, In y l -> p x = true -> p y = true -> le x y = true) ->
  filter p (insert_by le x l) = filter p (x :: l).
Proof.
  induction l as [|y l IH]; intros H; [reflexivity|].
  cbn [insert_by]. destruct (le x y) eqn:E; [reflexivity|].
  cbn [filter]. rewrite IH by (intros; apply H; [right|..]; assumption).
  cbn [filter].
  destruct (p x) eqn:Px, (p y) eqn:Py; try reflexivity.
  rewrite (H y (or_introl eq_refl) eq_refl Py) in E. discriminate.
Qed.

Lemma stable_sort_filter (p : A -> bool) (l : list A) :
  (forall x y, In x l -> In y l -> p x = true -> p y = true -> le x y = true) ->
  filter p (stable_sort le l) = filter p l.
Proof.
  induction l as [|x l IH]; intros H; [reflexivity|].
  cbn [stable_sort fold_right]. fold (stable_sort le l).
  rewrite insert_by_filter.
  - cbn [filter]. rewrite IH; [reflexivity|].
    intros a b Ha Hb. apply H; right; assumption.
  - intros y Hy. apply H; [left; reflexivity|right].
    apply (Permutation_in _ (stable_sort_perm l)), Hy.
Qed.

End StableSortFacts.

Section PrefixFacts.

Context {A : Type}.

Lemma sorted_prefix (R : A -> A -> Prop) (l : list A) (i : nat) (t : A) :
  StronglySorted R l -> nth_error l i = Some t ->
  forall r, In r (firstn i l) -> R r t.
Proof.
  intros S. revert i. induction S as [|x l S IH HF]; intros i Ht r Hr.
  - destruct i; discriminate.
  - destruct i as [|i]; [destruct Hr|]. simpl in Ht, Hr.
    destruct Hr as [<-|Hr].
    + rewrite Forall_forall in HF. apply HF. eapply nth_error_In; eauto.
    + eapply IH; eauto.
Qed.

Lemma firstn_succ_In (l : list A) (i : nat) (t r : A) :
  nth_error l i = Some t -> In r (firstn (S i) l) -> In r (firstn i l) \/ r = t.
Proof.
  revert i. induction l as [|x l IH]; intros i Ht Hr; [destruct i; discriminate|].
  destruct i as [|i]; simpl in *.
  - destruct Hr as [<-|[]]. right. congruence.
  - destruct Hr as [<-|Hr]; [left; left; reflexivity|].
    destruct (IH i Ht Hr); auto.
Qed.

End PrefixFacts.

Section SelectionFacts.

Import F64 F64Facts.
Local Open Scope float_scope.

Context {A : Type}.
Variable v : A -> float.

Lemma StronglySorted_app (R : A -> A -> Prop) (l1 l2 : list A) :
  StronglySorted R l1 -> StronglySorted R l2 ->
  (forall a b, In a l1 -> In b l2 -> R a b) ->
  StronglySorted R (l1 ++ l2).
Proof.
  intros S1 S2 H. induction S1 as [|x l1 S1 IH HF]; simpl; [assumption|].
  constructor.
  - apply IH. intros a b Ha Hb. apply H; [right|]; assumption.
  - apply Forall_app. split; [assumption|].
    apply Forall_forall. intros b Hb. apply H; [left; reflexivity|assumption].
Qed.

Lemma StronglySorted_impl (R R' : A -> A -> Prop) (l : list A) :
  (forall a b, R a b -> R' a b) -> StronglySorted R l -> StronglySorted R' l.
Proof.
  intros H. induction 1 as [|x l S IH HF]; constructor; [assumption|].
  eapply Forall_impl; [|exact HF]. intros b. apply H.
Qed.

Lemma StronglySorted_all (R : A -> A -> Prop) (l : list A) :
  (forall b, In b l -> forall a, R a b) -> StronglySorted R l.
Proof.
  induction l as [|x l IH]; intros H; constructor.
  - apply IH. intros b Hb. apply H. right. assumption.
  - apply Forall_forall. intros b Hb. apply H. right. assumption.
Qed.

Lemma filter_filter_implied (p q : A -> bool) (l : list A) :
  (forall x, p x = true -> q x = true) -> filter p (filter q l) = filter p l.
Proof.
  intros H. induction l as [|x l IH]; simpl; [reflexivity|].
  destruct (q x) eqn:Q; simpl; rewrite IH; [reflexivity|].
  destruct (p x) eqn:P; [|reflexivity]. rewrite (H x P) in Q. discriminate.
Qed.

Lemma filter_none (p : A -> bool) (l : list A) :
  (forall x, In x l -> p x = false) -> filter p l = [].
Proof.
  induction l as [|x l IH]; simpl; intros H; [reflexivity|].
  rewrite (H x (or_introl eq_refl)). apply IH. intros; apply H; right; assumption.
Qed.

Lemma ranking_perm (l : list A) : Permutation (ranking v l) l.
Proof.
  unfold ranking. rewrite stable_sort_perm. apply filter_split.
Qed.

Lemma ranking_length (l : list A) : length (ranking v l) = length l.
Proof. apply Permutation_length, ranking_perm. Qed.

Lemma select_n_length (n : nat) (l : list A) :
  length (select_n n v l) = Nat.min n (length l).
Proof. unfold select_n. rewrite length_firstn, ranking_length. reflexivity. Qed.

(** the rows with a value come in ascending order, the rows without a value
    come last *)
Lemma ranking_sorted (l : list A) :
  StronglySorted (fun a b => is_nan (v b) = true \/ (v a <=? v b) = true)
                 (ranking v l).
Proof.
  unfold ranking. apply StronglySorted_app.
  - apply (StronglySorted_impl (le_prop (fun a b => v a <=? v b)));
      [intros a b H; right; exact H|].
    apply (stable_sort_sorted (fun a b => v a <=? v b) (fun a => notna (v a) = true)).
    + intros a b Ha Hb H. apply leb_false; [exact Ha|exact Hb|exact H].
    + intros a b c. apply leb_trans.
    + apply Forall_forall. intros x Hx. apply filter_In in Hx. apply Hx.
  - apply StronglySorted_all. intros b Hb a. apply filter_In in Hb. left. apply Hb.
  - intros a b Ha Hb. apply filter_In in Hb. left. apply Hb.
Qed.

Lemma is_nan_true (x : float) : is_nan x = true -> (x =? x) = false.
Proof. unfold is_nan. cbn [num_eqb binary64]. destruct (x =? x); [discriminate|reflexivity]. Qed.

(** rows that the value does not separate keep the order of the frame *)
Lemma ranking_filter (p : A -> bool) (l : list A) :
  (forall a, p a = true -> notna (v a) = true) ->
  (forall a b, p a = true -> p b = true -> (v a <=? v b) = true) ->
  filter p (ranking v l) = filter p l.
Proof.
  intros Hok Hle. unfold ranking. rewrite filter_app.
  rewrite (filter_none p (filter (fun r => is_nan (v r)) l)).
  - rewrite app_nil_r, stable_sort_filter.
    + apply filter_filter_implied. exact Hok.
    + intros a b _ _. apply Hle.
  - intros r Hr. apply filter_In in Hr. destruct Hr as [_ Hr].
    destruct (p r) eqn:P; [|reflexivity].
    apply is_nan_true in Hr. specialize (Hok r P). unfold notna in Hok.
    cbn [num_eqb binary64] in Hok. congruence.
Qed.

(** the rows without a value keep the order of the frame *)
Lemma ranking_nan_rows (l : list A) :
  filter (fun r => is_nan (v r)) (ranking v l) = filter (fun r => is_nan (v r)) l.
Proof.
  unfold ranking. rewrite filter_app.
  rewrite (filter_none (fun r => is_nan (v r))
             (stable_sort (fun a b => (v a <=? v b)%num)
                          (filter (fun r => notna (v r)) l))).
  - simpl. apply filter_filter_implied. auto.
  - intros r Hr. apply (Permutation_in _ (stable_sort_perm _ _)) in Hr.
    apply filter_In in Hr. destruct Hr as [_ Hr].
    unfold is_nan. unfold notna in Hr. rewrite Hr. reflexivity.
Qed.

(** every row selected before position [i] is no larger than the row at
    position [i], when that row has a value *)
Lemma select_n_bound (n i : nat) (l : list A) (t : A) :
  nth_error (select_n n v l) i = Some t ->
  (v t =? v t) = true ->
  forall r, In r (select_n (S i) v l) -> (v r <=? v t) = true.
Proof.
  unfold select_n. rewrite nth_error_firstn.
  destruct (Nat.ltb i n); [|discriminate].
  intros Ht Hok r Hr.
  destruct (firstn_succ_In _ _ _ _ Ht Hr) as [Hr'| ->]; [|apply leb_refl, Hok].
  destruct (sorted_prefix _ _ _ _ (ranking_sorted l) Ht r Hr') as [Hn|Hle];
    [|exact Hle].
  apply is_nan_true in Hn. congruence.
Qed.

End SelectionFacts.

Section TopBottomFacts.

Import F64 F64Facts.
Local Open Scope float_scope.

Context {A : Type}.
Variable v : A -> float.

(** the best rows in terms of the column itself *)
Lemma nlargest_sorted (l : list A) :
  StronglySorted (fun a b => is_nan (v b) = true \/ (v b <=? v a) = true)
                 (ranking (fun r => (- v r)%num) l).
Proof.
  eapply StronglySorted_impl; [|apply (ranking_sorted (fun r => - v r))].
  intros a b [H|H].
  - left. unfold is_nan in *. cbn [num_eqb num_opp binary64] in *.
    rewrite eqb_opp in H. exact H.
  - right. rewrite leb_opp in H. exact H.
Qed.

Lemma nlargest_stable (l : list A) (x : float) :
  filter (fun r => v r =? x) (ranking (fun r => (- v r)%num) l)
  = filter (fun r => v r =? x) l.
Proof.
  apply (ranking_filter (fun r => - v r)).
  - intros a Ha. unfold notna. cbn [num_eqb num_opp binary64].
    rewrite eqb_opp. apply (eqb_notna _ _ Ha).
  - intros a b Ha Hb. rewrite leb_opp. apply (eqb_class _ _ x); assumption.
Qed.

Lemma nlargest_nan_rows (l : list A) :
  filter (fun r => is_nan (v r)) (ranking (fun r => (- v r)%num) l)
  = filter (fun r => is_nan (v r)) l.
Proof.
  assert (E : forall r, is_nan (v r) = is_nan (- v r)%num).
  { intros r. unfold is_nan. cbn [num_eqb num_opp binary64].
    rewrite eqb_opp. reflexivity. }
  rewrite !(filter_ext _ _ E). apply (ranking_nan_rows (fun r => - v r)).
Qed.

Lemma nsmallest_stable (l : list A) (x : float) :
  filter (fun r => v r =? x) (ranking v l) = filter (fun r => v r =? x) l.
Proof.
  apply ranking_filter.
  - intros a Ha. apply (eqb_notna _ _ Ha).
  - intros a b Ha Hb. apply (eqb_class _ _ x); assumption.
Qed.

(** When the last of the [S i] best rows has a strictly larger value than the
    last of the [S i] worst rows, no row is selected twice, and the two
    selections together with the rows left out are the frame. *)
Lemma top_bottom_partition (i : nat) (l : list A) (t b : A) :
  nth_error (nlargest (S i) v l) i = Some t ->
  nth_error (nsmallest (S i) v l) i = Some b ->
  (v b <? v t) = true ->
  (forall r, In r (nlargest (S i) v l) -> In r (nsmallest (S i) v l) -> False)
  /\ exists others,
       Permutation (nlargest (S i) v l ++ nsmallest (S i) v l ++ others) l.
Proof.
  intros Ht Hb Hlt.
  destruct (ltb_notna _ _ Hlt) as [Nb Nt].
  assert (Hbot : forall r, In r (nsmallest (S i) v l) -> (v r <=? v b) = true).
  { intros r Hr. apply (select_n_bound v (S i) i l b Hb Nb r Hr). }
  assert (Htop : forall r, In r (nlargest (S i) v l) -> (v t <=? v r) = true).
  { intros r Hr. rewrite <- leb_opp.
    apply (select_n_bound (fun r => - v r) (S i) i l t Ht); [|exact Hr].
    rewrite eqb_opp. exact Nt. }
  assert (Hout : forall r, In r (nlargest (S i) v l) -> (v r <=? v b) = false).
  { intros r Hr. apply ltb_asym. eapply ltb_leb_trans; [exact Hlt|apply Htop, Hr]. }
  split.
  - intros r H1 H2. pose proof (Hout r H1) as E.
    rewrite (Hbot r H2) in E. discriminate.
  - set (P := fun r => v r <=? v b).
    set (X := filter P (skipn (S i) (ranking v l))).
    set (Y := filter (fun r => negb (P r))
                     (skipn (S i) (ranking (fun r => (- v r)%num) l))).
    exists (X ++ Y).
    assert (E1 : Permutation (filter P l) (nsmallest (S i) v l ++ X)).
    { etransitivity;
        [apply filter_perm, Permutation_sym, (ranking_perm v l)|].
      rewrite <- (firstn_skipn (S i) (ranking v l)) at 1.
      rewrite filter_app.
      change (firstn (S i) (ranking v l)) with (nsmallest (S i) v l).
      rewrite (filter_all P (nsmallest (S i) v l)) by exact Hbot.
      reflexivity. }
    assert (E2 : Permutation (filter (fun r => negb (P r)) l)
                             (nlargest (S i) v l ++ Y)).
    { etransitivity;
        [apply filter_perm, Permutation_sym, (ranking_perm (fun r => (- v r)%num) l)|].
      rewrite <- (firstn_skipn (S i) (ranking (fun r => (- v r)%num) l)) at 1.
      rewrite filter_app.
      change (firstn (S i) (ranking (fun r => (- v r)%num) l))
        with (nlargest (S i) v l).
      rewrite (filter_all (fun r => negb (P r)) (nlargest (S i) v l))
        by (intros r Hr; unfold P; rewrite (Hout r Hr); reflexivity).
      reflexivity. }
    symmetry.
    etransitivity; [apply Permutation_sym, (filter_split P l)|].
    etransitivity; [apply (Permutation_app E1 E2)|].
    etransitivity; [apply Permutation_app_comm|].
    rewrite <- !app_assoc. apply Permutation_app_head.
    etransitivity; [apply Permutation_app_comm|].
    rewrite <- app_assoc. reflexivity.
Qed.

End TopBottomFacts.

Section StoreRankingClaim.

Import F64 F64Facts Fixtures.
Local Open Scope float_scope.

Lemma StronglySorted_firstn {A : Type} (R : A -> A -> Prop) (n : nat) (l : list A) :
  StronglySorted R l -> StronglySorted R (firstn n l).
Proof.
  intros S. revert n. induction S as [|x l S IH HF]; intros [|n]; cbn [firstn];
    try constructor.
  - apply IH.
  - rewrite Forall_forall in *. intros y Hy. apply HF.
    rewrite <- (firstn_skipn n l). apply in_or_app. left. exact Hy.
Qed.

Lemma top_stores_Ok (data : dataset float) (top : list store_row) :
  top_stores data = Ok top ->
  data <> [] /\ top = nlargest 5 profit_margin (store_efficiency data).
Proof.
  destruct data as [|r data]; [discriminate|]. intros E. injection E as <-.
  split; [discriminate|reflexivity].
Qed.

Lemma bottom_stores_Ok (data : dataset float) (bottom : list store_row) :
  bottom_stores data = Ok bottom ->
  data <> [] /\ bottom = nsmallest 5 profit_margin (store_efficiency data).
Proof.
  destruct data as [|r data]; [discriminate|]. intros E. injection E as <-.
  split; [discriminate|reflexivity].
Qed.

(** C7, as the program selects.  On a dataset with at least one row,
    [top_stores] and [bottom_stores] are taken from the per-store table: the
    top selection from its margins from the largest down, the bottom
    selection from the smallest up, the stores without a margin (NaN) last
    in both.  Each selection holds five stores, or every store when the
    table has fewer than five, each row of the table at most once.  When
    the table has more than five rows the selections are the first five rows
    of two rankings that keep stores with equal margins, and stores without
    a margin, in the order of the table; a group of tied stores can
    therefore be selected on both sides.  When the fifth best margin is
    strictly larger than the fifth worst, no store is selected twice and the
    two selections together with the stores left out hold every row of the
    table exactly once.  On the dataset without rows (a file that holds only
    its header) both selections raise [TypeError]. *)
Theorem top_and_bottom_five :
  forall data : dataset float,
    (forall top bottom,
        top_stores data = Ok top ->
        bottom_stores data = Ok bottom ->
        length top = Nat.min 5 (length (store_efficiency data))
        /\ length bottom = Nat.min 5 (length (store_efficiency data))
        /\ (exists rest, Permutation (top ++ rest) (store_efficiency data))
        /\ (exists rest, Permutation (bottom ++ rest) (store_efficiency data))
        /\ StronglySorted
             (fun a b => is_nan (profit_margin b) = true
                         \/ (profit_margin b <=? profit_margin a) = true)
             top
        /\ StronglySorted
             (fun a b => is_nan (profit_margin b) = true
                         \/ (profit_margin a <=? profit_margin b) = true)
             bottom
        /\ ((5 < length (store_efficiency data))%nat ->
            top = firstn 5 (ranking (fun r => (- profit_margin r)%num) (store_efficiency data))
            /\ bottom = firstn 5 (ranking profit_margin (store_efficiency data))
            /\ (forall x,
                   filter (fun r => profit_margin r =? x)
                          (ranking (fun r => (- profit_margin r)%num) (store_efficiency data))
                   = filter (fun r => profit_margin r =? x) (store_efficiency data)
                   /\ filter (fun r => profit_margin r =? x)
                             (ranking profit_margin (store_efficiency data))
                      = filter (fun r => profit_margin r =? x) (store_efficiency data))
            /\ filter (fun r => is_nan (profit_margin r))
                      (ranking (fun r => (- profit_margin r)%num) (store_efficiency data))
               = filter (fun r => is_nan (profit_margin r)) (store_efficiency data)
            /\ filter (fun r => is_nan (profit_margin r))
                      (ranking profit_margin (store_efficiency data))
               = filter (fun r => is_nan (profit_margin r)) (store_efficiency data))
        /\ (forall t b,
               nth_error top 4 = Some t ->
               nth_error bottom 4 = Some b ->
               (profit_margin b <? profit_margin t) = true ->
               (forall r, In r top -> In r bottom -> False)
               /\ exists others,
                    Permutation (top ++ bottom ++ others) (store_efficiency data)))
    /\ (data <> [] -> exists top bottom,
                         top_stores data = Ok top /\ bottom_stores data = Ok bottom)
    /\ (data = [] -> exists msg1 msg2,
                        top_stores data = Raise (TypeError msg1)
                        /\ bottom_stores data = Raise (TypeError msg2)).
Proof.
  intros data. split; [|split].
  - intros top bottom Et Eb.
    destruct (top_stores_Ok data top Et) as [_ ->].
    destruct (bottom_stores_Ok data bottom Eb) as [_ ->].
    set (table := store_efficiency data).
    split; [apply (select_n_length (fun r => - profit_margin r))|].
    split; [apply (select_n_length profit_margin)|].
    split.
    { exists (skipn 5 (ranking (fun r => (- profit_margin r)%num) table)).
      unfold nlargest, select_n. rewrite firstn_skipn. apply ranking_perm. }
    split.
    { exists (skipn 5 (ranking profit_margin table)).
      unfold nsmallest, select_n. rewrite firstn_skipn. apply ranking_perm. }
    split; [apply StronglySorted_firstn, nlargest_sorted|].
    split; [apply StronglySorted_firstn, ranking_sorted|].
    split.
    { intros _. split; [reflexivity|]. split; [reflexivity|].
      split; [intros x; split; [apply nlargest_stable|apply nsmallest_stable]|].
      split; [apply nlargest_nan_rows|apply ranking_nan_rows]. }
    intros t b Ht Hb Hlt.
    apply (top_bottom_partition profit_margin 4 table t b Ht Hb Hlt).
  - intros H. destruct data as [|r data]; [congruence|].
    eexists _, _. split; reflexivity.
  - intros ->. eexists _, _. split; reflexivity.
Qed.

(** with the margins 1%, ..., 11% the five best and the five worst stores are
    ten different stores *)
Lemma top_and_bottom_five_witness :
  exists top bottom,
    top_stores eleven_distinct = Ok top
    /\ bottom_stores eleven_distinct = Ok bottom
    /\ map (fun r => st_store_id (st_agg r)) top
       = ["S11"; "S10"; "S09"; "S08"; "S07"]%string
    /\ map (fun r => st_store_id (st_agg r)) bottom
       = ["S01"; "S02"; "S03"; "S04"; "S05"]%string
    /\ (forall r, In r top -> In r bottom -> False)
    /\ exists others,
         Permutation (top ++ bottom ++ others) (store_efficiency eleven_distinct).
Proof.
  eexists _, _. split; [reflexivity|]. split; [reflexivity|].
  split; [reflexivity|]. split; [reflexivity|].
  eapply (proj2 (proj2 (proj2 (proj2 (proj2 (proj2 (proj2
            (proj1 (top_and_bottom_five eleven_distinct) _ _ eq_refl eq_refl))))))));
    reflexivity.
Defined.

(** Eleven stores with the same margin: the five best and the five worst are
    the same five stores, the first five of the table.  A table of three
    stores yields selections of three. *)
Lemma top_and_bottom_overlap_on_ties :
  length (store_efficiency eleven_equal) = 11%nat
  /\ nunique (map store_id eleven_equal) = 11%nat
  /\ (exists top,
         top_stores eleven_equal = Ok top
         /\ bottom_stores eleven_equal = Ok top
         /\ map (fun r => st_store_id (st_agg r)) top
            = ["S01"; "S02"; "S03"; "S04"; "S05"]%string)
  /\ (exists top bottom,
         top_stores chain_A = Ok top
         /\ bottom_stores chain_A = Ok bottom
         /\ length top = 3%nat
         /\ length bottom = 3%nat).
Proof.
  split; [reflexivity|]. split; [reflexivity|]. split.
  - eexists. repeat split.
  - eexists _, _. repeat split.
Qed.

End StoreRankingClaim.

(** ** C8: derived metrics *)

Section DerivedMetricFacts.

Import F64 Fixtures.
Local Open Scope float_scope.

Lemma time_series_recent (data : dataset float) (rep : time_series_report) :
  time_series_analysis data = Ok rep ->
  recent_performance rep
  = map (fun r => (month_year r, mt_sales_amount (mt_agg r) / 1000000, sales_growth r))
        (tail 6 (monthly_trends data))
  /\ exists peak_avg low_avg,
       series_get (seasonal_performance data) (peak_month rep) = Ok peak_avg
       /\ series_get (seasonal_performance data) (low_month rep) = Ok low_avg
       /\ peak_avg_millions rep = peak_avg / 1000000
       /\ low_avg_millions rep = low_avg / 1000000.
Proof.
  unfold time_series_analysis, bind.
  destruct (idxmax (seasonal_performance data)) as [peak|]; [|discriminate].
  destruct (idxmin (seasonal_performance data)) as [low|]; [|discriminate].
  destruct (series_get (seasonal_performance data) peak) as [pa|] eqn:Ep; [|discriminate].
  destruct (series_get (seasonal_performance data) low) as [la|] eqn:El; [|discriminate].
  intros E. injection E as <-. cbn. split; [reflexivity|].
  exists pa, la. auto.
Qed.

(** C8, as the program computes it.  Each derived metric is a function of the
    reduced fields of its own row, and each stored metric is rounded after the
    stated formula is applied: Sales_Per_Store is
    [round(sales_amount / store_id, 0)] where [store_id] is the number of
    distinct stores of the region; ROI_Score is
    [round(Avg_Margin * Total_Customers / 100000, 2)]; Sales_Crores is
    [round(Total_Sales / 10000000, 1)].  The printed totals in Crores divide by
    10000000 and the printed monthly and seasonal figures in Millions divide
    by 1000000, without rounding before formatting. *)
Theorem derived_metrics_are_rounded_formulas :
  forall data : dataset float,
    map (fun r => reg_store_id (reg_agg r)) (regional_metrics data)
    = map (fun g => nunique (map store_id (snd g))) (groupby region data)
    /\ Forall (fun r =>
                 Sales_Per_Store r
                 = round 0 (reg_sales_amount (reg_agg r)
                            / of_nat (reg_store_id (reg_agg r))))
              (regional_metrics data)
    /\ (forall rep,
           financial_analysis data = Ok rep ->
           map Store_Count (chain_performance rep)
           = map (fun g => nunique (map store_id (snd g))) (groupby chain_name data)
           /\ Forall (fun r =>
                        ROI_Score r
                        = round 2 (Avg_Margin r * of_Z (Total_Customers r) / 100000)
                        /\ Sales_Crores r = round 1 (Total_Sales r / 10000000))
                     (chain_performance rep)
           /\ total_revenue_crores rep = total_revenue rep / 10000000
           /\ total_profit_crores rep = total_profit rep / 10000000)
    /\ (data <> [] -> exists rep, financial_analysis data = Ok rep)
    /\ (forall rep,
           time_series_analysis data = Ok rep ->
           recent_performance rep
           = map (fun r => (month_year r,
                            mt_sales_amount (mt_agg r) / 1000000,
                            sales_growth r))
                 (tail 6 (monthly_trends data))
           /\ exists peak_avg low_avg,
                series_get (seasonal_performance data) (peak_month rep) = Ok peak_avg
                /\ series_get (seasonal_performance data) (low_month rep) = Ok low_avg
                /\ peak_avg_millions rep = peak_avg / 1000000
                /\ low_avg_millions rep = low_avg / 1000000).
Proof.
  intros data.
  split; [unfold regional_metrics; rewrite map_map; reflexivity|].
  split; [unfold regional_metrics; apply Forall_map, Forall_forall; reflexivity|].
  split.
  { intros rep E. destruct data as [|r0 data]; [discriminate|].
    injection E as <-. cbn [chain_performance total_revenue_crores total_revenue
                              total_profit_crores total_profit].
    split; [unfold chain_table; rewrite map_map; reflexivity|].
    split; [|split; reflexivity].
    unfold chain_table. apply Forall_map, Forall_forall. intros g _.
    split; reflexivity. }
  split.
  { intros H. destruct data as [|r0 data]; [congruence|]. eexists. reflexivity. }
  apply time_series_recent.
Qed.

Lemma derived_metrics_witness :
  exists rep,
    time_series_analysis three_stores = Ok rep
    /\ recent_performance rep = [("2023-01"%string, 0.0001, PrimFloat.nan)]
    /\ peak_avg_millions rep = (100 / 3) / 1000000.
Proof.
  eexists. split; [reflexivity|].
  destruct (proj2 (proj2 (proj2 (proj2
             (derived_metrics_are_rounded_formulas three_stores))))
             _ eq_refl) as (H1 & pa & la & H2 & H3 & H4 & H5).
  split; [exact H1|].
  rewrite H4. injection H2 as <-. reflexivity.
Defined.

(** With three stores and sales of 100 in a region, Sales_Per_Store is 33 and
    not 100/3; with an average margin of 6.67 and 300 customers, ROI_Score is
    0.02 and not 6.67 * 300 / 100000. *)
Lemma stored_metrics_are_rounded :
  map (fun r => (reg_sales_amount (reg_agg r), reg_store_id (reg_agg r),
                 Sales_Per_Store r))
      (regional_metrics three_stores)
  = [(100, 3%nat, 33)]
  /\ (33 =? 100 / 3) = false
  /\ (exists rep,
         financial_analysis three_stores = Ok rep
         /\ map (fun r => (Avg_Margin r, Total_Customers r, ROI_Score r))
                (chain_performance rep)
            = [(6.67, 300%Z, 0.02)])
  /\ (0.02 =? 6.67 * 300 / 100000) = false.
Proof.
  split; [reflexivity|]. split; [reflexivity|].
  split; [eexists; split; reflexivity|reflexivity].
Qed.

End DerivedMetricFacts.

(** ** C9: peak and low season *)

Section SeasonalFacts.

Context {F : Type} {num : Number F}.

Lemma seasonal_keys (data : dataset F) :
  map fst (seasonal_performance data) = map fst (groupby month_key data).
Proof. unfold seasonal_performance. rewrite map_map. reflexivity. Qed.

(** the months of the seasonal series come in increasing order *)
Lemma seasonal_sorted (data : dataset F) :
  StronglySorted Z.lt (map fst (seasonal_performance data)).
Proof.
  rewrite seasonal_keys.
  pose proof (groupby_sorted month_key data) as S.
  induction S as [|k ks S IH HF]; constructor; [assumption|].
  eapply Forall_impl; [|exact HF]. intros m. unfold key_lt. simpl. apply Z.ltb_lt.
Qed.

(** the value of a month is the mean of the sales of the rows of that month,
    whatever their year *)
Lemma seasonal_content (data : dataset F) (m : Z) (v : F) :
  In (m, v) (seasonal_performance data) ->
  v = mean (map sales_amount (filter (fun r => (month r =? m)%Z) data))
  /\ exists r, In r data /\ month r = m.
Proof.
  unfold seasonal_performance. intros H. apply in_map_iff in H.
  destruct H as ([k rs] & E & Hin). simpl in E. injection E as -> <-.
  pose proof (proj1 (groupby_content month_key data) _ _ Hin) as Hrs.
  pose proof (groupby_nonempty month_key data) as Hne.
  rewrite Forall_forall in Hne. specialize (Hne _ Hin). cbn [snd] in *.
  split; [rewrite Hrs; reflexivity|].
  destruct rs as [|r rs]; [congruence|].
  assert (Hr : In r (rows_of month_key m data)) by (rewrite <- Hrs; left; reflexivity).
  apply (proj1 (rows_of_In month_key m data r)) in Hr.
  destruct Hr as [Hr Hk]. injection Hk as Hk.
  exists r. split; assumption.
Qed.

(** every month of the dataset has its entry *)
Lemma seasonal_covers (data : dataset F) (r : row F) :
  In r data -> exists v, In (month r, v) (seasonal_performance data).
Proof.
  intros Hr.
  pose proof (proj2 (groupby_content month_key data) r (month r) Hr eq_refl) as H.
  rewrite <- seasonal_keys in H. apply in_map_iff in H.
  destruct H as ([m v] & E & Hin). cbn in E. subst m. exists v. exact Hin.
Qed.

Lemma series_get_sorted (s : list (Z * F)) (k : Z) (v : F) :
  StronglySorted Z.lt (map fst s) -> In (k, v) s -> series_get s k = Ok v.
Proof.
  induction s as [|[k0 v0] s IH]; intros S Hin; [destruct Hin|].
  inversion S as [|? ? S' HF]; subst. simpl.
  destruct Hin as [E|Hin].
  - injection E as -> ->. rewrite Z.eqb_refl. reflexivity.
  - rewrite Forall_forall in HF.
    assert (k0 < k)%Z by (apply HF; change k with (fst (k, v)); apply in_map, Hin).
    destruct (Z.eqb_spec k0 k); [lia|]. apply IH; assumption.
Qed.

Lemma is_nan_notna (x : F) : notna x = true -> is_nan x = false.
Proof. unfold is_nan, notna. intros ->. reflexivity. Qed.

Lemma fillna_notna (fill : F) (s : list (Z * F)) :
  Forall (fun kv => notna (snd kv) = true) s ->
  map (fun kv => (fst kv, fillna fill (snd kv))) s = s.
Proof.
  induction 1 as [|[k v] s Hv _ IH]; simpl; [reflexivity|].
  rewrite IH. unfold fillna. simpl in Hv. rewrite (is_nan_notna v Hv). reflexivity.
Qed.

End SeasonalFacts.


Section SeasonClaim.

Import F64 F64Facts Fixtures MoreFixtures.
Local Open Scope float_scope.

Lemma Z_key_le (a b : Z) : a = b \/ key_lt a b -> (a <= b)%Z.
Proof.
  intros [->|H]; [lia|]. unfold key_lt in H. cbn in H. apply Z.ltb_lt in H. lia.
Qed.

(** C9.  The seasonal series holds one entry for each calendar month that
    occurs in the dataset, and no other: the mean of the sales of all the
    rows of that month, over every year (a mean is missing, NaN, when no row
    of the month has its sales).  When the analysis returns, the peak month
    is a month of the series whose mean no other mean exceeds and the low
    month one whose mean no other mean is below, a missing mean counting as
    minus infinity for the peak and as plus infinity for the low; among the
    months that share the extreme value, the one with the smallest month
    number is selected.  The analysis returns as soon as one month has a
    mean. *)
Theorem peak_and_low_season :
  forall data : dataset float,
    (forall r, In r data -> exists v, In (month r, v) (seasonal_performance data))
    /\ (forall m v,
          In (m, v) (seasonal_performance data) ->
          v = mean (map sales_amount (filter (fun r => (month r =? m)%Z) data))
          /\ exists r, In r data /\ month r = m)
    /\ StronglySorted Z.lt (map fst (seasonal_performance data))
    /\ (forall rep,
          time_series_analysis data = Ok rep ->
          exists vp vl,
            In (peak_month rep, vp) (seasonal_performance data)
            /\ In (low_month rep, vl) (seasonal_performance data)
            /\ forall m v,
                 In (m, v) (seasonal_performance data) ->
                 (fillna neg_infinity v <=? fillna neg_infinity vp) = true
                 /\ ((fillna neg_infinity v =? fillna neg_infinity vp) = true ->
                     (peak_month rep <= m)%Z)
                 /\ (fillna infinity vl <=? fillna infinity v) = true
                 /\ ((fillna infinity v =? fillna infinity vl) = true ->
                     (low_month rep <= m)%Z))
    /\ (existsb (fun kv => notna (snd kv)) (seasonal_performance data) = true ->
        exists rep, time_series_analysis data = Ok rep).
Proof.
  intros data.
  pose proof (seasonal_sorted data) as S.
  assert (S' : StronglySorted key_lt (map fst (seasonal_performance data))).
  { rewrite seasonal_keys. exact (groupby_sorted month_key data). }
  split; [intros r; apply seasonal_covers|].
  split; [intros m v; apply seasonal_content|].
  split; [exact S|].
  assert (Hrun : forall peak low,
             idxmax (seasonal_performance data) = Ok peak ->
             idxmin (seasonal_performance data) = Ok low ->
             first_largest (seasonal_performance data) peak ->
             first_smallest (seasonal_performance data) low ->
             exists rep, time_series_analysis data = Ok rep
                         /\ peak_month rep = peak /\ low_month rep = low).
  { intros peak low Ep El (vp & Hp & _) (vl & Hl & _).
    unfold time_series_analysis, bind. rewrite Ep, El.
    rewrite (series_get_sorted _ _ _ S Hp), (series_get_sorted _ _ _ S Hl).
    eexists. split; [reflexivity|]. split; reflexivity. }
  split.
  - intros rep E.
    destruct (existsb (fun kv => notna (snd kv)) (seasonal_performance data)) eqn:Hex.
    + destruct (idxmax_first_largest _ Hex S') as (peak & Ep & Lp).
      destruct (idxmin_first_smallest _ Hex S') as (low & El & Ll).
      destruct (Hrun peak low Ep El Lp Ll) as (rep' & E' & Hpk & Hlw).
      rewrite E in E'. injection E' as <-. rewrite Hpk, Hlw.
      destruct Lp as (vp & Hp & Hmax). destruct Ll as (vl & Hl & Hmin).
      exists vp, vl. split; [exact Hp|]. split; [exact Hl|].
      intros m v H. destruct (Hmax m v H) as [H1 H2]. destruct (Hmin m v H) as [H3 H4].
      split; [exact H1|]. split; [intros He; apply Z_key_le, H2, He|].
      split; [exact H3|]. intros He; apply Z_key_le, H4, He.
    + exfalso. unfold time_series_analysis, idxmax in E.
      destruct (proj2 (idx_extreme_total (fun v best => best <? v) (- infinity)%num
                         "argmax" (seasonal_performance data)) Hex) as [msg Em].
      change (fun v best : float => (best <? v)%num) with (fun v best : float => best <? v) in E.
      rewrite Em in E. discriminate.
  - intros Hex.
    destruct (idxmax_first_largest _ Hex S') as (peak & Ep & Lp).
    destruct (idxmin_first_smallest _ Hex S') as (low & El & Ll).
    destruct (Hrun peak low Ep El Lp Ll) as (rep & E & _). exists rep. exact E.
Qed.

(** in [seasons] January and February tie for the largest mean, 200: the peak
    is January; the low is March *)
Lemma peak_and_low_season_witness :
  seasonal_performance seasons = [(1%Z, 200); (2%Z, 200); (3%Z, 50)]
  /\ exists rep vp vl,
       time_series_analysis seasons = Ok rep
       /\ In (peak_month rep, vp) (seasonal_performance seasons)
       /\ In (low_month rep, vl) (seasonal_performance seasons)
       /\ peak_month rep = 1%Z /\ low_month rep = 3%Z.
Proof.
  split; [reflexivity|].
  destruct (proj2 (proj2 (proj2 (proj2 (peak_and_low_season seasons)))) eq_refl)
    as [rep E].
  destruct (proj1 (proj2 (proj2 (proj2 (peak_and_low_season seasons)))) rep E)
    as (vp & vl & Hp & Hl & _).
  exists rep, vp, vl. split; [exact E|]. split; [exact Hp|]. split; [exact Hl|].
  injection E as <-. split; reflexivity.
Defined.

(** The mean of a month is the compensated sum of its sales over their
    number: the sales 0.1, 0.2 and 0.3 of January average
    0.19999999999999998, below the 0.2 of February, so that February is the
    peak and January the low (adding the three sales from left to right
    would give 0.20000000000000004 and the opposite answer). *)
Lemma seasonal_means_are_compensated :
  seasonal_performance tenths = [(1%Z, 0.19999999999999998); (2%Z, 0.2)]
  /\ ((0.1 + 0.2 + 0.3) / 3 =? 0.20000000000000004) = true
  /\ exists rep,
       time_series_analysis tenths = Ok rep
       /\ peak_month rep = 2%Z /\ low_month rep = 1%Z.
Proof.
  split; [reflexivity|]. split; [reflexivity|].
  eexists. split; [reflexivity|]. split; reflexivity.
Qed.

End SeasonClaim.
(** ** C10: the store count of a region *)

Section StoreCountFacts.

Import F64 Ideal Fixtures MoreFixtures.

Lemma present_In {A : Type} (xs : list (option A)) (a : A) :
  In a (present xs) <-> In (Some a) xs.
Proof.
  unfold present. rewrite in_flat_map. split.
  - intros ([b|] & Hx & Hb); [|destruct Hb].
    destruct Hb as [->|[]]. exact Hx.
  - intros H. exists (Some a). split; [exact H|left; reflexivity].
Qed.

(** the count of distinct values is positive exactly when a value is present *)
Lemma nunique_positive (xs : list (option string)) :
  (1 <= nunique xs)%nat <-> exists s, In (Some s) xs.
Proof.
  unfold nunique. split.
  - intros H. destruct (nodup string_dec (present xs)) as [|s l] eqn:E;
      [cbn in H; lia|].
    exists s. apply present_In, (nodup_In string_dec). rewrite E. left. reflexivity.
  - intros [s Hs]. apply present_In, (nodup_In string_dec) in Hs.
    destruct (nodup string_dec (present xs)); [destruct Hs|cbn; lia].
Qed.

Lemma regional_metrics_row {F : Type} {num : Number F} (data : dataset F) r :
  In r (regional_metrics data) ->
  rows_of region (reg_region (reg_agg r)) data <> []
  /\ reg_store_id (reg_agg r)
     = nunique (map store_id (rows_of region (reg_region (reg_agg r)) data))
  /\ reg_sales_amount (reg_agg r)
     = round 0 (sum (map sales_amount (rows_of region (reg_region (reg_agg r)) data)))
  /\ Sales_Per_Store r
     = round 0 (reg_sales_amount (reg_agg r) / of_nat (reg_store_id (reg_agg r)))%num.
Proof.
  unfold regional_metrics. intros H. apply in_map_iff in H.
  destruct H as ([c rs] & <- & Hin).
  pose proof (proj1 (groupby_content region data) _ _ Hin) as E.
  pose proof (groupby_nonempty region data) as Hne.
  rewrite Forall_forall in Hne. specialize (Hne _ Hin).
  cbn [region_derive region_reduce reg_agg reg_region reg_store_id reg_sales_amount
       Sales_Per_Store fst snd] in *.
  rewrite <- E. repeat split. exact Hne.
Qed.

Lemma store_count_positive {F : Type} {num : Number F} (data : dataset F) r :
  In r (regional_metrics data) ->
  ((1 <= reg_store_id (reg_agg r))%nat
   <-> exists x s, In x data /\ region x = Some (reg_region (reg_agg r))
                   /\ store_id x = Some s).
Proof.
  intros Hr. destruct (regional_metrics_row data r Hr) as (_ & -> & _).
  rewrite nunique_positive. split.
  - intros (s & Hs). apply in_map_iff in Hs. destruct Hs as (x & Hx & Hin).
    apply (proj1 (rows_of_In region _ data x)) in Hin. destruct Hin as [Hin Hk].
    exists x, s. auto.
  - intros (x & s & Hin & Hk & Hs). exists s. rewrite <- Hs. apply in_map.
    apply (proj2 (rows_of_In region _ data x)). auto.
Qed.

(** C10, as the program counts.  Every group of the per-region reduction
    holds at least one row of the dataset.  Its count of distinct stores
    leaves out the rows without a store identifier: the count is at least 1
    exactly when one row of the region has a store identifier, and so for
    every region of a dataset in which no identifier is missing.
    Sales_Per_Store then divides by a positive number, and in exact
    arithmetic the quotient of a finite sales figure is a real number.  The
    margin of the same table can still be undefined: in [closed_stores] the
    East region has Sales_Per_Store 0 and a NaN Profit_Margin. *)
Theorem store_count_of_a_region :
  (forall (data : dataset float) r,
      In r (regional_metrics data) ->
      rows_of region (reg_region (reg_agg r)) data <> []
      /\ reg_store_id (reg_agg r)
         = nunique (map store_id (rows_of region (reg_region (reg_agg r)) data))
      /\ ((1 <= reg_store_id (reg_agg r))%nat
          <-> exists x s, In x data /\ region x = Some (reg_region (reg_agg r))
                          /\ store_id x = Some s)
      /\ Sales_Per_Store r
         = round 0 (reg_sales_amount (reg_agg r)
                    / of_Z (Z.of_nat (reg_store_id (reg_agg r))))%num)
  /\ (forall (data : dataset float) r,
         (forall x, In x data -> store_id x <> None) ->
         In r (regional_metrics data) ->
         (1 <= reg_store_id (reg_agg r))%nat)
  /\ (forall (data : dataset xreal) r s,
         In r (regional_metrics data) ->
         reg_sales_amount (reg_agg r) = Fin s ->
         (1 <= reg_store_id (reg_agg r))%nat ->
         exists q, Sales_Per_Store r = Fin q)
  /\ map (fun r => (reg_region (reg_agg r), reg_store_id (reg_agg r),
                    Sales_Per_Store r, is_nan (Profit_Margin r)))
         (regional_metrics closed_stores)
     = [ ("East"%string, 1%nat, 0%float, true);
         ("North"%string, 1%nat, 300%float, false);
         ("West"%string, 1%nat, 0%float, false) ].
Proof.
  split; [|split; [|split]].
  - intros data r Hr. destruct (regional_metrics_row data r Hr) as (H1 & H2 & _ & H4).
    split; [exact H1|]. split; [exact H2|].
    split; [apply store_count_positive, Hr|exact H4].
  - intros data r Hall Hr.
    destruct (regional_metrics_row data r Hr) as (Hne & _).
    apply (store_count_positive data r Hr).
    destruct (rows_of region (reg_region (reg_agg r)) data) as [|x xs] eqn:E;
      [congruence|].
    assert (Hx : In x (rows_of region (reg_region (reg_agg r)) data))
      by (rewrite E; left; reflexivity).
    apply (proj1 (rows_of_In region _ data x)) in Hx. destruct Hx as [Hx Hk].
    destruct (store_id x) as [s|] eqn:Es; [|destruct (Hall x Hx Es)].
    exists x, s. auto.
  - intros data r s Hr Hs Hn.
    destruct (regional_metrics_row data r Hr) as (_ & _ & _ & ->).
    rewrite Hs. unfold round, of_nat. cbn [Z.eqb rint num_div of_Z exact].
    unfold xdiv.
    destruct (Req_dec_T (IZR (Z.of_nat (reg_store_id (reg_agg r)))) 0) as [E|E].
    + apply eq_IZR in E. lia.
    + eexists. reflexivity.
  - reflexivity.
Qed.

Lemma store_count_of_a_region_witness :
  (1 <= reg_store_id (reg_agg (region_derive (region_reduce ("East"%string, [east_row])))))%nat.
Proof.
  apply (proj1 (proj2 store_count_of_a_region) closed_stores).
  - intros x [<-|[<-|[<-|[]]]]; discriminate.
  - left. reflexivity.
Defined.

(** The rows of the region "West" of [unnamed_region] have no store
    identifier: the group holds one row, its count of distinct stores is 0
    and Sales_Per_Store is 100 / 0, an infinity. *)
Lemma region_without_store_identifiers :
  map (fun g => (fst g, length (snd g))) (groupby region unnamed_region)
  = [("South"%string, 3%nat); ("West"%string, 1%nat)]
  /\ map (fun r => (reg_region (reg_agg r), reg_sales_amount (reg_agg r),
                    reg_store_id (reg_agg r), Sales_Per_Store r))
         (regional_metrics unnamed_region)
     = [ ("South"%string, 100%float, 3%nat, 33%float);
         ("West"%string, 100%float, 0%nat, infinity) ]
  /\ (1 <=? 0)%nat = false.
Proof. repeat split. Qed.

End StoreCountFacts.
(** ** The grouped tables *)

Section IntegerSums.

Local Open Scope Z_scope.









(** two counts of 2^62 add up to 2^63, which wraps to -2^63 *)
Lemma sum_int_wraps_around : sum_int [2 ^ 62; 2 ^ 62] = - 2 ^ 63.
Proof. reflexivity. Qed.

End IntegerSums.

Section GroupedTables.

Context {A K : Type} {key_ops : Key K} {key_laws : KeyLaws K}.
Variable key : A -> option K.

(** the keys of a grouped frame are the keys of its rows *)
Lemma groupby_keys (rows : list A) (k : K) :
  In k (map fst (groupby key rows)) <-> exists r, In r rows /\ key r = Some k.
Proof.
  split.
  - intros H. apply in_map_iff in H. destruct H as ([k' rs] & E & Hin).
    simpl in E. subst k'.
    pose proof (proj1 (groupby_content key rows) _ _ Hin) as Hrs.
    pose proof (groupby_nonempty key rows) as Hne.
    rewrite Forall_forall in Hne. specialize (Hne _ Hin). simpl in Hne.
    destruct rs as [|r rs]; [congruence|].
    assert (Hr : In r (rows_of key k rows)) by (rewrite <- Hrs; left; reflexivity).
    apply (proj1 (rows_of_In key _ rows _)) in Hr. exists r. exact Hr.
  - intros (r & Hr & Hk). apply (proj2 (groupby_content key rows) r k Hr Hk).
Qed.

Lemma groupby_keys_NoDup (rows : list A) : NoDup (map fst (groupby key rows)).
Proof. exact (sorted_keys_NoDup _ (groupby_sorted key rows)). Qed.









End GroupedTables.

Section TableFacts.

Context {F : Type} {num : Number F}.

(** the table that [financial_analysis] returns *)
Lemma chain_performance_table (data : dataset F) (rep : financial_report) :
  financial_analysis data = Ok rep -> chain_performance rep = chain_table data.
Proof.
  destruct data as [|r data]; [discriminate|]. intros E. injection E as <-. reflexivity.
Qed.

Lemma chain_table_keys (data : dataset F) :
  map chain (chain_table data) = map fst (groupby chain_name data).
Proof. unfold chain_table. rewrite map_map. reflexivity. Qed.

Lemma category_table_keys (data : dataset F) :
  map (fun r => cat_category (cat_agg r)) (category_analysis data)
  = map fst (groupby category data).
Proof. unfold category_analysis. rewrite !map_map. reflexivity. Qed.

Lemma region_table_keys (data : dataset F) :
  map (fun r => reg_region (reg_agg r)) (regional_metrics data)
  = map fst (groupby region data).
Proof. unfold regional_metrics. rewrite map_map. reflexivity. Qed.

Lemma tier_table_keys (data : dataset F) :
  map tier_tier (tier_analysis data) = map fst (groupby tier data).
Proof. unfold tier_analysis. rewrite map_map. reflexivity. Qed.

Lemma store_table_keys (data : dataset F) :
  map (fun r => (st_store_id (st_agg r), st_chain_name (st_agg r), st_tier (st_agg r)))
      (store_efficiency data)
  = map fst (groupby store_key data).
Proof.
  unfold store_efficiency. rewrite map_map. apply map_ext.
  intros [[[a b] c] rs]. reflexivity.
Qed.

(** X1.  Every grouped table has exactly one row for each value of its key
    that occurs in the dataset, and no other row; its rows come in strictly
    increasing order of the key (strings compared by code point, the key of
    the per-store table lexicographically), so that no key occurs twice.  A
    row of the dataset whose key is missing (for the per-store table: one of
    whose three key columns is missing) belongs to no group.  This holds for
    the per-chain table that [financial_analysis] returns, the per-category
    table of [category_analysis], the per-region and per-tier tables of
    [regional_analysis] and the per-store table of [operational_analysis]. *)
Theorem grouped_tables_have_one_row_per_key (data : dataset F) :
  (forall rep, financial_analysis data = Ok rep ->
               StronglySorted key_lt (map chain (chain_performance rep))
               /\ forall c, In c (map chain (chain_performance rep))
                            <-> exists r, In r data /\ chain_name r = Some c)
  /\ (StronglySorted key_lt (map (fun r => cat_category (cat_agg r)) (category_analysis data))
      /\ forall c, In c (map (fun r => cat_category (cat_agg r)) (category_analysis data))
                   <-> exists r, In r data /\ category r = Some c)
  /\ (StronglySorted key_lt (map (fun r => reg_region (reg_agg r)) (regional_metrics data))
      /\ forall c, In c (map (fun r => reg_region (reg_agg r)) (regional_metrics data))
                   <-> exists r, In r data /\ region r = Some c)
  /\ (StronglySorted key_lt (map tier_tier (tier_analysis data))
      /\ forall c, In c (map tier_tier (tier_analysis data))
                   <-> exists r, In r data /\ tier r = Some c)
  /\ (StronglySorted key_lt
        (map (fun r => (st_store_id (st_agg r), st_chain_name (st_agg r), st_tier (st_agg r)))
             (store_efficiency data))
      /\ forall k, In k (map (fun r => (st_store_id (st_agg r), st_chain_name (st_agg r),
                                        st_tier (st_agg r)))
                             (store_efficiency data))
                   <-> exists r, In r data
                                 /\ store_id r = Some (fst (fst k))
                                 /\ chain_name r = Some (snd (fst k))
                                 /\ tier r = Some (snd k))
  /\ (data <> [] -> exists rep, financial_analysis data = Ok rep).
Proof.
  rewrite category_table_keys, region_table_keys, tier_table_keys, store_table_keys.
  split.
  { intros rep E. rewrite (chain_performance_table data rep E), chain_table_keys.
    split; [exact (groupby_sorted chain_name data)
           |intros c; exact (groupby_keys chain_name data c)]. }
  split; [split; [exact (groupby_sorted category data)
                 |intros c; exact (groupby_keys category data c)]|].
  split; [split; [exact (groupby_sorted region data)
                 |intros c; exact (groupby_keys region data c)]|].
  split; [split; [exact (groupby_sorted tier data)
                 |intros c; exact (groupby_keys tier data c)]|].
  split.
  - split; [exact (groupby_sorted store_key data)|].
    intros [[s c] t]. rewrite (groupby_keys store_key data (s, c, t)). cbn [fst snd].
    split; intros (r & Hr & Hk); exists r; (split; [exact Hr|]).
    + unfold store_key in Hk.
      destruct (store_id r), (chain_name r), (tier r); try discriminate.
      injection Hk as -> -> ->. auto.
    + destruct Hk as (H1 & H2 & H3). unfold store_key. rewrite H1, H2, H3. reflexivity.
  - intros H. destruct data as [|r data]; [congruence|]. eexists. reflexivity.
Qed.



(** X4.  The "Time Periods" figure of [data_quality_check] is the number of
    distinct (year, month) pairs of the dataset; it is the number of rows of
    the monthly table of [time_series_analysis], and at most the number of
    rows of the dataset. *)
Theorem time_periods_counts_distinct_months (data : dataset F) :
  time_periods (data_quality_check data) = length (distinct_periods data)
  /\ time_periods (data_quality_check data) = length (monthly_trends data)
  /\ (time_periods (data_quality_check data) <= length data)%nat.
Proof.
  cbn [data_quality_check time_periods].
  assert (E : length (groupby period_key data) = length (distinct_periods data)).
  { rewrite <- (length_map fst). apply Permutation_length.
    apply NoDup_Permutation.
    - apply groupby_keys_NoDup.
    - apply NoDup_nodup.
    - intros k. rewrite groupby_keys. unfold distinct_periods. rewrite nodup_In, in_map_iff.
      unfold period_key.
      split; intros (r & H1 & H2); exists r; split; congruence || auto. }
  split; [exact E|]. split.
  - rewrite <- (length_map mt_agg (monthly_trends data)), monthly_trends_agg, length_map.
    reflexivity.
  - rewrite E. unfold distinct_periods.
    rewrite <- (length_map (fun r : row F => (year r, month r)) data).
    apply NoDup_incl_length; [apply NoDup_nodup|].
    intros x Hx. eapply nodup_In. exact Hx.
Qed.

End TableFacts.

(** ** The marks of the printed lines, and growth after a month without sales *)

Section GrowthFilled.

Context {F : Type} {num : Number F}.
Local Open Scope num_scope.

Lemma tail_incl {A : Type} (n : nat) (l : list A) : incl (tail n l) l.
Proof.
  unfold tail. intros x Hx.
  rewrite <- (firstn_skipn (length l - n) l). apply in_or_app. right. exact Hx.
Qed.

(** filling forward leaves a value that is present where it is *)
Lemma ffill_from_nth (last : F) (xs : list F) (i : nat) (a : F) :
  nth_error xs i = Some a -> notna a = true ->
  nth_error (ffill_from last xs) i = Some a.
Proof.
  revert last i. induction xs as [|x xs IH]; intros last i Hi Ha.
  - destruct i; discriminate.
  - destruct i as [|i]; simpl in *.
    + injection Hi as ->. unfold is_nan. unfold notna in Ha. rewrite Ha. reflexivity.
    + destruct (is_nan x); simpl; apply IH; assumption.
Qed.

(** each growth is computed from the filled column *)
Lemma growth_next_filled (xs : list F) (i : nat) (a b : F) :
  nth_error (ffill xs) i = Some a ->
  nth_error (ffill xs) (S i) = Some b ->
  nth_error (growth xs) (S i) = Some ((b / a - of_Z 1) * of_Z 100).
Proof.
  intros Ha Hb. unfold growth, pct_change.
  destruct (ffill xs) as [|x ys]; [discriminate|].
  unfold shift. cbn [combine map nth_error].
  rewrite !nth_error_map.
  rewrite (combine_removelast x ys i a b Ha Hb). reflexivity.
Qed.

End GrowthFilled.

Section MarkFacts.

Import F64 F64Facts Fixtures MoreFixtures.
Local Open Scope float_scope.

Lemma ltb_trans x y z : (x <? y) = true -> (y <? z) = true -> (x <? z) = true.
Proof. intros H1 H2. eapply ltb_leb_trans; [exact H1|apply ltb_leb, H2]. Qed.

Lemma profit_status_spec (m : float) :
  (profit_status m = "✅"%string <-> (5 <? m) = true)
  /\ (profit_status m = "⚠️"%string <-> (0 <? m) = true /\ (m <=? 5) = true)
  /\ (profit_status m = "❌"%string <-> (m <=? 0) = true \/ is_nan m = true).
Proof.
  unfold profit_status.
  change (of_Z 5 <? m)%num with (5 <? m).
  change (of_Z 0 <? m)%num with (0 <? m).
  destruct (5 <? m) eqn:H5.
  - pose proof (ltb_asym _ _ H5) as L5.
    assert (H0 : (0 <? m) = true) by (eapply ltb_trans; [|exact H5]; reflexivity).
    pose proof (ltb_asym _ _ H0) as L0.
    pose proof (proj2 (ltb_notna _ _ H5)) as N.
    unfold is_nan. change (m =? m)%num with (m =? m). rewrite N, L0, L5.
    repeat split; try discriminate; try tauto.
    all: intros; intuition discriminate.
  - destruct (0 <? m) eqn:H0.
    + pose proof (ltb_asym _ _ H0) as L0.
      pose proof (proj2 (ltb_notna _ _ H0)) as N.
      assert (L5 : (m <=? 5) = true) by (apply leb_total; [reflexivity|exact N|exact H5]).
      unfold is_nan. change (m =? m)%num with (m =? m). rewrite N, L0, L5.
      repeat split; try discriminate; try tauto.
      all: intros; intuition discriminate.
    + unfold is_nan. change (m =? m)%num with (m =? m).
      destruct (m =? m) eqn:N.
      * assert (L0 : (m <=? 0) = true) by (apply leb_total; [reflexivity|exact N|exact H0]).
        rewrite L0. repeat split; try discriminate; try tauto.
        all: intros; intuition discriminate.
      * repeat split; try discriminate; try tauto.
        all: intros; intuition discriminate.
Qed.

Lemma growth_indicator_spec (g : float) :
  (growth_indicator g = "📈"%string <-> (0 <? g) = true)
  /\ (growth_indicator g = "📉"%string <-> (g <? -5) = true)
  /\ (growth_indicator g = "📊"%string
      <-> ((-5 <=? g) = true /\ (g <=? 0) = true) \/ is_nan g = true).
Proof.
  unfold growth_indicator.
  change (of_Z 0 <? g)%num with (0 <? g).
  change (g <? - of_Z 5)%num with (g <? -5).
  unfold is_nan. change (g =? g)%num with (g =? g).
  destruct (0 <? g) eqn:H0.
  - pose proof (ltb_asym _ _ H0) as L0.
    pose proof (proj2 (ltb_notna _ _ H0)) as N.
    assert (H5 : (g <? -5) = false).
    { destruct (g <? -5) eqn:E; [|reflexivity].
      assert (C : (0 <? -5) = true) by (eapply ltb_trans; eassumption).
      discriminate C. }
    rewrite N, L0, H5.
    repeat split; try discriminate; try tauto.
    all: intros; intuition discriminate.
  - destruct (g <? -5) eqn:H5.
    + pose proof (ltb_asym _ _ H5) as L5.
      pose proof (proj1 (ltb_notna _ _ H5)) as N.
      rewrite N, L5.
      repeat split; try discriminate; try tauto.
      all: intros; intuition discriminate.
    + destruct (g =? g) eqn:N.
      * assert (L0 : (g <=? 0) = true) by (apply leb_total; [reflexivity|exact N|exact H0]).
        assert (L5 : (-5 <=? g) = true) by (apply leb_total; [exact N|reflexivity|exact H5]).
        rewrite L0, L5.
        repeat split; try discriminate; try tauto.
        all: intros; intuition discriminate.
      * repeat split; try discriminate; try tauto.
        all: intros; intuition discriminate.
Qed.

(** the first entry of a column of growths is NaN: there is no month before *)
Lemma growth_hd_nan (xs : list float) (v : float) :
  hd_error (growth xs) = Some v -> v = PrimFloat.nan.
Proof.
  unfold growth, pct_change, ffill.
  destruct (ffill_from PrimFloat.nan xs) as [|y ys] eqn:E.
  - change (@nan float binary64) with PrimFloat.nan. rewrite E. discriminate.
  - change (@nan float binary64) with PrimFloat.nan. rewrite E.
    cbn [shift combine map hd_error fst snd]. intros H. injection H as <-.
    change (y / @nan float binary64)%num with (y / PrimFloat.nan).
    rewrite div_nan. reflexivity.
Qed.

Lemma monthly_trends_first_growth (data : dataset float) (r : month_row) :
  hd_error (monthly_trends data) = Some r -> sales_growth r = PrimFloat.nan.
Proof.
  intros H.
  apply (growth_hd_nan (map (fun r => mt_sales_amount (mt_agg r)) (monthly_trends data))).
  rewrite <- monthly_trends_growth.
  destruct (monthly_trends data) as [|r0 rs]; [discriminate|].
  injection H as ->. reflexivity.
Qed.

(** a growth over a month whose sales are zero *)
Lemma growth_over_zero (a b : float) :
  (a =? 0) = true -> is_finite ((b / a - 1) * 100) = false.
Proof.
  intros H. destruct (div_zero b a H) as [-> | [-> | ->]]; reflexivity.
Qed.

(** X5.  Each line of the category report (lines 100-102) carries the mean
    net margin of the rows of its category, rounded to 2 decimals, and a mark
    decided by that rounded value [m] alone: the check mark exactly when
    [m > 5]; the warning sign exactly when [0 < m <= 5]; the cross exactly
    when [m <= 0] or [m] is NaN.  A category whose margin is missing is thus
    marked like a loss-making one. *)
Theorem category_marks (data : dataset float) (mark c : string) (share m : float) :
  In (mark, c, share, m) (category_lines data) ->
  m = round 2 (mean (map net_margin_pct (rows_of category c data)))
  /\ (mark = "✅"%string <-> (5 <? m) = true)
  /\ (mark = "⚠️"%string <-> (0 <? m) = true /\ (m <=? 5) = true)
  /\ (mark = "❌"%string <-> (m <=? 0) = true \/ is_nan m = true).
Proof.
  unfold category_lines, category_analysis. rewrite !map_map. cbn.
  intros H. apply in_map_iff in H. destruct H as ([k rs] & E & Hin).
  cbn in E. injection E as <- <- _ <-.
  rewrite <- (proj1 (groupby_content category data) _ _ Hin).
  split; [reflexivity|]. apply profit_status_spec.
Qed.

Lemma category_marks_witness :
  5 = round 2 (mean (map net_margin_pct (rows_of category "Fashion" chain_A)))
  /\ ("⚠️"%string = "✅"%string <-> (5 <? 5) = true)
  /\ ("⚠️"%string = "⚠️"%string <-> (0 <? 5) = true /\ (5 <=? 5) = true)
  /\ ("⚠️"%string = "❌"%string <-> (5 <=? 0) = true \/ is_nan 5 = true).
Proof.
  apply (category_marks chain_A "⚠️" "Fashion" 50 5).
  left. reflexivity.
Defined.

(** X6.  Each line of the "Recent Performance" report (lines 160-163) is a
    month of the monthly table, marked by its growth of sales [g] alone: the
    rising chart exactly when [g > 0]; the falling chart exactly when
    [g < -5]; the bar chart exactly when [-5 <= g <= 0] or [g] is NaN, so a
    decline of up to 5% is shown like no change.  The first month of the
    monthly table has a NaN growth, whatever the data, and is marked with the
    bar chart. *)
Theorem growth_marks (data : dataset float) :
  (forall mark label, In (mark, label) (recent_indicators data) ->
     exists r, In r (monthly_trends data) /\ label = month_year r
       /\ (mark = "📈"%string <-> (0 <? sales_growth r) = true)
       /\ (mark = "📉"%string <-> (sales_growth r <? -5) = true)
       /\ (mark = "📊"%string
           <-> ((-5 <=? sales_growth r) = true /\ (sales_growth r <=? 0) = true)
               \/ is_nan (sales_growth r) = true))
  /\ (forall r, hd_error (monthly_trends data) = Some r ->
        sales_growth r = PrimFloat.nan
        /\ growth_indicator (sales_growth r) = "📊"%string).
Proof.
  split.
  - intros mark label H. unfold recent_indicators in H.
    apply in_map_iff in H. destruct H as (r & E & Hin). injection E as <- <-.
    exists r. split; [apply (tail_incl 6), Hin|]. split; [reflexivity|].
    apply growth_indicator_spec.
  - intros r H. rewrite (monthly_trends_first_growth data r H). split; reflexivity.
Qed.

Lemma growth_marks_witness :
  exists r, In r (monthly_trends two_months) /\ "2023-02"%string = month_year r
    /\ ("📈"%string = "📈"%string <-> (0 <? sales_growth r) = true)
    /\ ("📈"%string = "📉"%string <-> (sales_growth r <? -5) = true)
    /\ ("📈"%string = "📊"%string
        <-> ((-5 <=? sales_growth r) = true /\ (sales_growth r <=? 0) = true)
            \/ is_nan (sales_growth r) = true).
Proof.
  apply (proj1 (growth_marks two_months) "📈" "2023-02").
  right. left. reflexivity.
Defined.

(** X7.  When the sales of a month of the monthly table are zero, the growth
    of sales of the next month is not a finite number (it is NaN or an
    infinity): the division by the zero of the month before raises nothing
    and is not replaced by a number.  This holds whatever the other months
    are, missing monthly sums included. *)
Theorem growth_after_a_month_without_sales
        (data : dataset float) (i : nat) (r1 r2 : month_row) :
  nth_error (monthly_trends data) i = Some r1 ->
  nth_error (monthly_trends data) (S i) = Some r2 ->
  (mt_sales_amount (mt_agg r1) =? 0) = true ->
  is_finite (sales_growth r2) = false.
Proof.
  intros H1 H2 Hz.
  set (xs := map (fun r => mt_sales_amount (mt_agg r)) (monthly_trends data)).
  assert (Ha : nth_error (ffill xs) i = Some (mt_sales_amount (mt_agg r1))).
  { apply ffill_from_nth.
    - unfold xs. rewrite nth_error_map, H1. reflexivity.
    - apply (proj1 (eqb_notna _ _ Hz)). }
  assert (Hb : exists b, nth_error (ffill xs) (S i) = Some b).
  { destruct (nth_error (ffill xs) (S i)) as [b|] eqn:E; [eexists; reflexivity|].
    apply nth_error_None in E. unfold ffill in E.
    rewrite ffill_from_length in E. unfold xs in E. rewrite length_map in E.
    assert (S i < length (monthly_trends data))%nat
      by (apply nth_error_Some; congruence).
    lia. }
  destruct Hb as [b Hb].
  pose proof (growth_next_filled xs i _ b Ha Hb) as G.
  unfold xs in G. rewrite <- monthly_trends_growth in G.
  rewrite nth_error_map, H2 in G. cbn in G. injection G as ->.
  apply (growth_over_zero _ b Hz).
Qed.

Lemma growth_after_a_month_without_sales_witness :
  exists r2, nth_error (monthly_trends opening) 1 = Some r2
             /\ is_finite (sales_growth r2) = false.
Proof.
  eexists. split; [reflexivity|].
  eapply (growth_after_a_month_without_sales opening 0); reflexivity.
Defined.

(** X8.  A store of the per-store table whose customers sum to zero has a
    sales_per_customer that is not a finite number (NaN or an infinity), and
    not 0: the division of line 190 by the zero count raises nothing. *)
Theorem sales_per_customer_without_customers (data : dataset float) (r : store_row) :
  In r (store_efficiency data) ->
  st_customer_count (st_agg r) = 0%Z ->
  is_finite (sales_per_customer r) = false
  /\ (sales_per_customer r =? 0) = false.
Proof.
  unfold store_efficiency. intros H Hc. apply in_map_iff in H.
  destruct H as (g & <- & _).
  cbn [store_derive store_reduce st_agg st_customer_count sales_per_customer
       st_sales_amount] in Hc |- *.
  rewrite Hc.
  generalize (sum (map sales_amount (snd g))). intros s.
  change (s / of_Z 0)%num with (s / 0).
  destruct (div_zero s 0 eq_refl) as [E | [E | E]];
    rewrite E; split; reflexivity.
Qed.

Lemma sales_per_customer_without_customers_witness :
  exists r, In r (store_efficiency uncounted)
            /\ is_finite (sales_per_customer r) = false
            /\ (sales_per_customer r =? 0) = false.
Proof.
  eexists. split; [left; reflexivity|].
  eapply (sales_per_customer_without_customers uncounted); [left|]; reflexivity.
Defined.

End MarkFacts.

(** ** Peak season and best performers *)

Section SeriesGet.

Context {F : Type} {num : Number F}.



End SeriesGet.

Section SeasonWitness.

Import F64 Fixtures.


End SeasonWitness.

Section SummaryTheorem.

Import F64 F64Facts Fixtures.
Local Open Scope float_scope.

Lemma margin_by_keys (key : row float -> option string) (data : dataset float) :
  map fst (margin_by key data) = map fst (groupby key data).
Proof. unfold margin_by. rewrite map_map. reflexivity. Qed.

Lemma margin_by_content (key : row float -> option string) (data : dataset float) k v :
  In (k, v) (margin_by key data) ->
  v = mean (map net_margin_pct (rows_of key k data)).
Proof.
  unfold margin_by. intros H. apply in_map_iff in H.
  destruct H as ([k' rs] & E & Hin). cbn in E. injection E as -> <-.
  rewrite (proj1 (groupby_content key data) _ _ Hin). reflexivity.
Qed.

Lemma margin_by_idxmax (key : row float -> option string) (data : dataset float) :
  existsb (fun kv => notna (snd kv)) (margin_by key data) = true ->
  exists k, idxmax (margin_by key data) = Ok k /\ first_largest (margin_by key data) k.
Proof.
  intros H. apply idxmax_first_largest; [exact H|].
  rewrite margin_by_keys. exact (groupby_sorted key data).
Qed.

(** X10.  [generate_executive_summary] names as best chain, most profitable
    category and leading region the group with the largest mean net margin
    (the mean of the margins of the rows of the group), a missing mean
    counting as minus infinity; among groups that tie, the one whose name
    comes first in the order of the groups.  It returns normally when each
    of the three series of means has a value that is present; on a dataset
    without rows it raises [ZeroDivisionError], at the division of line 340.
    Its overall margin is the one that [financial_analysis] prints and its
    number of stores the one of [data_quality_check]. *)
Theorem executive_summary_names_the_first_largest (data : dataset float) :
  (existsb (fun kv => notna (snd kv)) (margin_by chain_name data) = true ->
   existsb (fun kv => notna (snd kv)) (margin_by category data) = true ->
   existsb (fun kv => notna (snd kv)) (margin_by region data) = true ->
   exists s rep,
     generate_executive_summary data = Ok s
     /\ first_largest (margin_by chain_name data) (best_chain s)
     /\ first_largest (margin_by category data) (best_category s)
     /\ first_largest (margin_by region data) (best_region s)
     /\ financial_analysis data = Ok rep
     /\ es_overall_margin s = overall_margin rep
     /\ es_stores_analyzed s = stores_analyzed (data_quality_check data))
  /\ (data = [] ->
      exists msg, generate_executive_summary data = Raise (ZeroDivisionError msg))
  /\ (forall key k v, In (k, v) (margin_by key data) ->
                      v = mean (map net_margin_pct (rows_of key k data))).
Proof.
  split; [|split].
  - intros H1 H2 H3. unfold generate_executive_summary.
    destruct (margin_by_idxmax chain_name data H1) as (k1 & E1 & L1).
    destruct (margin_by_idxmax category data H2) as (k2 & E2 & L2).
    destruct (margin_by_idxmax region data H3) as (k3 & E3 & L3).
    destruct data as [|r0 data]; [discriminate H1|].
    cbn [bind]. rewrite E1, E2, E3. cbn [bind].
    eexists _, _. split; [reflexivity|]. cbn. repeat split; assumption.
  - intros ->. eexists. reflexivity.
  - intros key k v. apply margin_by_content.
Qed.

Lemma executive_summary_witness :
  exists s rep,
    generate_executive_summary chain_A = Ok s
    /\ first_largest (margin_by chain_name chain_A) (best_chain s)
    /\ first_largest (margin_by category chain_A) (best_category s)
    /\ first_largest (margin_by region chain_A) (best_region s)
    /\ financial_analysis chain_A = Ok rep
    /\ es_overall_margin s = overall_margin rep
    /\ es_stores_analyzed s = stores_analyzed (data_quality_check chain_A).
Proof.
  apply (proj1 (executive_summary_names_the_first_largest chain_A)); reflexivity.
Defined.

End SummaryTheorem.

(** ** The correlation matrix in exact arithmetic *)

Section PearsonFacts.

Import Ideal IdealFacts.
Local Open Scope R_scope.

Lemma welford_inv_init : welford_inv [] welford_init.
Proof.
  split; [reflexivity|]. exists 0, 0, 0, 0, 0. cbn.
  repeat split; try reflexivity; unfold Rsum; simpl; lra.
Qed.

Lemma Rsum_snoc {A : Type} (f : A -> R) (l : list A) (p : A) :
  Rsum (map f (l ++ [p])) = Rsum (map f l) + f p.
Proof. rewrite map_app, Rsum_app. unfold Rsum at 2. simpl. lra. Qed.

Lemma welford_inv_step (l : list (R * R)) (st : welford) (x y : R) :
  welford_inv l st ->
  welford_inv (l ++ [(x, y)]) (welford_step st (Fin x, Fin y)).
Proof.
  intros (Hn & mx & my & sx & sy & c & Hmx & Hmy & Hsx & Hsy & Hc
          & Ex & Ey & Exx & Eyy & Exy).
  unfold welford_step. cbn [is_finite num_abs num_ltb infinity exact xabs xltb andb].
  rewrite Hmx, Hmy, Hsx, Hsy, Hc, Hn.
  set (n := (Z.of_nat (length l) + 1)%Z).
  assert (En : IZR n = INR (length l) + 1).
  { unfold n. rewrite plus_IZR, <- INR_IZR_INZ. reflexivity. }
  assert (Hn0 : 0 <= INR (length l)) by apply pos_INR.
  cbn [num_add num_sub num_mul num_div of_Z exact nobs meanx meany ssqdm_x ssqdm_y covxy].
  unfold xsub, xadd, xmul, xdiv, xopp.
  destruct (Req_dec_T (IZR n) 0) as [E|NE]; [lra|].
  split; [cbn [nobs]; rewrite length_app; cbn [length]; lia|].
  eexists _, _, _, _, _. cbn [meanx meany ssqdm_x ssqdm_y covxy].
  do 5 (split; [reflexivity|]).
  rewrite !Rsum_snoc, Ex, Ey, Exx, Eyy, Exy.
  rewrite length_app. cbn [length fst snd]. rewrite Nat.add_1_r, S_INR.
  rewrite En in *. set (k := INR (length l)) in *.
  repeat split; field; lra.
Qed.

Lemma welford_inv_fold (xs ys : list xreal) :
  forall (l : list (R * R)) (st : welford),
    welford_inv l st ->
    welford_inv (l ++ finite_pairs xs ys)
                (fold_left welford_step (combine xs ys) st).
Proof.
  unfold finite_pairs.
  induction (combine xs ys) as [|[x y] ps IH]; intros l st H.
  - cbn. rewrite app_nil_r. exact H.
  - cbn [fold_left flat_map].
    destruct x as [rx| | |], y as [ry| | |];
      try (apply (IH l st H)).
    cbn [app]. change ((rx, ry) :: flat_map _ ps) with ([(rx, ry)] ++ flat_map
      (fun p : xreal * xreal => match p with
                     | (Fin x, Fin y) => [(x, y)]
                     | _ => []
                     end) ps).
    rewrite app_assoc. apply IH, welford_inv_step, H.
Qed.

(** sums of products of deviations from any two centres *)
Lemma Rsum_deviations {A : Type} (f g : A -> R) (a b : R) (l : list A) :
  Rsum (map (fun p => (f p - a) * (g p - b)) l)
  = Rsum (map (fun p => f p * g p) l) - a * Rsum (map g l) - b * Rsum (map f l)
    + INR (length l) * a * b.
Proof.
  induction l as [|p l IH]; [unfold Rsum; simpl; lra|].
  cbn [map length]. rewrite S_INR. unfold Rsum in *. cbn [fold_right].
  rewrite IH. ring.
Qed.

Lemma Rsum_squares_nonneg {A : Type} (f : A -> R) (l : list A) :
  0 <= Rsum (map (fun p => f p * f p) l).
Proof.
  induction l as [|p l IH]; [unfold Rsum; simpl; lra|].
  unfold Rsum in *. cbn [map fold_right]. nra.
Qed.

Lemma Rsum_quadratic {A : Type} (f g : A -> R) (t : R) (l : list A) :
  Rsum (map (fun p => (f p * t + g p) * (f p * t + g p)) l)
  = Rsum (map (fun p => f p * f p) l) * t * t
    + 2 * Rsum (map (fun p => f p * g p) l) * t
    + Rsum (map (fun p => g p * g p) l).
Proof.
  induction l as [|p l IH]; [unfold Rsum; simpl; lra|].
  unfold Rsum in *. cbn [map fold_right]. rewrite IH. ring.
Qed.

(** the inequality of Cauchy and Schwarz *)
Lemma Rsum_cauchy_schwarz {A : Type} (f g : A -> R) (l : list A) :
  Rsum (map (fun p => f p * g p) l) * Rsum (map (fun p => f p * g p) l)
  <= Rsum (map (fun p => f p * f p) l) * Rsum (map (fun p => g p * g p) l).
Proof.
  set (a := Rsum (map (fun p => f p * f p) l)).
  set (b := Rsum (map (fun p => f p * g p) l)).
  set (c := Rsum (map (fun p => g p * g p) l)).
  assert (Ha : 0 <= a) by apply Rsum_squares_nonneg.
  assert (Hc : 0 <= c) by apply Rsum_squares_nonneg.
  assert (Hq : forall t, 0 <= a * t * t + 2 * b * t + c).
  { intros t. unfold a, b, c. rewrite <- Rsum_quadratic.
    apply (Rsum_squares_nonneg (fun p => f p * t + g p)). }
  destruct (Req_dec_T a 0) as [E|NE].
  - assert (b = 0).
    { destruct (Req_dec_T b 0) as [|Hb]; [assumption|exfalso].
      pose proof (Hq (- (c + 1) / (2 * b))) as H. rewrite E in H.
      assert (2 * b * (- (c + 1) / (2 * b)) = - (c + 1)) by (field; assumption).
      lra. }
    subst b. rewrite H, E. lra.
  - assert (0 < a) by lra.
    pose proof (Hq (- b / a)) as H0.
    assert (E : a * (- b / a) * (- b / a) + 2 * b * (- b / a) + c = (a * c - b * b) / a)
      by (field; assumption).
    rewrite E in H0.
    assert (0 <= (a * c - b * b) / a * a) by nra.
    assert ((a * c - b * b) / a * a = a * c - b * b) by (field; assumption).
    lra.
Qed.

Lemma Rmean_of_product (n m s : R) : 0 < n -> s = n * m -> s / n = m.
Proof. intros Hn ->. field. lra. Qed.

Lemma clip_unit_inside (r : R) : -1 <= r <= 1 -> clip_unit (Fin r) = Fin r.
Proof.
  intros H. unfold clip_unit. cbn [num_ltb num_opp of_Z exact]. unfold xltb, xopp.
  xreal_cases; try lra; reflexivity.
Qed.

(** the entry that [nancorr] computes for two columns is Pearson's
    coefficient of the rows in which both are real *)
Lemma nancorr_pair_pearson (xs ys : list xreal) :
  nancorr_pair xs ys = pearson (finite_pairs xs ys).
Proof.
  destruct (welford_inv_fold xs ys [] welford_init welford_inv_init)
    as (Hn & mx & my & sx & sy & c & _ & _ & Hsx & Hsy & Hc & Ex & Ey & Exx & Eyy & Exy).
  cbn [app] in *. set (l := finite_pairs xs ys) in *.
  unfold nancorr_pair. rewrite Hn, Hsx, Hsy, Hc.
  destruct l as [|p0 l0] eqn:El.
  - cbn. unfold pearson, codeviation. cbn. unfold Rsum. cbn.
    destruct (Req_dec_T (0 * 0) 0) as [_|NE]; [reflexivity|lra].
  - rewrite <- El in *.
    assert (Hlen : 0 < INR (length l)).
    { rewrite El. cbn [length]. rewrite S_INR. pose proof (pos_INR (length l0)). lra. }
    assert (Hz : (Z.of_nat (length l) <? 1)%Z = false).
    { apply Z.ltb_ge. rewrite El. cbn [length]. lia. }
    rewrite Hz.
    assert (Mx : Rmean (map fst l) = mx).
    { unfold Rmean. rewrite length_map. apply Rmean_of_product; assumption. }
    assert (My : Rmean (map snd l) = my).
    { unfold Rmean. rewrite length_map. apply Rmean_of_product; assumption. }
    assert (Cxx : codeviation fst fst l = sx).
    { unfold codeviation. rewrite Mx, Rsum_deviations, Exx, Ex. ring. }
    assert (Cyy : codeviation snd snd l = sy).
    { unfold codeviation. rewrite My, Rsum_deviations, Eyy, Ey. ring. }
    assert (Cxy : codeviation fst snd l = c).
    { unfold codeviation. rewrite Mx, My, Rsum_deviations, Exy, Ex, Ey. ring. }
    assert (Psx : 0 <= sx).
    { rewrite <- Cxx. unfold codeviation.
      apply (Rsum_squares_nonneg (fun p => fst p - Rmean (map fst l))). }
    assert (Psy : 0 <= sy).
    { rewrite <- Cyy. unfold codeviation.
      apply (Rsum_squares_nonneg (fun p => snd p - Rmean (map snd l))). }
    assert (CS : c * c <= sx * sy).
    { rewrite <- Cxx, <- Cyy, <- Cxy. unfold codeviation.
      apply (Rsum_cauchy_schwarz (fun p => fst p - Rmean (map fst l))
                                 (fun p => snd p - Rmean (map snd l))). }
    unfold pearson. rewrite Cxx, Cyy, Cxy.
    cbn [num_mul num_sqrt num_eqb num_div of_Z nan exact].
    unfold xmul, xsqrt, xeqb.
    assert (Hp : 0 <= sx * sy) by nra.
    destruct (Rlt_dec (sx * sy) 0) as [C|_]; [lra|].
    destruct (Req_dec_T (sx * sy) 0) as [E0|NE0].
    + rewrite E0, sqrt_0.
      destruct (Req_dec_T 0 0) as [_|NE]; [reflexivity|lra].
    + assert (Hs : 0 < sqrt (sx * sy)) by (apply sqrt_lt_R0; lra).
      destruct (Req_dec_T (sqrt (sx * sy)) 0) as [E|_]; [lra|].
      cbn [negb]. unfold xdiv.
      destruct (Req_dec_T (sqrt (sx * sy)) 0) as [E|_]; [lra|].
      apply clip_unit_inside.
      pose proof (sqrt_sqrt (sx * sy) Hp) as Hsq.
      set (s := sqrt (sx * sy)) in *.
      assert (Hr : c / s * s = c) by (field; lra).
      set (r := c / s) in *.
      assert (r * r * (s * s) <= s * s) by (rewrite Hsq; nra).
      assert (0 < s * s) by nra.
      assert (r * r <= 1) by nra.
      split; nra.
Qed.

End PearsonFacts.

Section PearsonMatrix.

Import Ideal IdealFacts.
Local Open Scope R_scope.

Lemma finite_pairs_swap (xs ys : list xreal) :
  finite_pairs ys xs = map (fun p => (snd p, fst p)) (finite_pairs xs ys).
Proof.
  unfold finite_pairs. revert ys.
  induction xs as [|x xs IH]; intros [|y ys]; try reflexivity.
  cbn [combine flat_map]. rewrite map_app, IH.
  destruct x, y; reflexivity.
Qed.

Lemma codeviation_map {A B : Type} (h : A -> B) (f g : B -> R) (l : list A) :
  codeviation f g (map h l) = codeviation (fun p => f (h p)) (fun p => g (h p)) l.
Proof. unfold codeviation. rewrite !map_map. reflexivity. Qed.

Lemma codeviation_comm {A : Type} (f g : A -> R) (l : list A) :
  codeviation f g l = codeviation g f l.
Proof.
  unfold codeviation. f_equal. apply map_ext. intros p. ring.
Qed.

Lemma pearson_swap (l : list (R * R)) :
  pearson (map (fun p => (snd p, fst p)) l) = pearson l.
Proof.
  unfold pearson. rewrite !codeviation_map. cbn [fst snd].
  change (fun p : R * R => snd p) with (@snd R R).
  change (fun p : R * R => fst p) with (@fst R R).
  rewrite (codeviation_comm snd fst l), (Rmult_comm (codeviation snd snd l)).
  reflexivity.
Qed.

Lemma corr_entry_pearson (cols : list (list xreal)) (i j : nat) :
  corr_entry cols i j = pearson (finite_pairs (nth i cols []) (nth j cols [])).
Proof.
  unfold corr_entry. rewrite nancorr_pair_pearson.
  destruct (Nat.le_ge_cases i j) as [H|H].
  - rewrite (Nat.max_r _ _ H), (Nat.min_l _ _ H), finite_pairs_swap. apply pearson_swap.
  - rewrite (Nat.max_l _ _ H), (Nat.min_r _ _ H). reflexivity.
Qed.

Lemma finite_pairs_nil_l (ys : list xreal) : finite_pairs [] ys = [].
Proof. reflexivity. Qed.

Lemma finite_pairs_nil_r (xs : list xreal) : finite_pairs xs [] = [].
Proof. unfold finite_pairs. destruct xs; reflexivity. Qed.

Lemma pearson_nil : pearson [] = NaN.
Proof.
  unfold pearson, codeviation. cbn. unfold Rsum. cbn.
  destruct (Req_dec_T (0 * 0) 0) as [_|NE]; [reflexivity|lra].
Qed.

(** X11.  In exact arithmetic every entry of the correlation matrix is
    Pearson's coefficient of its two columns, taken over the rows in which
    both values are real numbers: the sum of the products of the deviations
    from the two means, over the square root of the product of the two sums
    of squared deviations.  The entry is NaN exactly when that product is
    zero, that is when there is no such row or one of the two columns does
    not vary over them.  Welford's recurrence and the clipping to [-1, 1]
    change nothing: by the inequality of Cauchy and Schwarz the coefficient
    already lies in [-1, 1]. *)
Theorem correlation_matrix_is_pearson (data : dataset xreal) (i j : nat) :
  iloc (correlation_matrix data) i j
  = pearson (finite_pairs (nth i (numeric_frame data) []) (nth j (numeric_frame data) [])).
Proof.
  unfold correlation_matrix. rewrite iloc_corr, numeric_frame_length.
  destruct (Nat.ltb_spec i 6) as [Hi|Hi]; cbn [andb].
  - destruct (Nat.ltb_spec j 6) as [Hj|Hj].
    + apply corr_entry_pearson.
    + rewrite (nth_overflow (numeric_frame data) [] (n := j))
        by (rewrite numeric_frame_length; exact Hj).
      rewrite finite_pairs_nil_r, pearson_nil. reflexivity.
  - rewrite (nth_overflow (numeric_frame data) [] (n := i))
      by (rewrite numeric_frame_length; exact Hi).
    rewrite finite_pairs_nil_l, pearson_nil. reflexivity.
Qed.

Lemma Rsum_squares_zero {A : Type} (f : A -> R) (l : list A) :
  Rsum (map (fun p => f p * f p) l) = 0 -> forall p, In p l -> f p = 0.
Proof.
  induction l as [|q l IH]; intros H p Hp; [destruct Hp|].
  unfold Rsum in *. cbn [map fold_right] in H.
  pose proof (Rsum_squares_nonneg f l) as Hl. unfold Rsum in Hl.
  assert (Hq : 0 <= f q * f q) by nra.
  destruct Hp as [<-|Hp].
  - nra.
  - apply IH; [unfold Rsum; lra|exact Hp].
Qed.

Lemma Rsum_affine {A : Type} (f : A -> R) (a b : R) (l : list A) :
  Rsum (map (fun p => a * f p + b) l) = a * Rsum (map f l) + INR (length l) * b.
Proof.
  induction l as [|p l IH]; [unfold Rsum; simpl; lra|].
  cbn [map length]. rewrite S_INR. unfold Rsum in *. cbn [fold_right].
  rewrite IH. ring.
Qed.

Lemma Rsum_scale_l {A : Type} (f : A -> R) (a : R) (l : list A) :
  Rsum (map (fun p => a * f p) l) = a * Rsum (map f l).
Proof.
  induction l as [|p l IH]; [unfold Rsum; simpl; lra|].
  unfold Rsum in *. cbn [map fold_right]. rewrite IH. ring.
Qed.

(** Pearson's coefficient of a column and a linear function of it *)
Lemma pearson_linear {A : Type} (f : A -> R) (a b : R) (l : list A) :
  (exists p q, In p l /\ In q l /\ f p <> f q) ->
  pearson (map (fun p => (f p, a * f p + b)) l) = slope_sign a.
Proof.
  intros (p & q & Hp & Hq & Hpq).
  assert (Hlen : 0 < INR (length l)).
  { destruct l as [|z l]; [destruct Hp|]. cbn [length]. rewrite S_INR.
    pose proof (pos_INR (length l)). lra. }
  set (m := Rmean (map f l)).
  set (S := Rsum (map (fun p => (f p - m) * (f p - m)) l)).
  assert (HS : 0 < S).
  { pose proof (Rsum_squares_nonneg (fun p => f p - m) l) as H0. change (0 <= S) in H0.
    destruct (Req_dec_T S 0) as [E|NE]; [exfalso|lra].
    pose proof (Rsum_squares_zero (fun p => f p - m) l) as Hall.
    change (S = 0 -> forall p, In p l -> f p - m = 0) in Hall. specialize (Hall E).
    apply Hpq. pose proof (Hall p Hp) as H1. pose proof (Hall q Hq) as H2.
    cbv beta in H1, H2. lra. }
  assert (Mg : Rmean (map (fun p => a * f p + b) l) = a * m + b).
  { unfold Rmean, m, Rmean. rewrite !length_map, Rsum_affine. field. lra. }
  assert (Cxx : codeviation fst fst (map (fun p => (f p, a * f p + b)) l) = S).
  { rewrite codeviation_map. cbn [fst]. reflexivity. }
  assert (Cxy : codeviation fst snd (map (fun p => (f p, a * f p + b)) l) = a * S).
  { rewrite codeviation_map. cbn [fst snd]. unfold codeviation. rewrite Mg. fold m.
    unfold S. rewrite <- Rsum_scale_l. f_equal. apply map_ext. intros z.
    change (Rmean (map (fun p0 : A => f p0) l)) with m. ring. }
  assert (Cyy : codeviation snd snd (map (fun p => (f p, a * f p + b)) l) = a * a * S).
  { rewrite codeviation_map. cbn [snd]. unfold codeviation. rewrite Mg.
    unfold S. rewrite <- Rsum_scale_l. f_equal. apply map_ext. intros z. ring. }
  unfold pearson. rewrite Cxx, Cxy, Cyy. unfold slope_sign, Rsign.
  replace (S * (a * a * S)) with ((a * S) * (a * S)) by ring.
  destruct (Rlt_dec a 0) as [Ha|Ha].
  - assert (HaS : 0 < - (a * S)) by nra.
    destruct (Req_dec_T (a * S * (a * S)) 0) as [E|_].
    { destruct (Rmult_integral _ _ E); lra. }
    replace (a * S * (a * S)) with ((- (a * S)) * (- (a * S))) by ring.
    rewrite sqrt_square by lra. f_equal. field. lra.
  - destruct (Rlt_dec 0 a) as [Ha'|Ha'].
    + assert (HaS : 0 < a * S) by nra.
      destruct (Req_dec_T (a * S * (a * S)) 0) as [E|_].
      { destruct (Rmult_integral _ _ E); lra. }
      rewrite sqrt_square by lra. f_equal. field. lra.
    + assert (a = 0) by lra. subst a.
      destruct (Req_dec_T (0 * S * (0 * S)) 0) as [_|NE]; [reflexivity|lra].
Qed.

End PearsonMatrix.

Section LinearTheorem.

Import Ideal IdealFacts MoreFixtures.
Local Open Scope R_scope.

Lemma numeric_frame_nth (data : dataset xreal) (i : nat) :
  (i < 6)%nat -> nth i (numeric_frame data) [] = map (measure i) data.
Proof.
  intros Hi. unfold numeric_frame, measure.
  rewrite (nth_indep _ [] ((fun c : string * (row xreal -> xreal) => map (snd c) data)
                             (""%string, fun _ => NaN)))
    by (rewrite length_map; exact Hi).
  rewrite (map_nth (fun c : string * (row xreal -> xreal) => map (snd c) data)).
  reflexivity.
Qed.

Lemma finite_pairs_linear {A : Type} (f g : A -> xreal) (a b : R) (l : list A) :
  (forall r, In r l -> exists x, f r = Fin x /\ g r = Fin (a * x + b)) ->
  finite_pairs (map f l) (map g l)
  = map (fun r => (to_R (f r), a * to_R (f r) + b)) l.
Proof.
  unfold finite_pairs. induction l as [|r l IH]; intros H; [reflexivity|].
  cbn [map combine flat_map].
  destruct (H r (or_introl eq_refl)) as (x & -> & ->).
  rewrite IH by (intros r' Hr'; apply H; right; exact Hr'). reflexivity.
Qed.

(** X12.  In exact arithmetic, when one of the six measures is a linear
    function [a * x + b] of another measure [x] on every row, all values
    being real numbers, and [x] takes at least two distinct values, their
    correlation is exactly 1 for a positive slope [a], exactly -1 for a
    negative slope, and NaN for slope 0. *)
Theorem correlation_of_linearly_related_measures
        (data : dataset xreal) (i j : nat) (a b : R) :
  (i < 6)%nat -> (j < 6)%nat ->
  (forall r, In r data -> exists x, measure i r = Fin x /\ measure j r = Fin (a * x + b)) ->
  (exists r1 r2, In r1 data /\ In r2 data /\ measure i r1 <> measure i r2) ->
  iloc (correlation_matrix data) i j = slope_sign a.
Proof.
  intros Hi Hj Hlin (r1 & r2 & H1 & H2 & Hne).
  unfold correlation_matrix. rewrite iloc_corr, numeric_frame_length.
  rewrite (proj2 (Nat.ltb_lt i 6) Hi), (proj2 (Nat.ltb_lt j 6) Hj). cbn [andb].
  rewrite corr_entry_pearson, !numeric_frame_nth by assumption.
  rewrite (finite_pairs_linear (measure i) (measure j) a b data Hlin).
  apply (pearson_linear (fun r => to_R (measure i r)) a b data).
  exists r1, r2. split; [exact H1|]. split; [exact H2|].
  destruct (Hlin r1 H1) as (x1 & E1 & _). destruct (Hlin r2 H2) as (x2 & E2 & _).
  rewrite E1, E2 in *. cbn [to_R]. intros E. apply Hne. rewrite E. reflexivity.
Qed.

Lemma correlation_of_linearly_related_measures_witness :
  iloc (correlation_matrix proportional) 2 0 = slope_sign 10.
Proof.
  apply (correlation_of_linearly_related_measures proportional 2 0 10 0).
  - lia.
  - lia.
  - intros r [<-|[<-|[]]]; [exists 10|exists 20]; split; try reflexivity;
      cbn; f_equal; lra.
  - exists (proportional_row 10 100), (proportional_row 20 200).
    split; [left; reflexivity|]. split; [right; left; reflexivity|].
    cbn. intros E. injection E as E. lra.
Defined.

End LinearTheorem.

(** ** Totals across the tables, and the recent months *)

Section RecentMonths.

Context {F : Type} {num : Number F}.

Lemma StronglySorted_app_inv {A : Type} (R : A -> A -> Prop) (l1 l2 : list A) :
  StronglySorted R (l1 ++ l2) ->
  StronglySorted R l2 /\ forall a b, In a l1 -> In b l2 -> R a b.
Proof.
  induction l1 as [|x l1 IH]; simpl; intros S.
  - split; [exact S|]. intros a b [].
  - inversion S as [|? ? S' HF]; subst. destruct (IH S') as [S2 H].
    split; [exact S2|]. intros a b [<-|Ha] Hb.
    + rewrite Forall_forall in HF. apply HF, in_or_app. right. exact Hb.
    + apply H; assumption.
Qed.

Lemma tail_length {A : Type} (n : nat) (l : list A) :
  length (tail n l) = Nat.min n (length l).
Proof. unfold tail. rewrite length_skipn. lia. Qed.

(** X14.  The "Recent Performance" lines are the last rows of the monthly
    table: there are six of them, or as many as the dataset has time periods
    when that is fewer; they come in chronological order; and every month of
    the table that is not shown is earlier than every month shown.  The
    report thus covers the latest six calendar months present in the data,
    whatever the order of the rows of the file. *)
Theorem recent_months_are_the_latest (data : dataset F) :
  map snd (recent_indicators data) = map month_year (tail 6 (monthly_trends data))
  /\ length (recent_indicators data) = Nat.min 6 (time_periods (data_quality_check data))
  /\ StronglySorted chronological (map period (tail 6 (monthly_trends data)))
  /\ (forall r r', In r (monthly_trends data) ->
                   In r' (tail 6 (monthly_trends data)) ->
                   In r (tail 6 (monthly_trends data))
                   \/ chronological (period r) (period r')).
Proof.
  pose proof (monthly_trends_chronological data) as S.
  change (StronglySorted chronological (map period (monthly_trends data))) in S.
  assert (Hlen : length (monthly_trends data) = time_periods (data_quality_check data)).
  { cbn [data_quality_check time_periods].
    rewrite <- (length_map mt_agg (monthly_trends data)), monthly_trends_agg, length_map.
    reflexivity. }
  unfold recent_indicators. rewrite map_map, length_map, tail_length, Hlen.
  split; [reflexivity|]. split; [reflexivity|].
  unfold tail.
  set (k := (length (monthly_trends data) - 6)%nat).
  rewrite <- (firstn_skipn k (monthly_trends data)) in S.
  rewrite map_app in S. destruct (StronglySorted_app_inv _ _ _ S) as [S2 H].
  split; [exact S2|].
  intros r r' Hr Hr'. rewrite <- (firstn_skipn k (monthly_trends data)) in Hr.
  apply in_app_or in Hr. destruct Hr as [Hr|Hr]; [right|left; exact Hr].
  apply H; apply in_map; assumption.
Qed.

End RecentMonths.

Section ExactTotals.

Import Ideal IdealFacts Fixtures.
Local Open Scope R_scope.



End ExactTotals.
